(** * caddy-casefold: the request-path rewriting handler, embedded and verified

    The development follows [handler.go].  Go strings are byte sequences
    ([gostring]); the functions of the Go standard library that the handler
    calls ([unicode/utf8], [unicode], [strings], [path], [path/filepath]) are
    written out after their Go sources, in one module per package.  The
    Unicode case tables above ASCII are data of the Go distribution and of
    [golang.org/x/text]; they are taken as a parameter ([CaseTables]).
    File-system calls and log output are events of a small free monad
    ([Prog]), so that "no directory read" is a statement about the program
    and holds against every file system. *)

From Stdlib Require Import String Ascii ZArith List Bool Lia Arith.
Import ListNotations.

Set Implicit Arguments.

(** ** Go strings *)

Definition gostring : Type := list ascii.

(** A literal: the bytes of the (UTF-8 encoded) Rocq string. *)
Definition str (s : string) : gostring := list_ascii_of_string s.
Arguments str : simpl never.

Definition byteZ (b : ascii) : Z := Z.of_N (N_of_ascii b).

(** Go's conversion [byte(x)] of an integer: the low eight bits. *)
Definition Zbyte (z : Z) : ascii := ascii_of_N (Z.to_N (z mod 256)).

Fixpoint streq (a b : gostring) : bool :=
  match a, b with
  | [], [] => true
  | x :: a', y :: b' => Ascii.eqb x y && streq a' b'
  | _, _ => false
  end.

Definition slash : ascii := "/"%char.

(** ** Package unicode/utf8 *)

Module utf8.
Local Open Scope Z_scope.

Definition RuneError : Z := 0xFFFD.
Definition RuneSelf : Z := 0x80.
Definition MaxRune : Z := 0x10FFFF.
Definition UTFMax : nat := 4.

Definition surrogateMin : Z := 0xD800.
Definition surrogateMax : Z := 0xDFFF.

Definition tx : Z := 0x80.
Definition t2 : Z := 0xC0.
Definition t3 : Z := 0xE0.
Definition t4 : Z := 0xF0.

Definition maskx : Z := 0x3F.
Definition mask2 : Z := 0x1F.
Definition mask3 : Z := 0x0F.
Definition mask4 : Z := 0x07.

Definition rune1Max : Z := 2 ^ 7 - 1.
Definition rune2Max : Z := 2 ^ 11 - 1.
Definition rune3Max : Z := 2 ^ 16 - 1.

Definition locb : Z := 0x80.
Definition hicb : Z := 0xBF.

Definition xx : Z := 0xF1.
Definition as_ : Z := 0xF0.
Definition s1 : Z := 0x02.
Definition s2 : Z := 0x13.
Definition s3 : Z := 0x03.
Definition s4 : Z := 0x23.
Definition s5 : Z := 0x34.
Definition s6 : Z := 0x04.
Definition s7 : Z := 0x44.

(** The table [first]: information about the first byte of an encoding. *)
Definition first (b : Z) : Z :=
  if b <? 0x80 then as_
  else if b <? 0xC2 then xx
  else if b <? 0xE0 then s1
  else if b =? 0xE0 then s2
  else if b <? 0xED then s3
  else if b =? 0xED then s4
  else if b <? 0xF0 then s3
  else if b =? 0xF0 then s5
  else if b <? 0xF4 then s6
  else if b =? 0xF4 then s7
  else xx.

(** The table [acceptRanges] (sixteen entries, the last eleven zero). *)
Definition acceptRanges (i : Z) : Z * Z :=
  if i =? 0 then (locb, hicb)
  else if i =? 1 then (0xA0, hicb)
  else if i =? 2 then (locb, 0x9F)
  else if i =? 3 then (0x90, hicb)
  else if i =? 4 then (locb, 0x8F)
  else (0, 0).

(** Wrap-around of a 32-bit signed integer ([rune] is [int32]). *)
Definition int32 (z : Z) : Z := (z + 2 ^ 31) mod 2 ^ 32 - 2 ^ 31.

Definition outside (b lo hi : Z) : bool := (b <? lo) || (hi <? b).

(** [utf8.DecodeRuneInString]: the first rune of [s] and its width in
    bytes; [(RuneError, 0)] on the empty string and [(RuneError, 1)] on an
    encoding that is not valid UTF-8. *)
Definition DecodeRuneInString (s : gostring) : Z * nat :=
  match s with
  | [] => (RuneError, 0%nat)
  | b0 :: _ =>
    let c0 := byteZ b0 in
    let x := first c0 in
    if as_ <=? x then
      let mask := Z.shiftr (int32 (Z.shiftl x 31)) 31 in
      (Z.lor (Z.land c0 (Z.lnot mask)) (Z.land RuneError mask), 1%nat)
    else
      let sz := Z.to_nat (Z.land x 7) in
      let accept := acceptRanges (Z.shiftr x 4) in
      if (length s <? sz)%nat then (RuneError, 1%nat)
      else
        let c1 := byteZ (nth 1 s zero) in
        if outside c1 (fst accept) (snd accept) then (RuneError, 1%nat)
        else if (sz <=? 2)%nat then
          (Z.lor (Z.shiftl (Z.land c0 mask2) 6) (Z.land c1 maskx), 2%nat)
        else
          let c2 := byteZ (nth 2 s zero) in
          if outside c2 locb hicb then (RuneError, 1%nat)
          else if (sz <=? 3)%nat then
            (Z.lor (Z.lor (Z.shiftl (Z.land c0 mask3) 12)
                          (Z.shiftl (Z.land c1 maskx) 6))
                   (Z.land c2 maskx), 3%nat)
          else
            let c3 := byteZ (nth 3 s zero) in
            if outside c3 locb hicb then (RuneError, 1%nat)
            else
              (Z.lor (Z.lor (Z.lor (Z.shiftl (Z.land c0 mask4) 18)
                                   (Z.shiftl (Z.land c1 maskx) 12))
                            (Z.shiftl (Z.land c2 maskx) 6))
                     (Z.land c3 maskx), 4%nat)
  end.

(** [utf8.RuneStart]: [b] is not a continuation byte. *)
Definition RuneStart (b : ascii) : bool :=
  negb (Z.land (byteZ b) 0xC0 =? 0x80).

(** The loop of [DecodeLastRuneInString] that walks [start] back to the
    nearest rune start, no further than [lim]. *)
Fixpoint back_to_start (s : gostring) (steps : nat) (start : Z) (lim : Z) : Z :=
  match steps with
  | O => start
  | S k =>
    if start <? lim then start
    else if RuneStart (nth (Z.to_nat start) s zero) then start
    else back_to_start s k (start - 1) lim
  end.

(** [utf8.DecodeLastRuneInString]. *)
Definition DecodeLastRuneInString (s : gostring) : Z * nat :=
  let end_ := length s in
  match end_ with
  | O => (RuneError, 0%nat)
  | S start0 =>
    let r := byteZ (nth start0 s zero) in
    if r <? RuneSelf then (r, 1%nat)
    else
      let lim := Z.max 0 (Z.of_nat end_ - Z.of_nat UTFMax) in
      let start := back_to_start s UTFMax (Z.of_nat start0 - 1) lim in
      let start := Z.to_nat (Z.max 0 start) in
      let '(r, size) := DecodeRuneInString (skipn start s) in
      if Nat.eqb (start + size) end_ then (r, size) else (RuneError, 1%nat)
  end.

(** [utf8.AppendRune] on an empty buffer: the UTF-8 encoding of [r]; a rune
    out of range or a surrogate half is written as [RuneError].  Go switches
    on [uint32(r)], so a negative rune is out of range. *)
Definition EncodeRune (r : Z) : gostring :=
  let i := r mod 2 ^ 32 in
  let enc3 (r : Z) :=
    [ Zbyte (Z.lor t3 (Z.shiftr r 12));
      Zbyte (Z.lor tx (Z.land (Z.shiftr r 6) maskx));
      Zbyte (Z.lor tx (Z.land r maskx)) ] in
  if i <=? rune1Max then [Zbyte r]
  else if i <=? rune2Max then
    [ Zbyte (Z.lor t2 (Z.shiftr r 6));
      Zbyte (Z.lor tx (Z.land r maskx)) ]
  else if (MaxRune <? i) || ((surrogateMin <=? i) && (i <=? surrogateMax)) then
    enc3 RuneError
  else if i <=? rune3Max then enc3 r
  else
    [ Zbyte (Z.lor t4 (Z.shiftr r 18));
      Zbyte (Z.lor tx (Z.land (Z.shiftr r 12) maskx));
      Zbyte (Z.lor tx (Z.land (Z.shiftr r 6) maskx));
      Zbyte (Z.lor tx (Z.land r maskx)) ].

(** What [for i, c := range s] enumerates: each rune of [s] with the bytes
    it was decoded from (one byte when the encoding is invalid).  [skip] is
    the number of bytes still belonging to the rune decoded last. *)
Fixpoint runes_from (skip : nat) (s : gostring) : list (Z * gostring) :=
  match s with
  | [] => []
  | _ :: s' =>
    match skip with
    | S k => runes_from k s'
    | O =>
      let '(c, w) := DecodeRuneInString s in
      (c, firstn w s) :: runes_from (w - 1) s'
    end
  end.

Definition runes (s : gostring) : list (Z * gostring) := runes_from 0 s.

End utf8.

(** ** Package unicode *)

(** The case tables above ASCII.  [To_LowerCase r] is
    [unicode.To(unicode.LowerCase, r)], read off [unicode.CaseRanges];
    [foldFull r] is the full case folding of [r] in the tables of
    [golang.org/x/text/cases], [None] when [r] has no mapping there.  Both
    are consulted for runes above [unicode.MaxASCII] only. *)
Class CaseTables : Type := {
  To_LowerCase : Z -> Z;
  foldFull : Z -> option (list Z)
}.

Module unicode.
Local Open Scope Z_scope.

Definition MaxASCII : Z := 0x7F.
Definition MaxLatin1 : Z := 0xFF.

(** The table [unicode.White_Space] above Latin-1. *)
Definition White_Space_above_Latin1 (r : Z) : bool :=
  (r =? 0x1680) || ((0x2000 <=? r) && (r <=? 0x200A))
  || (r =? 0x2028) || (r =? 0x2029) || (r =? 0x202F)
  || (r =? 0x205F) || (r =? 0x3000).

(** [unicode.IsSpace]; the test [uint32(r) <= MaxLatin1] fails on a
    negative rune. *)
Definition IsSpace (r : Z) : bool :=
  if (0 <=? r) && (r <=? MaxLatin1) then
    (r =? 9) || (r =? 10) || (r =? 11) || (r =? 12) || (r =? 13)
    || (r =? 32) || (r =? 0x85) || (r =? 0xA0)
  else White_Space_above_Latin1 r.

Definition isUpperASCII (c : Z) : bool := (65 <=? c) && (c <=? 90).

(** [unicode.ToLower]. *)
Definition ToLower `{CaseTables} (r : Z) : Z :=
  if r <=? MaxASCII then
    if isUpperASCII r then r + 32 else r
  else To_LowerCase r.

End unicode.

(** ** Package strings *)

Module strings.
Local Open Scope Z_scope.

(** [strings.HasPrefix]. *)
Fixpoint HasPrefix (s prefix : gostring) {struct prefix} : bool :=
  match prefix, s with
  | [], _ => true
  | p :: prefix', c :: s' => Ascii.eqb c p && HasPrefix s' prefix'
  | _ :: _, [] => false
  end.

(** [strings.TrimPrefix]. *)
Definition TrimPrefix (s prefix : gostring) : gostring :=
  if HasPrefix s prefix then skipn (length prefix) s else s.

(** [strings.Split(s, sep)] for a separator of one byte: the pieces between
    the occurrences of [sep], one more than there are occurrences. *)
Fixpoint Split (s : gostring) (sep : ascii) : list gostring :=
  match s with
  | [] => [[]]
  | c :: s' =>
    if Ascii.eqb c sep then [] :: Split s' sep
    else match Split s' sep with
         | seg :: segs => (c :: seg) :: segs
         | [] => [[c]]
         end
  end.

(** [strings.Join]. *)
Fixpoint Join (elems : list gostring) (sep : gostring) : gostring :=
  match elems with
  | [] => []
  | [e] => e
  | e :: elems' => e ++ sep ++ Join elems' sep
  end.

(** [strings.IndexByte(s, c) >= 0]. *)
Definition ContainsByte (s : gostring) (c : ascii) : bool :=
  existsb (Ascii.eqb c) s.

(** The first loop of [strings.ToLower]: is [s] all ASCII, and (as far as
    the loop went) does it have an upper-case letter. *)
Fixpoint scanASCII (s : gostring) (hasUpper : bool) : bool * bool :=
  match s with
  | [] => (true, hasUpper)
  | b :: s' =>
    let c := byteZ b in
    if utf8.RuneSelf <=? c then (false, hasUpper)
    else scanASCII s' (hasUpper || unicode.isUpperASCII c)
  end.

(** The ASCII branch of [strings.ToLower]: every byte in ['A'..'Z'] is
    moved by ['a' - 'A'], the runs between them are copied. *)
Definition lowerASCII (s : gostring) : gostring :=
  map (fun b => let c := byteZ b in
                if unicode.isUpperASCII c then Zbyte (c + 32) else b) s.

Section Map.
Variable mapping : Z -> Z.

(** The first loop of [strings.Map]: skip the runes that [mapping] leaves
    alone; at the first one it changes (an invalid byte counts as changed)
    return the builder, holding [s[:i]] and the mapped rune, and the runes
    of [s[i+width:]].  [None]: the loop ran to the end, [b.Cap() == 0]. *)
Fixpoint Map_first (prefix : gostring) (items : list (Z * gostring))
  : option (gostring * list (Z * gostring)) :=
  match items with
  | [] => None
  | (c, raw) :: rest =>
    let r := mapping c in
    if (r =? c) && negb (c =? utf8.RuneError) then
      Map_first (prefix ++ raw) rest
    else if (c =? utf8.RuneError) && negb (length raw =? 1)%nat && (r =? c) then
      Map_first (prefix ++ raw) rest
    else
      Some (prefix ++ (if 0 <=? r then utf8.EncodeRune r else []), rest)
  end.

(** The second loop of [strings.Map]. *)
Fixpoint Map_rest (b : gostring) (items : list (Z * gostring)) : gostring :=
  match items with
  | [] => b
  | (c, _) :: rest =>
    let r := mapping c in
    if 0 <=? r then
      if r <? utf8.RuneSelf then Map_rest (b ++ [Zbyte r]) rest
      else Map_rest (b ++ utf8.EncodeRune r) rest
    else Map_rest b rest
  end.

(** [strings.Map]. *)
Definition Map (s : gostring) : gostring :=
  match Map_first [] (utf8.runes s) with
  | None => s
  | Some (b, rest) => Map_rest b rest
  end.

End Map.

(** [strings.ToLower]. *)
Definition ToLower `{CaseTables} (s : gostring) : gostring :=
  let '(isASCII, hasUpper) := scanASCII s false in
  if isASCII then
    if negb hasUpper then s else lowerASCII s
  else Map unicode.ToLower s.

Section Trim.
Variable f : Z -> bool.

(** [strings.indexFunc(s, f, truth)]: the byte index of the first rune [r]
    with [f(r) == truth]; [None] for -1. *)
Fixpoint indexFunc_items (truth : bool) (i : nat) (items : list (Z * gostring))
  : option nat :=
  match items with
  | [] => None
  | (r, raw) :: rest =>
    if Bool.eqb (f r) truth then Some i
    else indexFunc_items truth (i + length raw) rest
  end.

Definition indexFunc (s : gostring) (truth : bool) : option nat :=
  indexFunc_items truth 0 (utf8.runes s).

(** [strings.lastIndexFunc(s, f, truth)]; [i] goes down by the width of a
    rune, at least one, in each round. *)
Fixpoint lastIndexFunc_loop (rounds : nat) (s : gostring) (truth : bool) (i : nat)
  : option nat :=
  match rounds with
  | O => None
  | S k =>
    if (i =? 0)%nat then None
    else
      let '(r, size) := utf8.DecodeLastRuneInString (firstn i s) in
      let i := (i - size)%nat in
      if Bool.eqb (f r) truth then Some i
      else lastIndexFunc_loop k s truth i
  end.

Definition lastIndexFunc (s : gostring) (truth : bool) : option nat :=
  lastIndexFunc_loop (length s) s truth (length s).

(** [strings.TrimLeftFunc]. *)
Definition TrimLeftFunc (s : gostring) : gostring :=
  match indexFunc s false with
  | None => []
  | Some i => skipn i s
  end.

(** [strings.TrimRightFunc]. *)
Definition TrimRightFunc (s : gostring) : gostring :=
  match lastIndexFunc s false with
  | Some i =>
    if utf8.RuneSelf <=? byteZ (nth i s zero) then
      firstn (i + snd (utf8.DecodeRuneInString (skipn i s))) s
    else firstn (i + 1) s
  | None => []
  end.

(** [strings.TrimFunc]. *)
Definition TrimFunc (s : gostring) : gostring :=
  TrimRightFunc (TrimLeftFunc s).

End Trim.

(** The table [asciiSpace]. *)
Definition asciiSpace (c : Z) : bool :=
  (c =? 9) || (c =? 10) || (c =? 11) || (c =? 12) || (c =? 13) || (c =? 32).

(** The second loop of [strings.TrimSpace], on [s[start:]] read from its
    end ([rs] is that slice reversed). *)
Fixpoint TrimSpace_stop (rs : gostring) : gostring :=
  match rs with
  | [] => []
  | b :: rs' =>
    let c := byteZ b in
    if utf8.RuneSelf <=? c then TrimRightFunc unicode.IsSpace (rev rs)
    else if asciiSpace c then TrimSpace_stop rs'
    else rev rs
  end.

(** [strings.TrimSpace]: the first loop looks for the first byte that is
    not an ASCII space and falls back to [TrimFunc] on a byte that is not
    ASCII. *)
Fixpoint TrimSpace (s : gostring) : gostring :=
  match s with
  | [] => []
  | b :: s' =>
    let c := byteZ b in
    if utf8.RuneSelf <=? c then TrimFunc unicode.IsSpace s
    else if asciiSpace c then TrimSpace s'
    else TrimSpace_stop (rev s)
  end.

End strings.

(** ** Package path *)

Module path.
Local Open Scope Z_scope.

Definition dot : ascii := "."%char.

(** The [..] case of [path.Clean] when it can backtrack: [out.w--], then
    [out.w] goes down while it is above [dotdot] and the byte at [out.w] is
    not a slash.  Returns the new [out.w]. *)
Fixpoint backtrack (out : gostring) (w : nat) (dotdot : nat) : nat :=
  match w with
  | O => O
  | S w' =>
    if (dotdot <? w)%nat && negb (Ascii.eqb (nth w out zero) slash)
    then backtrack out w' dotdot
    else w
  end.

(** Is the byte after the ones matched so far the end of an element:
    [r+k == n || path[r+k] == '/']. *)
Definition elem_ends (rest : gostring) : bool :=
  match rest with
  | [] => true
  | c :: _ => Ascii.eqb c slash
  end.

(** The loop [for r < n] of [path.Clean].  [rest] is [path[r:]], [out] the
    contents of the lazy buffer ([out.w] is its length).  [copying] is set
    while the inner loop of the default case copies a path element: it
    stops in front of the slash that ends the element, which the first case
    of the switch then skips. *)
Fixpoint Clean_loop (rooted : bool) (copying : bool) (rest : gostring)
                    (out : gostring) (dotdot : nat) : gostring :=
  match rest with
  | [] => out
  | c :: rest1 =>
    if copying then
      if Ascii.eqb c slash then Clean_loop rooted false rest1 out dotdot
      else Clean_loop rooted true rest1 (out ++ [c]) dotdot
    else if Ascii.eqb c slash then
      (* empty path element *)
      Clean_loop rooted false rest1 out dotdot
    else if Ascii.eqb c dot && elem_ends rest1 then
      (* . element *)
      Clean_loop rooted false rest1 out dotdot
    else
      let start_element :=
        (* real path element: add slash if needed, copy element *)
        let out :=
          if (rooted && negb (length out =? 1)%nat)
             || (negb rooted && negb (length out =? 0)%nat)
          then out ++ [slash] else out in
        Clean_loop rooted true rest1 (out ++ [c]) dotdot in
      match rest1 with
      | c1 :: rest2 =>
        if Ascii.eqb c dot && Ascii.eqb c1 dot && elem_ends rest2 then
          (* .. element: remove to last / *)
          if (dotdot <? length out)%nat then
            let w := backtrack out (length out - 1) dotdot in
            Clean_loop rooted false rest2 (firstn w out) dotdot
          else if negb rooted then
            (* cannot backtrack, but not rooted, so append .. element *)
            let out := if (0 <? length out)%nat then out ++ [slash] else out in
            let out := out ++ [dot; dot] in
            Clean_loop rooted false rest2 out (length out)
          else Clean_loop rooted false rest2 out dotdot
        else start_element
      | [] => start_element
      end
  end.

(** [path.Clean]. *)
Definition Clean (p : gostring) : gostring :=
  match p with
  | [] => [dot]
  | c :: rest =>
    let out :=
      if Ascii.eqb c slash then Clean_loop true false rest [slash] 1
      else Clean_loop false false p [] 0 in
    match out with
    | [] => [dot]
    | _ => out
    end
  end.

(** [path.ErrBadPattern], the only error of [path.Match]. *)
Inductive error : Type := ErrBadPattern.

Definition star : ascii := "*"%char.
Definition backslash : ascii := "\"%char.

(** The scanning loop of [path.scanChunk]: the length of the chunk at the
    head of [pattern], which ends at the first [*] outside a character
    class.  [esc] is set on the byte after a backslash. *)
Fixpoint scanChunk_len (pattern : gostring) (inrange esc : bool) : nat :=
  match pattern with
  | [] => O
  | c :: pattern' =>
    if esc then S (scanChunk_len pattern' inrange false)
    else if Ascii.eqb c backslash then
      S (scanChunk_len pattern' inrange
           (match pattern' with [] => false | _ => true end))
    else if Ascii.eqb c "["%char then S (scanChunk_len pattern' true false)
    else if Ascii.eqb c "]"%char then S (scanChunk_len pattern' false false)
    else if Ascii.eqb c star then
      if inrange then S (scanChunk_len pattern' inrange false) else O
    else S (scanChunk_len pattern' inrange false)
  end.

Fixpoint skip_stars (pattern : gostring) (star_seen : bool) : bool * gostring :=
  match pattern with
  | c :: pattern' =>
    if Ascii.eqb c star then skip_stars pattern' true else (star_seen, pattern)
  | [] => (star_seen, [])
  end.

(** [path.scanChunk]: the next segment of the pattern, a non-star string
    possibly preceded by a star; returns [(star, chunk, rest)]. *)
Definition scanChunk (pattern : gostring) : bool * gostring * gostring :=
  let '(star_seen, pattern) := skip_stars pattern false in
  let i := scanChunk_len pattern false false in
  (star_seen, firstn i pattern, skipn i pattern).

(** The end of [path.getEsc]: decode the character at the head of
    [chunk], which is not empty. *)
Definition getEsc_rune (chunk : gostring) : Z * gostring * option error :=
  let '(r, n) := utf8.DecodeRuneInString chunk in
  let nchunk := skipn n chunk in
  let err :=
    if ((r =? utf8.RuneError) && (n =? 1)%nat)
       || match nchunk with [] => true | _ => false end
    then Some ErrBadPattern else None in
  (r, nchunk, err).

(** [path.getEsc]: a possibly escaped character of a character class;
    returns [(r, nchunk, err)]. *)
Definition getEsc (chunk : gostring) : Z * gostring * option error :=
  match chunk with
  | [] => (0, [], Some ErrBadPattern)
  | c :: chunk' =>
    if Ascii.eqb c "-"%char || Ascii.eqb c "]"%char then
      (0, [], Some ErrBadPattern)
    else if Ascii.eqb c backslash then
      match chunk' with
      | [] => (0, [], Some ErrBadPattern)
      | _ => getEsc_rune chunk'
      end
    else getEsc_rune chunk
  end.

(** The upper end of a range: [hi = lo] unless a [-] follows. *)
Definition getHi (lo : Z) (chunk : gostring) : Z * gostring * option error :=
  match chunk with
  | c :: after =>
    if Ascii.eqb c "-"%char then getEsc after else (lo, chunk, None)
  | [] => (lo, chunk, None)
  end.

(** The loop of [path.matchChunk] that parses the ranges of a character
    class, after the opening bracket and a possible [^].  Each round takes
    at least one byte off [chunk]; [rounds] bounds their number.  Returns
    [(chunk, match, err)]; [None] when [rounds] is used up. *)
Fixpoint matchRanges (rounds : nat) (chunk : gostring) (r : Z)
                     (matched : bool) (nrange : nat)
  : option (gostring * bool * option error) :=
  match rounds with
  | O => None
  | S k =>
    let closing :=
      match chunk with
      | c :: _ => Ascii.eqb c "]"%char && (0 <? nrange)%nat
      | [] => false
      end in
    if closing then Some (tl chunk, matched, None)
    else
      let '(lo, chunk1, err) := getEsc chunk in
      match err with
      | Some e => Some ([], false, Some e)
      | None =>
        let '(hi, chunk2, err2) := getHi lo chunk1 in
        match err2 with
        | Some e => Some ([], false, Some e)
        | None =>
          let matched := matched || ((lo <=? r) && (r <=? hi)) in
          matchRanges k chunk2 r matched (S nrange)
        end
      end
  end.

(** A character class reads a rune of [s], unless the match has failed. *)
Definition class_rune (s : gostring) (failed : bool) : Z * gostring :=
  if failed then (0, s)
  else let '(r, n) := utf8.DecodeRuneInString s in (r, skipn n s).

(** A character class is possibly negated. *)
Definition class_negated (chunk : gostring) : bool * gostring :=
  match chunk with
  | c :: chunk' =>
    if Ascii.eqb c "^"%char then (true, chunk') else (false, chunk)
  | [] => (false, chunk)
  end.

(** [?] takes a rune of [s], which must not be a slash. *)
Definition any_rune (s : gostring) (failed : bool) : gostring * bool :=
  if failed then (s, failed)
  else (skipn (snd (utf8.DecodeRuneInString s)) s,
        match s with c0 :: _ => Ascii.eqb c0 slash | [] => false end).

(** A literal byte [c] of the chunk takes the same byte of [s]. *)
Definition literal_byte (c : ascii) (s : gostring) (failed : bool)
  : gostring * bool :=
  if failed then (s, failed)
  else match s with
       | c0 :: s' => (s', negb (Ascii.eqb c c0))
       | [] => (s, failed)
       end.

(** The loop of [path.matchChunk].  After the match has failed the loop
    goes on through the chunk, checking that it is well formed, without
    reading [s].  Returns [(rest, ok, err)]; [None] when [rounds] is used
    up. *)
Fixpoint matchChunk_loop (rounds : nat) (chunk s : gostring) (failed : bool)
  : option (gostring * bool * option error) :=
  match chunk with
  | [] => Some (if failed then ([], false, None) else (s, true, None))
  | c :: chunk' =>
    match rounds with
    | O => None
    | S k =>
      let failed := failed || match s with [] => true | _ => false end in
      if Ascii.eqb c "["%char then
        (* character class *)
        let '(r, s) := class_rune s failed in
        let '(negated, chunk) := class_negated chunk' in
        match matchRanges (S (length chunk)) chunk r false 0 with
        | None => None
        | Some (_, _, Some e) => Some ([], false, Some e)
        | Some (chunk, matched, None) =>
          matchChunk_loop k chunk s (failed || Bool.eqb matched negated)
        end
      else if Ascii.eqb c "?"%char then
        let '(s, failed) := any_rune s failed in
        matchChunk_loop k chunk' s failed
      else
        let chunk := if Ascii.eqb c backslash then chunk' else chunk in
        match chunk with
        | [] => Some ([], false, Some ErrBadPattern)
        | c :: chunk' =>
          let '(s, failed) := literal_byte c s failed in
          matchChunk_loop k chunk' s failed
        end
    end
  end.

(** [path.matchChunk]: does [chunk] match the beginning of [s]. *)
Definition matchChunk (chunk s : gostring)
  : option (gostring * bool * option error) :=
  matchChunk_loop (length chunk) chunk s false.

(** What the loop over skipped bytes in [path.Match] comes to. *)
Inductive star_result : Type :=
| StarFound (t : gostring)
| StarError (e : error)
| StarNone
| StarFuel.

(** The loop [for i := 0; i < len(name) && name[i] != '/'; i++] of
    [path.Match]: look for a match of [chunk] skipping [i+1] bytes. *)
Fixpoint star_search (chunk : gostring) (last : bool) (name : gostring)
  : star_result :=
  match name with
  | [] => StarNone
  | c :: name' =>
    if Ascii.eqb c slash then StarNone
    else
      match matchChunk chunk name' with
      | None => StarFuel
      | Some (t, true, _) =>
        if last && (0 <? length t)%nat then star_search chunk last name'
        else StarFound t
      | Some (_, false, Some e) => StarError e
      | Some (_, false, None) => star_search chunk last name'
      end
  end.

(** The check, before [path.Match] returns false, that the remainder of the
    pattern is well formed. *)
Fixpoint check_rest (rounds : nat) (pattern : gostring)
  : option (bool * option error) :=
  match pattern with
  | [] => Some (false, None)
  | _ =>
    match rounds with
    | O => None
    | S k =>
      let '(_, chunk, pattern) := scanChunk pattern in
      match matchChunk chunk [] with
      | None => None
      | Some (_, _, Some e) => Some (false, Some e)
      | Some (_, _, None) => check_rest k pattern
      end
    end
  end.

(** The loop [Pattern:] of [path.Match]; each round takes a chunk off the
    pattern.  [None] when [rounds] is used up. *)
Fixpoint Match_loop (rounds : nat) (pattern name : gostring)
  : option (bool * option error) :=
  match pattern with
  | [] => Some (match name with [] => true | _ => false end, None)
  | _ =>
    match rounds with
    | O => None
    | S k =>
      let '(star_seen, chunk, pattern) := scanChunk pattern in
      let last := match pattern with [] => true | _ => false end in
      if star_seen && match chunk with [] => true | _ => false end then
        (* Trailing * matches rest of string unless it has a /. *)
        Some (negb (strings.ContainsByte name slash), None)
      else
        (* Look for match at current position. *)
        match matchChunk chunk name with
        | None => None
        | Some (t, ok, err) =>
          if ok && (match t with [] => true | _ => false end || negb last) then
            Match_loop k pattern t
          else
            match err with
            | Some e => Some (false, Some e)
            | None =>
              match (if star_seen then star_search chunk last name
                     else StarNone) with
              | StarFound t => Match_loop k pattern t
              | StarError e => Some (false, Some e)
              | StarFuel => None
              | StarNone => check_rest (length pattern) pattern
              end
            end
        end
    end
  end.

(** [path.Match]: does [name] match the shell pattern.  The rounds given
    to the loops are never used up ([Match_loop_total]); the last case only
    makes the function total. *)
Definition Match (pattern name : gostring) : bool * option error :=
  match Match_loop (length pattern) pattern name with
  | Some res => res
  | None => (false, Some ErrBadPattern)
  end.

End path.

(** ** Package golang.org/x/text/cases *)

Module cases.
Local Open Scope Z_scope.

(** The folding of one rune: the case trie holds the ASCII letters with
    their lower-case forms, and [foldFull] for what is above ASCII. *)
Definition foldRune `{CaseTables} (c : Z) : option (list Z) :=
  if c <=? unicode.MaxASCII then
    if unicode.isUpperASCII c then Some [c + 32] else None
  else foldFull c.

(** One round of [caseFolder.Transform]: a rune without a mapping, and a
    byte that starts no valid encoding (consumed one byte at a time), is
    copied; a rune with a mapping is replaced by its full folding. *)
Definition foldChunk `{CaseTables} (item : Z * gostring) : gostring :=
  let '(c, raw) := item in
  if (c =? utf8.RuneError) && (length raw =? 1)%nat then raw
  else match foldRune c with
       | None => raw
       | Some rs => concat (map utf8.EncodeRune rs)
       end.

(** [cases.Fold().String]. *)
Definition Fold_String `{CaseTables} (s : gostring) : gostring :=
  concat (map foldChunk (utf8.runes s)).

End cases.

(** ** Effects: the file system and the logger *)

(** [ReadDir] answers with the names of the entries, [Stat] with
    [fi.IsDir()]; [None] stands for an error. *)
Inductive Event : Type -> Type :=
| ReadDir (name : gostring) : Event (option (list gostring))
| Stat (name : gostring) : Event (option bool)
| Getwd : Event (option gostring)
| Warn (msg : gostring) : Event unit.

(** A program: it returns, panics, or performs an event and goes on with
    the answer. *)
Inductive Prog (A : Type) : Type :=
| Ret (a : A)
| Panic
| Vis (X : Type) (e : Event X) (k : X -> Prog A).

Arguments Ret {A} a.
Arguments Panic {A}.
Arguments Vis {A X} e k.

Fixpoint bind {A B : Type} (m : Prog A) (f : A -> Prog B) : Prog B :=
  match m with
  | Ret a => f a
  | Panic => Panic
  | Vis e k => Vis e (fun x => bind (k x) f)
  end.

Notation "x <- m ;; f" := (bind m (fun x => f))
  (at level 61, m at next level, right associativity).

(** One event with the answer it got. *)
Inductive Obs : Type :=
| obs (X : Type) (e : Event X) (x : X).

(** [Yields m t a]: [m] returns [a] after the events of [t], answered as
    recorded there.  Nothing is assumed of the answers: the file system may
    change between two events. *)
Inductive Yields {A : Type} : Prog A -> list Obs -> A -> Prop :=
| Yields_Ret (a : A) : Yields (Ret a) [] a
| Yields_Vis (X : Type) (e : Event X) (k : X -> Prog A) (x : X)
             (t : list Obs) (a : A) :
    Yields (k x) t a -> Yields (Vis e k) (obs e x :: t) a.

(** [NoPanic m]: no answers make [m] panic. *)
Inductive NoPanic {A : Type} : Prog A -> Prop :=
| NoPanic_Ret (a : A) : NoPanic (Ret a)
| NoPanic_Vis (X : Type) (e : Event X) (k : X -> Prog A) :
    (forall x, NoPanic (k x)) -> NoPanic (Vis e k).

(** A file system that does not change: what [os.ReadDir], [os.Stat] and
    [os.Getwd] answer. *)
Record FS : Type := {
  fs_ReadDir : gostring -> option (list gostring);
  fs_Stat : gostring -> option bool;
  fs_Getwd : option gostring
}.

Definition answer (fs : FS) (X : Type) (e : Event X) : X :=
  match e in Event T return T with
  | ReadDir name => fs_ReadDir fs name
  | Stat name => fs_Stat fs name
  | Getwd => fs_Getwd fs
  | Warn _ => tt
  end.

(** Run a program on a file system: its result ([None] for a panic) and
    the events it performed. *)
Fixpoint run {A : Type} (fs : FS) (m : Prog A) : option A * list Obs :=
  match m with
  | Ret a => (Some a, [])
  | Panic => (None, [])
  | Vis e k =>
    let x := answer fs e in
    let '(res, t) := run fs (k x) in
    (res, obs e x :: t)
  end.

(** ** Package path/filepath (Unix) *)

Module filepath.

(** [filepath.IsAbs]. *)
Definition IsAbs (p : gostring) : bool := strings.HasPrefix p [slash].

(** [filepath.Join]: the elements from the first non-empty one on, joined
    with the separator and cleaned. *)
Fixpoint Join (elem : list gostring) : gostring :=
  match elem with
  | [] => []
  | [] :: elem' => Join elem'
  | _ :: _ => path.Clean (strings.Join elem [slash])
  end.

(** [filepath.Abs]; [None] for the error of [os.Getwd]. *)
Definition Abs (p : gostring) : Prog (option gostring) :=
  if IsAbs p then Ret (Some (path.Clean p))
  else
    Vis Getwd (fun wd =>
      match wd with
      | None => Ret None
      | Some wd => Ret (Some (Join [wd; p]))
      end).

End filepath.

(** ** Package net/http: what the handler touches *)

Module http.

(** [http.Header]: keys with their values.  [Set] and [Get] compare keys in
    the form the handler writes them. *)
Definition Header : Type := list (gostring * list gostring).

Definition Header_Set (h : Header) (key value : gostring) : Header :=
  (key, [value]) :: filter (fun kv => negb (streq (fst kv) key)) h.

Fixpoint Header_Get (h : Header) (key : gostring) : gostring :=
  match h with
  | [] => []
  | (k, vs) :: h' =>
    if streq k key then match vs with v :: _ => v | [] => [] end
    else Header_Get h' key
  end.

Fixpoint Header_Has (h : Header) (key : gostring) : bool :=
  match h with
  | [] => false
  | (k, _) :: h' => streq k key || Header_Has h' key
  end.

Record URL : Type := {
  Path : gostring;
  RawQuery : gostring
}.

Record Request : Type := {
  Request_URL : URL;
  RequestURI : gostring;
  Request_Header : Header
}.

Record ResponseWriter : Type := {
  Writer_Header : Header
}.

End http.

(** ** Package casefold: handler.go *)

Module casefold.
Import http.

(** The implementations of the interface [caser] that [Provision] picks
    from: [lowerCaser{}] and [cases.Fold()]. *)
Inductive caser : Type :=
| lowerCaser
| cases_Fold.

(** [lowerCaser.String] and [cases.Caser.String]. *)
Definition caser_String `{CaseTables} (f : caser) (s : gostring) : gostring :=
  match f with
  | lowerCaser => strings.ToLower s
  | cases_Fold => cases.Fold_String s
  end.

(** The struct [Casefold]; [fold] is [None] while the interface is nil. *)
Record Casefold : Type := {
  Mode : gostring;
  Root : gostring;
  Exclude : list gostring;
  fold : option caser
}.

Definition set_fold (c : Casefold) (f : caser) : Casefold :=
  {| Mode := Mode c; Root := Root c; Exclude := Exclude c; fold := Some f |}.

Definition set_Root (c : Casefold) (root : gostring) : Casefold :=
  {| Mode := Mode c; Root := root; Exclude := Exclude c; fold := fold c |}.

Definition is_empty (s : gostring) : bool :=
  match s with [] => true | _ => false end.

(** The mode as [Provision] and [ServeHTTP] both compute it. *)
Definition mode_of `{CaseTables} (c : Casefold) : gostring :=
  strings.ToLower (strings.TrimSpace (Mode c)).

Definition warn_fs_no_root : gostring :=
  str "fs mode enabled but root not set; skipping canonicalization".
Definition warn_unknown_mode : gostring :=
  str "unknown casefold mode; defaulting to lower".

(** [Provision]; it returns the receiver as it leaves it (the Go error is
    always nil). *)
Definition Provision `{CaseTables} (c : Casefold) : Prog Casefold :=
  let mode := mode_of c in
  if is_empty mode || streq mode (str "lower") then
    Ret (set_fold c lowerCaser)
  else if streq mode (str "fold") then
    Ret (set_fold c cases_Fold)
  else if streq mode (str "fs") then
    (* handled dynamically in ServeHTTP; keep fold nil *)
    if is_empty (Root c) then
      Vis (Warn warn_fs_no_root) (fun _ => Ret c)
    else if negb (filepath.IsAbs (Root c)) then
      abs <- filepath.Abs (Root c) ;;
      match abs with
      | Some abs => Ret (set_Root c abs)
      | None => Ret c
      end
    else Ret c
  else
    Vis (Warn warn_unknown_mode) (fun _ => Ret (set_fold c lowerCaser)).

(** [skip]: true if the path matches an exclude pattern. *)
Fixpoint skip_patterns (patterns : list gostring) (p : gostring) : bool :=
  match patterns with
  | [] => false
  | gl :: patterns' =>
    if is_empty gl then skip_patterns patterns' p
    else if fst (path.Match gl p) then true
    else skip_patterns patterns' p
  end.

Definition skip (c : Casefold) (p : gostring) : bool :=
  skip_patterns (Exclude c) p.

(** The two searches of [canonicalFS] through the entries of a directory;
    the empty name stands for "no match", as in the source. *)
Fixpoint exact_match (entries : list gostring) (seg : gostring) : gostring :=
  match entries with
  | [] => []
  | name :: entries' =>
    if streq name seg then name else exact_match entries' seg
  end.

Fixpoint lowered_match `{CaseTables} (entries : list gostring)
                       (lowered : gostring) : gostring :=
  match entries with
  | [] => []
  | name :: entries' =>
    if streq (strings.ToLower name) lowered then name
    else lowered_match entries' lowered
  end.

Definition find_match `{CaseTables} (entries : list gostring)
                      (seg : gostring) : gostring :=
  let matchName := exact_match entries seg in
  if is_empty matchName then lowered_match entries (strings.ToLower seg)
  else matchName.

(** The loop [for i, seg := range segs] of [canonicalFS]; the segments
    not yet resolved are [segs], and [i < len(segs)-1] holds when more than
    one is left. *)
Fixpoint canonicalFS_loop `{CaseTables} (p : gostring) (segs : list gostring)
                          (curDir : gostring) (built : list gostring)
  : Prog (gostring * bool) :=
  match segs with
  | [] => Ret (slash :: strings.Join built [slash], true)
  | seg :: segs' =>
    Vis (ReadDir curDir) (fun entries =>
      match entries with
      | None => Ret (p, false)
      | Some entries =>
        let matchName := find_match entries seg in
        if is_empty matchName then Ret (p, false)
        else
          let built := built ++ [matchName] in
          match segs' with
          | [] => canonicalFS_loop p segs' curDir built
          | _ :: _ =>
            (* descend only if not final segment *)
            let curDir := filepath.Join [curDir; matchName] in
            Vis (Stat curDir) (fun fi =>
              match fi with
              | Some true => canonicalFS_loop p segs' curDir built
              | _ => Ret (p, false)
              end)
          end
      end)
  end.

Definition dotdot : gostring := str "..".

(** [canonicalFS]: replace each path segment with the actual casing found
    on disk under [Root]. *)
Definition canonicalFS `{CaseTables} (c : Casefold) (p : gostring)
  : Prog (gostring * bool) :=
  if is_empty (Root c) then Ret (p, false)
  else
    let clean := path.Clean p in
    if negb (strings.HasPrefix clean [slash]) then Ret (p, false)
    else if streq clean [slash] then Ret (p, false)
    else
      let segs := strings.Split (strings.TrimPrefix clean [slash]) slash in
      let curDir := Root c in
      (* prevent traversal outside root: reject any segment with '..' *)
      if existsb (fun s => streq s dotdot) segs then Ret (p, false)
      else canonicalFS_loop p segs curDir [].

Definition X_Original_URI : gostring := str "X-Original-URI".

(** The assignments of [ServeHTTP] when the path has changed. *)
Definition rewrite_request (r : Request) (orig transformed : gostring)
  : Request :=
  {| Request_URL := {| Path := transformed;
                       RawQuery := RawQuery (Request_URL r) |};
     RequestURI := transformed;
     Request_Header := Header_Set (Request_Header r) X_Original_URI orig |}.

Definition rewrite_writer (w : ResponseWriter) (orig : gostring)
  : ResponseWriter :=
  {| Writer_Header := Header_Set (Writer_Header w) X_Original_URI orig |}.

(** [ServeHTTP]; [next] is the rest of the handler chain, called on the
    writer and the request as the handler leaves them. *)
Definition ServeHTTP `{CaseTables} {R : Type} (c : Casefold)
    (w : ResponseWriter) (r : Request)
    (next : ResponseWriter -> Request -> Prog R) : Prog R :=
  let orig := Path (Request_URL r) in
  if is_empty orig || streq orig [slash] then next w r
  else if skip c orig then next w r
  else
    let mode := mode_of c in
    transformed <-
      (if is_empty mode || streq mode (str "lower") || streq mode (str "fold")
       then match fold c with
            | Some f => Ret (caser_String f orig)
            | None => Panic
            end
       else if streq mode (str "fs") then
         res <- canonicalFS c orig ;;
         (let '(canon, ok) := res in
          if ok then Ret canon
          else (* fallback to original (no change) if not all segments resolved *)
            Ret orig)
       else Ret orig) ;;
    if negb (streq transformed orig) then
      next (rewrite_writer w orig) (rewrite_request r orig transformed)
    else next w r.

(** The result of a decision, read off what reaches the next handler: the
    handler has rewritten the path exactly when it has set the header
    [X-Original-URI] on the response. *)
Inductive RewriteOutcome : Type :=
| UNCHANGED
| REWRITTEN (newPath : gostring).

Definition observe (w : ResponseWriter) (r : Request) : Prog RewriteOutcome :=
  Ret (if Header_Has (Writer_Header w) X_Original_URI
       then REWRITTEN (Path (Request_URL r))
       else UNCHANGED).

Definition request_for (p query : gostring) : Request :=
  {| Request_URL := {| Path := p; RawQuery := query |};
     RequestURI := if is_empty query then p else p ++ str "?" ++ query;
     Request_Header := [] |}.

Definition decide `{CaseTables} (c : Casefold) (originalPath : gostring)
  : Prog RewriteOutcome :=
  ServeHTTP c {| Writer_Header := [] |} (request_for originalPath []) observe.

(** [caddy.ModuleInfo], as far as [CaddyModule] fills it in. *)
Record ModuleInfo : Type := {
  ID : gostring;
  New : unit -> Casefold
}.

(** [CaddyModule]; [New] returns [new(Casefold)], the zero value. *)
Definition CaddyModule : ModuleInfo :=
  {| ID := str "http.handlers.casefold";
     New := fun _ => {| Mode := []; Root := []; Exclude := []; fold := None |} |}.

End casefold.

(** ** Package casefold: handler_test.go *)

Module casefold_test.
Import http casefold.
Local Open Scope Z_scope.

(** What the test reads off [httptest.ResponseRecorder] in the end. *)
Record Recorder : Type := {
  Rec_Header : Header;
  Code : Z;
  Body : gostring
}.

Definition X_Final_Path : gostring := str "X-Final-Path".
Definition StatusOK : Z := 200.

(** [recordHandler.ServeHTTP], the last handler of the chain. *)
Definition recordHandler (w : ResponseWriter) (r : Request) : Prog Recorder :=
  let h := Header_Set (Writer_Header w) X_Final_Path (Path (Request_URL r)) in
  Ret {| Rec_Header := h; Code := StatusOK; Body := Path (Request_URL r) |}.

End casefold_test.

(** ** Package casefold: the handler.go that has no mode [fs] *)

(** The file differs from the one above in the struct, which has no
    [Root], in [Provision] and in [ServeHTTP]; [caser], [lowerCaser] and
    the loop of [skip] are the same. *)
Module casefold_nofs.
Import http.

Record Casefold : Type := {
  Mode : gostring;
  Exclude : list gostring;
  fold : option casefold.caser
}.

Definition set_fold (c : Casefold) (f : casefold.caser) : Casefold :=
  {| Mode := Mode c; Exclude := Exclude c; fold := Some f |}.

Definition mode_of `{CaseTables} (c : Casefold) : gostring :=
  strings.ToLower (strings.TrimSpace (Mode c)).

(** [Provision]. *)
Definition Provision `{CaseTables} (c : Casefold) : Prog Casefold :=
  let mode := mode_of c in
  if casefold.is_empty mode || streq mode (str "lower") then
    Ret (set_fold c casefold.lowerCaser)
  else if streq mode (str "fold") then
    Ret (set_fold c casefold.cases_Fold)
  else
    Vis (Warn casefold.warn_unknown_mode)
        (fun _ => Ret (set_fold c casefold.lowerCaser)).

(** [skip]; the loop is the one of the other handler.go. *)
Definition skip (c : Casefold) (p : gostring) : bool :=
  casefold.skip_patterns (Exclude c) p.

(** [ServeHTTP]. *)
Definition ServeHTTP `{CaseTables} {R : Type} (c : Casefold)
    (w : ResponseWriter) (r : Request)
    (next : ResponseWriter -> Request -> Prog R) : Prog R :=
  let orig := Path (Request_URL r) in
  if casefold.is_empty orig || streq orig [slash] then next w r
  else if skip c orig then next w r
  else
    match fold c with
    | None => Panic
    | Some f =>
      let transformed := casefold.caser_String f orig in
      if negb (streq transformed orig) then
        (* Expose original path to downstream handlers (request) and
           client (response) *)
        next (casefold.rewrite_writer w orig)
             (casefold.rewrite_request r orig transformed)
      else next w r
    end.

End casefold_nofs.

(** ** Sample data: tables, file systems and configurations *)

Module sample.
Import http casefold.
Local Open Scope Z_scope.

(** A few entries of the Unicode tables: E-acute, capital I with dot,
    the Kelvin sign, sharp s. *)
Definition tables : CaseTables := {|
  To_LowerCase := fun r =>
    if r =? 0xC9 then 0xE9
    else if r =? 0x130 then 0x69
    else if r =? 0x212A then 0x6B
    else r;
  foldFull := fun r =>
    if r =? 0xDF then Some [0x73; 0x73]
    else if r =? 0xC9 then Some [0xE9]
    else if r =? 0x130 then Some [0x69; 0x307]
    else if r =? 0x212A then Some [0x6B]
    else None
|}.

(** A site root [/srv] holding [b] and [scripts/MyScript.bat]. *)
Definition site : FS := {|
  fs_ReadDir := fun d =>
    if streq d (str "/srv") then Some [str "b"; str "scripts"]
    else if streq d (str "/srv/scripts") then Some [str "MyScript.bat"]
    else None;
  fs_Stat := fun d =>
    if streq d (str "/srv/scripts") then Some true
    else if streq d (str "/srv/b") then Some false
    else None;
  fs_Getwd := Some (str "/home/caddy")
|}.

Definition config (mode root : string) (exclude : list string) : Casefold :=
  {| Mode := str mode; Root := str root; Exclude := map str exclude;
     fold := None |}.

(** The configuration as [Provision] leaves it on [site]. *)
Definition provisioned (c : Casefold) : Casefold :=
  match fst (run site (Provision (H := tables) c)) with
  | Some c' => c'
  | None => c
  end.

Definition writer0 : ResponseWriter := {| Writer_Header := [] |}.

(** [/stra\u00DFe], the path of [TestCasefoldFoldMode]. *)
Definition strasse : gostring :=
  str "/stra" ++ [Zbyte 0xC3; Zbyte 0x9F] ++ str "e".

(** A path with sharp s, E-acute, and a byte that is not valid UTF-8. *)
Definition mixed : gostring :=
  str "/Stra" ++ [Zbyte 0xC3; Zbyte 0x9F] ++ str "e/"
  ++ [Zbyte 0xC3; Zbyte 0x89] ++ str "T" ++ [Zbyte 0xC3] ++ str "/K".

End sample.

(** * The vocabulary of the properties *)

Import http casefold.

(** ** Modes and outcomes *)

(** The modes in which [ServeHTTP] calls the caser. *)
Definition caser_mode (mode : gostring) : bool :=
  is_empty mode || streq mode (str "lower") || streq mode (str "fold").

(** The modes for which [ServeHTTP] has a case. *)
Definition known_mode (mode : gostring) : bool :=
  caser_mode mode || streq mode (str "fs").

(** The continuation that hands back the writer and the request. *)
Definition pass (w : ResponseWriter) (r : Request)
  : Prog (ResponseWriter * Request) := Ret (w, r).

(** How [ServeHTTP] comes by a transformed path: from the caser, or from a
    successful [canonicalFS]. *)
Definition transformed_by {T : CaseTables} (c : Casefold)
           (orig transformed : gostring) : Prop :=
  (caser_mode (mode_of c) = true /\
   exists f, fold c = Some f /\ transformed = caser_String f orig) \/
  (caser_mode (mode_of c) = false /\ mode_of c = str "fs" /\
   exists t, Yields (canonicalFS c orig) t (transformed, true)).

(** ** Patterns *)

(** A byte of a pattern that stands for itself. *)
Definition plain_byte (c : ascii) : bool :=
  negb (Ascii.eqb c path.star || Ascii.eqb c "?" || Ascii.eqb c "["
        || Ascii.eqb c path.backslash).

Definition plain_text (s : gostring) : bool := forallb plain_byte s.

(** ** Segments and directory listings *)

(** The names that the directory reads of a trace have listed. *)
Definition obs_names (o : Obs) : list gostring :=
  match o with
  | obs e x =>
    match e in Event X return X -> list gostring with
    | ReadDir _ => fun x => match x with Some entries => entries | None => [] end
    | _ => fun _ => []
    end x
  end.

Definition listed (t : list Obs) : list gostring := flat_map obs_names t.

(** The segments that [canonicalFS] resolves. *)
Definition cleaned_segments (p : gostring) : list gostring :=
  strings.Split (strings.TrimPrefix (path.Clean p) [slash]) slash.

(** A name stands for a segment when the two are equal once lowered and a
    directory read listed the name. *)
Definition stands_for {T : CaseTables} (t : list Obs) (name seg : gostring)
  : Prop :=
  strings.ToLower name = strings.ToLower seg /\ In name (listed t).

(** A file name has no slash in it. *)
Definition file_name (name : gostring) : Prop :=
  strings.ContainsByte name slash = false.

(** The directory reads of a trace have answered with file names. *)
Definition lists_file_names (t : list Obs) : Prop :=
  Forall file_name (listed t).

(** The segments of a rooted path, as [canonicalFS] splits its input. *)
Definition segments (q : gostring) : list gostring :=
  strings.Split (strings.TrimPrefix q [slash]) slash.

(** ** The buffer of [path.Clean] *)

Definition starts_slash (s : gostring) : bool := strings.HasPrefix s [slash].

(** The bytes of [rest] up to the next slash. *)
Fixpoint pending (rest : gostring) : gostring :=
  match rest with
  | [] => []
  | c :: rest' => if Ascii.eqb c slash then [] else c :: pending rest'
  end.

(** A path element: not empty, without a slash. *)
Definition element (e : gostring) : Prop := e <> [] /\ file_name e.

(** The buffer of [path.Clean] on a rooted path: a slash and the elements
    written so far. *)
Definition rooted_buffer (elems : list gostring) (out : gostring) : Prop :=
  out = slash :: strings.Join elems [slash] /\
  Forall element elems.

(** The state of the loop of [path.Clean] on a rooted path: the buffer
    holds complete elements, none of them [..], and, while copying, the
    element being copied, which together with what is left of it in the
    input is not [..]. *)
Definition clean_state (copying : bool) (rest out : gostring) : Prop :=
  if copying then
    exists elems cur,
      rooted_buffer (elems ++ [cur]) out /\
      Forall (fun e => e <> dotdot) elems /\ cur ++ pending rest <> dotdot
  else
    exists elems,
      rooted_buffer elems out /\ Forall (fun e => e <> dotdot) elems.

(** ** UTF-8 in arithmetic *)

Module utf8_arith.
Local Open Scope Z_scope.

(** A Unicode scalar value. *)
Definition valid_rune (r : Z) : Prop :=
  0 <= r <= utf8.MaxRune /\ ~ (utf8.surrogateMin <= r <= utf8.surrogateMax).

(** A continuation byte. *)
Definition cont (c : Z) : bool := (0x80 <=? c) && (c <=? 0xBF).

(** The second byte that the first byte [c0] accepts. *)
Definition second_ok (c0 c1 : Z) : bool :=
  if c0 =? 0xE0 then (0xA0 <=? c1) && (c1 <=? 0xBF)
  else if c0 =? 0xED then (0x80 <=? c1) && (c1 <=? 0x9F)
  else if c0 =? 0xF0 then (0x90 <=? c1) && (c1 <=? 0xBF)
  else if c0 =? 0xF4 then (0x80 <=? c1) && (c1 <=? 0x8F)
  else cont c1.

(** The decoder without tables and bit operations; it is what
    [utf8.DecodeRuneInString] computes ([DecodeRune_decode]). *)
Definition decode (s : gostring) : Z * nat :=
  match s with
  | [] => (utf8.RuneError, 0%nat)
  | b0 :: rest =>
    let c0 := byteZ b0 in
    if c0 <? 0x80 then (c0, 1%nat)
    else if (c0 <? 0xC2) || (0xF4 <? c0) then (utf8.RuneError, 1%nat)
    else if c0 <? 0xE0 then
      match rest with
      | b1 :: _ =>
        if second_ok c0 (byteZ b1)
        then ((c0 - 0xC0) * 64 + (byteZ b1 - 0x80), 2%nat)
        else (utf8.RuneError, 1%nat)
      | _ => (utf8.RuneError, 1%nat)
      end
    else if c0 <? 0xF0 then
      match rest with
      | b1 :: b2 :: _ =>
        if second_ok c0 (byteZ b1) && cont (byteZ b2)
        then ((c0 - 0xE0) * 4096 + (byteZ b1 - 0x80) * 64 + (byteZ b2 - 0x80),
              3%nat)
        else (utf8.RuneError, 1%nat)
      | _ => (utf8.RuneError, 1%nat)
      end
    else
      match rest with
      | b1 :: b2 :: b3 :: _ =>
        if second_ok c0 (byteZ b1) && cont (byteZ b2) && cont (byteZ b3)
        then ((c0 - 0xF0) * 262144 + (byteZ b1 - 0x80) * 4096
              + (byteZ b2 - 0x80) * 64 + (byteZ b3 - 0x80), 4%nat)
        else (utf8.RuneError, 1%nat)
      | _ => (utf8.RuneError, 1%nat)
      end
  end.

(** The encoder of scalar values without bit operations; it is what
    [utf8.EncodeRune] computes on them ([EncodeRune_encode]). *)
Definition encode (r : Z) : gostring :=
  if r <=? 0x7F then [Zbyte r]
  else if r <=? 0x7FF then [Zbyte (0xC0 + r / 64); Zbyte (0x80 + r mod 64)]
  else if r <=? 0xFFFF then
    [Zbyte (0xE0 + r / 4096); Zbyte (0x80 + (r / 64) mod 64);
     Zbyte (0x80 + r mod 64)]
  else
    [Zbyte (0xF0 + r / 262144); Zbyte (0x80 + (r / 4096) mod 64);
     Zbyte (0x80 + (r / 64) mod 64); Zbyte (0x80 + r mod 64)].

(** What [decode] returns: an ASCII byte, an invalid byte, or a rune of
    two, three or four bytes, all of them read. *)
Inductive decoded : gostring -> Z -> nat -> Prop :=
| decoded_ascii b0 rest :
    byteZ b0 < 0x80 -> decoded (b0 :: rest) (byteZ b0) 1
| decoded_invalid b0 rest : decoded (b0 :: rest) utf8.RuneError 1
| decoded_2 b0 b1 rest :
    0xC2 <= byteZ b0 < 0xE0 -> second_ok (byteZ b0) (byteZ b1) = true ->
    decoded (b0 :: b1 :: rest)
            ((byteZ b0 - 0xC0) * 64 + (byteZ b1 - 0x80)) 2
| decoded_3 b0 b1 b2 rest :
    0xE0 <= byteZ b0 < 0xF0 -> second_ok (byteZ b0) (byteZ b1) = true ->
    cont (byteZ b2) = true ->
    decoded (b0 :: b1 :: b2 :: rest)
            ((byteZ b0 - 0xE0) * 4096 + (byteZ b1 - 0x80) * 64
             + (byteZ b2 - 0x80)) 3
| decoded_4 b0 b1 b2 b3 rest :
    0xF0 <= byteZ b0 <= 0xF4 -> second_ok (byteZ b0) (byteZ b1) = true ->
    cont (byteZ b2) = true -> cont (byteZ b3) = true ->
    decoded (b0 :: b1 :: b2 :: b3 :: rest)
            ((byteZ b0 - 0xF0) * 262144 + (byteZ b1 - 0x80) * 4096
             + (byteZ b2 - 0x80) * 64 + (byteZ b3 - 0x80)) 4.

(** [chunk] is an encoding of [d] that the decoder reads back whatever
    follows; an invalid byte, read as [RuneError], is no encoding. *)
Definition encodes (chunk : gostring) (d : Z) : Prop :=
  chunk <> [] /\
  (forall rest, decode (chunk ++ rest) = (d, length chunk)) /\
  (d = utf8.RuneError -> length chunk <> 1%nat).

(** An item of [range s]: a rune with the bytes it was decoded from. *)
Definition item_wf (item : Z * gostring) : Prop :=
  exists u, decoded u (fst item) (length (snd item)) /\
            snd item = firstn (length (snd item)) u.

(** Does the string begin with a continuation byte. *)
Definition starts_cont (u : gostring) : bool :=
  match u with
  | b :: _ => cont (byteZ b)
  | [] => false
  end.


End utf8_arith.

(** ** Case tables *)

Import utf8_arith.

(** What the proofs ask of the case tables above ASCII: lowering and
    folding take Unicode scalar values to Unicode scalar values that are
    already lowered, respectively folded, and no folding is empty.  The
    tables of Unicode have these properties. *)
Record CaseLaws (T : CaseTables) : Prop := {
  lower_valid : forall c,
      valid_rune c -> (unicode.MaxASCII < c)%Z -> valid_rune (To_LowerCase c);
  lower_fixed : forall c,
      valid_rune c -> (unicode.MaxASCII < c)%Z ->
      unicode.ToLower (To_LowerCase c) = To_LowerCase c;
  fold_fixed : forall c rs,
      valid_rune c -> (unicode.MaxASCII < c)%Z -> foldFull c = Some rs ->
      rs <> [] /\
      Forall (fun d => valid_rune d /\
                       (cases.foldRune d = None \/ cases.foldRune d = Some [d]))
             rs
}.

(** A rune that folding leaves alone. *)
Definition folded {T : CaseTables} (d : Z) : Prop :=
  valid_rune d /\ (cases.foldRune d = None \/ cases.foldRune d = Some [d]).

(** A string made of encodings of runes that lowering leaves alone. *)
Inductive Stable {T : CaseTables} : gostring -> Prop :=
| Stable_nil : Stable []
| Stable_cons chunk d rest :
    encodes chunk d -> unicode.ToLower d = d -> Stable rest ->
    Stable (chunk ++ rest).

(** A byte that is no upper-case ASCII letter. *)
Definition no_upper (b : ascii) : Prop :=
  unicode.isUpperASCII (byteZ b) = false.

(** ** Bytes and patterns *)

(** A string of ASCII bytes. *)
Definition ascii_only (s : gostring) : Prop :=
  Forall (fun b => (byteZ b < 0x80)%Z) s.

(** An ASCII white-space byte. *)
Definition space_byte (b : ascii) : bool := strings.asciiSpace (byteZ b).

(** An ASCII byte that is not white space. *)
Definition word_byte (b : ascii) : bool :=
  (byteZ b <? 0x80)%Z && negb (strings.asciiSpace (byteZ b)).

(** The number of slashes in a string. *)
Definition slashes (s : gostring) : nat := length (filter (Ascii.eqb slash) s).

(** A byte of a pattern other than the opening bracket of a character
    class and the backslash. *)
Definition simple_byte (c : ascii) : bool :=
  negb (Ascii.eqb c "[" || Ascii.eqb c path.backslash).

(** A pattern of literal bytes, [?] and [*]. *)
Definition simple_pattern (s : gostring) : bool := forallb simple_byte s.

(** A byte of a chunk of such a pattern: no star either. *)
Definition chunk_byte (c : ascii) : bool :=
  simple_byte c && negb (Ascii.eqb c path.star).

(** ** Rooted paths *)

(** The elements of a rooted path, resolved from left to right: an empty
    segment and [.] are dropped, [..] takes the last element off (and is
    dropped at the root), any other segment is kept. *)
Fixpoint resolve (segs : list gostring) (stack : list gostring)
  : list gostring :=
  match segs with
  | [] => stack
  | seg :: segs' =>
    if is_empty seg || streq seg [path.dot] then resolve segs' stack
    else if streq seg dotdot then resolve segs' (removelast stack)
    else resolve segs' (stack ++ [seg])
  end.

(** A name as a directory lists it: not empty, without a slash, and
    neither [.] nor [..]. *)
Definition proper_name (n : gostring) : bool :=
  negb (is_empty n) && negb (strings.ContainsByte n slash)
  && negb (streq n [path.dot]) && negb (streq n dotdot).

(** The rooted path with the given elements. *)
Definition rooted_path (elems : list gostring) : gostring :=
  slash :: strings.Join elems [slash].

(** The elements of a rooted path, cleaned. *)
Definition elements (p : gostring) : list gostring :=
  resolve (strings.Split (strings.TrimPrefix p [slash]) slash) [].

(** [d] lies below the root: the cleaned root followed by proper names. *)
Definition below (root d : gostring) : Prop :=
  exists names,
    names <> [] /\ forallb proper_name names = true /\
    d = rooted_path (elements root ++ names).

(** ** Events of the file system *)

(** The directory that an event reads or stats. *)
Definition obs_dir (o : Obs) : option gostring :=
  match o with
  | obs e _ =>
    match e with
    | ReadDir d => Some d
    | Stat d => Some d
    | _ => None
    end
  end.

(** An event that went wrong for [canonicalFS]: a directory read that
    failed, a [Stat] that failed or found no directory. *)
Definition obs_failed (o : Obs) : bool :=
  match o with
  | obs e x =>
    match e in Event X return X -> bool with
    | ReadDir _ => fun x => match x with None => true | Some _ => false end
    | Stat _ => fun x => match x with Some true => false | _ => true end
    | _ => fun _ => false
    end x
  end.

(** The path [segs] exists below [dir] as it is spelled: each segment is
    listed in its directory, and all but the last are directories. *)
Fixpoint present (fs : FS) (dir : gostring) (segs : list gostring) : bool :=
  match segs with
  | [] => true
  | seg :: segs' =>
    match fs_ReadDir fs dir with
    | None => false
    | Some entries =>
      existsb (streq seg) entries &&
      match segs' with
      | [] => true
      | _ :: _ =>
        match fs_Stat fs (filepath.Join [dir; seg]) with
        | Some true => present fs (filepath.Join [dir; seg]) segs'
        | _ => false
        end
      end
    end
  end.

(** The working directory that [os.Getwd] answered with is absolute. *)
Definition getwd_absolute (o : Obs) : bool :=
  match o with
  | obs e x =>
    match e in Event X return X -> bool with
    | Getwd => fun x => match x with
                        | Some wd => strings.HasPrefix wd [slash]
                        | None => false
                        end
    | _ => fun _ => true
    end x
  end.

(** ** The two handlers *)

(** The configuration of the handler without mode [fs] that a
    configuration comes from. *)
Definition without_root (c : Casefold) : casefold_nofs.Casefold :=
  {| casefold_nofs.Mode := Mode c;
     casefold_nofs.Exclude := Exclude c;
     casefold_nofs.fold := fold c |}.


(** * Properties *)

(** ** The tests of the repository, on the model *)

(** [TestCasefoldLower]: the path is lowered and the header carries the
    original path. *)
Example TestCasefoldLower :
  run sample.site
      (ServeHTTP (H := sample.tables)
                 (sample.provisioned (sample.config "lower" "" []))
                 sample.writer0 (request_for (str "/HeLLo/World") []) pass)
  = (Some (rewrite_writer sample.writer0 (str "/HeLLo/World"),
           rewrite_request (request_for (str "/HeLLo/World") [])
                           (str "/HeLLo/World") (str "/hello/world")), []) /\
  Header_Get (Writer_Header (rewrite_writer sample.writer0 (str "/HeLLo/World")))
             X_Original_URI = str "/HeLLo/World".
Proof. split; reflexivity. Qed.

(** [TestCasefoldExclude]. *)
Example TestCasefoldExclude :
  decide (H := sample.tables)
         (sample.provisioned (sample.config "lower" "" ["/API/*"%string]))
         (str "/API/MixedCase") = Ret UNCHANGED.
Proof. reflexivity. Qed.

(** [TestCasefoldFoldMode]: sharp s is folded to [ss]. *)
Example TestCasefoldFoldMode :
  decide (H := sample.tables)
         (sample.provisioned (sample.config "fold" "" []))
         sample.strasse = Ret (REWRITTEN (str "/strasse")).
Proof. reflexivity. Qed.

(** [TestCasefoldFSMode]: three events, two directory reads and a stat. *)
Example TestCasefoldFSMode :
  run sample.site
      (decide (H := sample.tables)
              (sample.provisioned (sample.config "fs" "/srv" []))
              (str "/scripts/myscript.bat"))
  = (Some (REWRITTEN (str "/scripts/MyScript.bat")),
     [obs (ReadDir (str "/srv")) (Some [str "b"; str "scripts"]);
      obs (Stat (str "/srv/scripts")) (Some true);
      obs (ReadDir (str "/srv/scripts")) (Some [str "MyScript.bat"])]).
Proof. reflexivity. Qed.

(** ** Strings *)

Lemma streq_spec (a b : gostring) : streq a b = true <-> a = b.
Proof.
  revert b; induction a as [|x a IH]; intros [|y b]; simpl;
    try (split; [discriminate | congruence]).
  - split; reflexivity.
  - rewrite andb_true_iff, Ascii.eqb_eq, IH.
    split; [intros [-> ->]; reflexivity | intros E; inversion E; auto].
Qed.

Lemma streq_refl (a : gostring) : streq a a = true.
Proof. apply streq_spec; reflexivity. Qed.

Lemma is_empty_spec (s : gostring) : is_empty s = true <-> s = [].
Proof. destruct s; simpl; split; congruence. Qed.

(** ** The free monad *)

Lemma bind_Ret_l {A B : Type} (a : A) (f : A -> Prog B) : bind (Ret a) f = f a.
Proof. reflexivity. Qed.

Lemma Yields_inv {A : Type} (m : Prog A) t a :
  Yields m t a ->
  match m with
  | Ret a' => t = [] /\ a = a'
  | Panic => False
  | Vis e k => exists x t', t = obs e x :: t' /\ Yields (k x) t' a
  end.
Proof. destruct 1; simpl; eauto. Qed.

Lemma Yields_bind_inv {A B : Type} (m : Prog A) (f : A -> Prog B) t b :
  Yields (bind m f) t b ->
  exists t1 t2 a, t = t1 ++ t2 /\ Yields m t1 a /\ Yields (f a) t2 b.
Proof.
  revert t; induction m as [a| |X e k IH]; simpl; intros t Hy.
  - exists [], t, a; repeat split; [constructor | assumption].
  - apply Yields_inv in Hy; contradiction.
  - apply Yields_inv in Hy; destruct Hy as (x & t' & -> & Hy).
    destruct (IH x t' Hy) as (t1 & t2 & a & -> & H1 & H2).
    exists (obs e x :: t1), t2, a; repeat split; [constructor|]; assumption.
Qed.

Lemma run_Yields {A : Type} (fs : FS) (m : Prog A) a t :
  run fs m = (Some a, t) -> Yields m t a.
Proof.
  revert t; induction m as [a'| |X e k IH]; simpl; intros t E.
  - inversion E; subst; constructor.
  - discriminate.
  - destruct (run fs (k (answer fs e))) as [res t'] eqn:Er.
    inversion E; subst. constructor. apply IH; assumption.
Qed.

Lemma NoPanic_bind {A B : Type} (m : Prog A) (f : A -> Prog B) :
  NoPanic m -> (forall a, NoPanic (f a)) -> NoPanic (bind m f).
Proof.
  intros Hm Hf; induction Hm; simpl; [apply Hf | constructor; auto].
Qed.

(** ** The short circuits of [ServeHTTP] *)

Section ShortCircuit.
Context {T : CaseTables}.

Lemma decide_unchanged (c : Casefold) (p : gostring) :
  (forall R w r (next : ResponseWriter -> Request -> Prog R),
      Path (Request_URL r) = p -> ServeHTTP c w r next = next w r) ->
  decide c p = Ret UNCHANGED.
Proof.
  intros Hs. unfold decide. rewrite Hs; reflexivity.
Qed.

Lemma ServeHTTP_root_path (R : Type) (c : Casefold) w r
      (next : ResponseWriter -> Request -> Prog R) :
  Path (Request_URL r) = [] \/ Path (Request_URL r) = [slash] ->
  ServeHTTP c w r next = next w r.
Proof.
  intros [E | E]; unfold ServeHTTP; rewrite E; reflexivity.
Qed.

Lemma Match_empty_pattern (name : gostring) :
  path.Match [] name = (is_empty name, None).
Proof. destruct name; reflexivity. Qed.

Lemma skip_patterns_In (patterns : list gostring) (gl p : gostring) :
  In gl patterns -> gl <> [] -> fst (path.Match gl p) = true ->
  skip_patterns patterns p = true.
Proof.
  induction patterns as [|g patterns IH]; simpl; [contradiction|].
  intros [-> | Hin] Hne Hm.
  - destruct gl; [congruence|]. simpl is_empty. cbv iota. rewrite Hm; reflexivity.
  - destruct (is_empty g); [auto|].
    destruct (fst (path.Match g p)); auto.
Qed.

Lemma ServeHTTP_excluded (R : Type) (c : Casefold) w r
      (next : ResponseWriter -> Request -> Prog R) (gl : gostring) :
  In gl (Exclude c) -> fst (path.Match gl (Path (Request_URL r))) = true ->
  ServeHTTP c w r next = next w r.
Proof.
  intros Hin Hm. unfold ServeHTTP.
  destruct (is_empty (Path (Request_URL r)) || streq (Path (Request_URL r)) [slash])
    eqn:E0; [reflexivity|].
  assert (Hgl : gl <> []).
  { intros ->. rewrite Match_empty_pattern in Hm. simpl in Hm.
    rewrite Hm in E0. discriminate. }
  unfold skip. rewrite (skip_patterns_In _ _ Hin Hgl Hm). reflexivity.
Qed.

End ShortCircuit.

(** ** [path.Match] never uses up its rounds *)

Ltac split_ifs :=
  repeat match goal with
         | |- context [if ?b then _ else _] => destruct b eqn:?
         end.

Lemma DecodeRune_width (c : ascii) (s : gostring) :
  (1 <= snd (utf8.DecodeRuneInString (c :: s)) <= 4)%nat.
Proof.
  unfold utf8.DecodeRuneInString.
  cbv zeta. split_ifs; simpl; clear; lia.
Qed.

Lemma getEsc_rune_shorter (c : ascii) (chunk nchunk : gostring) (r : Z) :
  path.getEsc_rune (c :: chunk) = (r, nchunk, None) ->
  (length nchunk <= length chunk)%nat.
Proof.
  unfold path.getEsc_rune.
  pose proof (DecodeRune_width c chunk) as Hw.
  destruct (utf8.DecodeRuneInString (c :: chunk)) as [r0 n]; simpl in Hw.
  cbv zeta. intros E. inversion E; subst.
  rewrite length_skipn. cbn [length]. lia.
Qed.

Lemma getEsc_shorter (chunk nchunk : gostring) (r : Z) :
  path.getEsc chunk = (r, nchunk, None) ->
  (length nchunk < length chunk)%nat.
Proof.
  unfold path.getEsc. destruct chunk as [|c chunk]; [discriminate|].
  destruct (Ascii.eqb c "-" || Ascii.eqb c "]"); [discriminate|].
  destruct (Ascii.eqb c path.backslash).
  - destruct chunk as [|d chunk]; [discriminate|].
    intros E; apply getEsc_rune_shorter in E. simpl; lia.
  - intros E; apply getEsc_rune_shorter in E. simpl; lia.
Qed.

Lemma getHi_shorter (lo hi : Z) (chunk chunk2 : gostring) :
  path.getHi lo chunk = (hi, chunk2, None) ->
  (length chunk2 <= length chunk)%nat.
Proof.
  unfold path.getHi. destruct chunk as [|c after].
  - intros E; inversion E; subst; auto.
  - destruct (Ascii.eqb c "-").
    + intros E; apply getEsc_shorter in E. simpl; lia.
    + intros E; inversion E; subst; auto.
Qed.

Lemma matchRanges_total (rounds : nat) :
  forall chunk r matched nrange,
    (length chunk < rounds)%nat ->
    exists res, path.matchRanges rounds chunk r matched nrange = Some res /\
                (snd res = None -> (length (fst (fst res)) <= length chunk)%nat).
Proof.
  induction rounds as [|k IH]; intros chunk r matched nrange Hlen; [lia|].
  simpl.
  destruct (match chunk with
            | [] => false
            | c :: _ => Ascii.eqb c "]" && (0 <? nrange)%nat
            end).
  { eexists; split; [reflexivity|]. simpl. intros _. destruct chunk; simpl; lia. }
  destruct (path.getEsc chunk) as [[lo chunk1] [e|]] eqn:E1.
  { eexists; split; [reflexivity|]. simpl; discriminate. }
  apply getEsc_shorter in E1.
  destruct (path.getHi lo chunk1) as [[hi chunk2] [e|]] eqn:E2.
  { eexists; split; [reflexivity|]. simpl; discriminate. }
  apply getHi_shorter in E2.
  destruct (IH chunk2 r (matched || ((lo <=? r)%Z && (r <=? hi)%Z))
               (S nrange)) as (res & -> & Hres); [lia|].
  exists res; split; [reflexivity|]. intros Hn. specialize (Hres Hn). lia.
Qed.

Lemma class_negated_shorter (chunk : gostring) :
  (length (snd (path.class_negated chunk)) <= length chunk)%nat.
Proof.
  destruct chunk as [|c ch]; simpl; [lia|].
  destruct (Ascii.eqb c "^"); simpl; lia.
Qed.

Lemma matchChunk_loop_total (rounds : nat) :
  forall chunk s failed,
    (length chunk <= rounds)%nat ->
    exists res, path.matchChunk_loop rounds chunk s failed = Some res.
Proof.
  induction rounds as [|k IH]; intros chunk s failed Hlen.
  { destruct chunk; [|simpl in Hlen; lia]. simpl. eauto. }
  destruct chunk as [|c chunk']; [simpl; eauto|].
  simpl in Hlen. cbn [path.matchChunk_loop]. cbv zeta.
  destruct (Ascii.eqb c "[").
  { destruct (path.class_rune s _) as [r s1].
    pose proof (class_negated_shorter chunk') as Hneg.
    destruct (path.class_negated chunk') as [negated ch]. simpl in Hneg.
    destruct (matchRanges_total (rounds := S (length ch)) ch r false 0)
      as ([[ch2 m] err] & -> & Hres); [lia|].
    destruct err as [e|]; [eauto|].
    specialize (Hres eq_refl). simpl in Hres.
    apply IH. lia. }
  destruct (Ascii.eqb c "?").
  { destruct (path.any_rune s _) as [s1 f1]. apply IH. lia. }
  destruct (Ascii.eqb c path.backslash).
  - destruct chunk' as [|c1 ch']; [eauto|].
    destruct (path.literal_byte c1 s _) as [s0 f0].
    apply IH. simpl in Hlen. lia.
  - destruct (path.literal_byte c s _) as [s0 f0].
    apply IH. lia.
Qed.

Lemma matchChunk_total (chunk s : gostring) :
  exists res, path.matchChunk chunk s = Some res.
Proof. apply matchChunk_loop_total; reflexivity. Qed.

Lemma skip_stars_spec (pattern : gostring) :
  forall seen st p1,
    path.skip_stars pattern seen = (st, p1) ->
    (length p1 <= length pattern)%nat /\
    match p1 with
    | c :: _ => Ascii.eqb c path.star = false
    | [] => True
    end.
Proof.
  induction pattern as [|c pattern IH]; simpl; intros seen st p1 E.
  - inversion E; subst; simpl; auto.
  - destruct (Ascii.eqb c path.star) eqn:Ec.
    + apply IH in E. destruct E; split; [lia | assumption].
    + inversion E; subst; simpl; auto.
Qed.

Lemma scanChunk_len_pos (c : ascii) (pattern : gostring) :
  Ascii.eqb c path.star = false ->
  (1 <= path.scanChunk_len (c :: pattern) false false)%nat.
Proof.
  intros Ec. simpl. rewrite Ec. split_ifs; lia.
Qed.

Lemma scanChunk_shorter (c : ascii) (pattern : gostring) st chunk rest :
  path.scanChunk (c :: pattern) = (st, chunk, rest) ->
  (length rest <= length pattern)%nat.
Proof.
  unfold path.scanChunk.
  destruct (path.skip_stars (c :: pattern) false) as [st1 p1] eqn:Es.
  apply skip_stars_spec in Es. destruct Es as [Hlen Hhd].
  intros E; inversion E; subst. rewrite length_skipn.
  destruct p1 as [|d p1]; [simpl; lia|].
  pose proof (@scanChunk_len_pos d p1 Hhd). simpl in Hlen. cbn [length]. lia.
Qed.

Lemma check_rest_total (rounds : nat) :
  forall pattern,
    (length pattern <= rounds)%nat ->
    exists err, path.check_rest rounds pattern = Some (false, err).
Proof.
  induction rounds as [|k IH]; intros pattern Hlen.
  { destruct pattern; [|simpl in Hlen; lia]. simpl; eauto. }
  destruct pattern as [|c pattern]; [simpl; eauto|].
  cbn [path.check_rest].
  destruct (path.scanChunk (c :: pattern)) as [[st chunk] rest] eqn:Es.
  apply scanChunk_shorter in Es.
  destruct (matchChunk_total chunk []) as ([[t ok] [e|]] & ->); [eauto|].
  apply IH. simpl in Hlen. lia.
Qed.

Lemma star_search_total (chunk : gostring) (last : bool) (name : gostring) :
  path.star_search chunk last name <> path.StarFuel.
Proof.
  induction name as [|c name IH]; simpl; [discriminate|].
  destruct (Ascii.eqb c slash); [discriminate|].
  destruct (matchChunk_total chunk name) as ([[t ok] err] & ->).
  destruct ok.
  - destruct (last && (0 <? length t)%nat); [assumption | discriminate].
  - destruct err; [discriminate | assumption].
Qed.

(** Every error that [Match_loop] reports comes with [false], and the
    rounds are never used up. *)
Lemma Match_loop_total (rounds : nat) :
  forall pattern name,
    (length pattern <= rounds)%nat ->
    exists res, path.Match_loop rounds pattern name = Some res /\
                (snd res <> None -> fst res = false).
Proof.
  induction rounds as [|k IH]; intros pattern name Hlen.
  { destruct pattern; [|simpl in Hlen; lia].
    simpl. eexists; split; [reflexivity|]. simpl; congruence. }
  destruct pattern as [|c pattern].
  { simpl. eexists; split; [reflexivity|]. simpl; congruence. }
  cbn [path.Match_loop].
  destruct (path.scanChunk (c :: pattern)) as [[st chunk] rest] eqn:Es.
  apply scanChunk_shorter in Es. simpl in Hlen.
  destruct (st && match chunk with [] => true | _ => false end).
  { eexists; split; [reflexivity|]. simpl; congruence. }
  destruct (matchChunk_total chunk name) as ([[t ok] err] & ->).
  destruct (ok && (match t with [] => true | _ => false end
                   || negb match rest with [] => true | _ => false end)).
  { apply IH; lia. }
  destruct err as [e|].
  { eexists; split; [reflexivity|]. reflexivity. }
  pose proof (star_search_total chunk
                match rest with [] => true | _ => false end name) as Hs.
  destruct (if st then path.star_search chunk _ name else path.StarNone)
    as [t'|e| |] eqn:Ess.
  - apply IH; lia.
  - eexists; split; [reflexivity|]. reflexivity.
  - destruct (check_rest_total (rounds := length rest) rest (le_n _))
      as (err & ->).
    eexists; split; [reflexivity|]. reflexivity.
  - destruct st; [contradiction | discriminate].
Qed.

Lemma Match_is_loop (pattern name : gostring) :
  path.Match_loop (length pattern) pattern name = Some (path.Match pattern name).
Proof.
  unfold path.Match.
  destruct (Match_loop_total (rounds := length pattern) pattern name (le_n _))
    as (res & -> & _).
  reflexivity.
Qed.

Lemma Match_error_is_no_match (pattern name : gostring) :
  snd (path.Match pattern name) <> None -> fst (path.Match pattern name) = false.
Proof.
  unfold path.Match.
  destruct (Match_loop_total (rounds := length pattern) pattern name (le_n _))
    as (res & -> & Hres).
  exact Hres.
Qed.

(** ** What [Provision] leaves behind *)

Section Provisioned.
Context {T : CaseTables}.

Lemma Yields_Ret_inv {A : Type} (a b : A) t : Yields (Ret a) t b -> b = a.
Proof. intros Hy; apply Yields_inv in Hy; tauto. Qed.

Lemma Provision_spec (c c' : Casefold) t :
  Yields (Provision c) t c' ->
  Mode c' = Mode c /\ Exclude c' = Exclude c /\
  (caser_mode (mode_of c) = true -> fold c' <> None) /\
  (streq (mode_of c) (str "fs") = false -> fold c' <> None).
Proof.
  unfold Provision, caser_mode.
  destruct (is_empty (mode_of c)) eqn:E1; simpl.
  { intros Hy; apply Yields_Ret_inv in Hy; subst; simpl.
    repeat split; discriminate. }
  destruct (streq (mode_of c) (str "lower")) eqn:E2; simpl.
  { intros Hy; apply Yields_Ret_inv in Hy; subst; simpl.
    repeat split; discriminate. }
  destruct (streq (mode_of c) (str "fold")) eqn:E3.
  { intros Hy; apply Yields_Ret_inv in Hy; subst; simpl.
    repeat split; discriminate. }
  destruct (streq (mode_of c) (str "fs")) eqn:E4.
  { assert (Hgen : Mode c' = Mode c /\ Exclude c' = Exclude c ->
                   Mode c' = Mode c /\ Exclude c' = Exclude c /\
                   (false = true -> fold c' <> None) /\
                   (true = false -> fold c' <> None)).
    { intros [? ?]; repeat split; auto; discriminate. }
    destruct (is_empty (Root c)).
    { intros Hy; apply Yields_inv in Hy; destruct Hy as (x & t' & -> & Hy).
      apply Yields_Ret_inv in Hy; subst; auto. }
    destruct (negb (filepath.IsAbs (Root c))).
    - intros Hy; apply Yields_bind_inv in Hy.
      destruct Hy as (t1 & t2 & [abs|] & -> & _ & Hy);
        apply Yields_Ret_inv in Hy; subst; auto.
    - intros Hy; apply Yields_Ret_inv in Hy; subst; auto. }
  intros Hy; apply Yields_inv in Hy; destruct Hy as (x & t' & -> & Hy).
  apply Yields_Ret_inv in Hy; subst; simpl.
  repeat split; discriminate.
Qed.

Lemma canonicalFS_loop_NoPanic (p : gostring) (segs : list gostring) :
  forall curDir built, NoPanic (canonicalFS_loop p segs curDir built).
Proof.
  induction segs as [|seg segs IH]; intros curDir built; simpl.
  { constructor. }
  constructor. intros [entries|]; [|constructor].
  destruct (is_empty (find_match entries seg)); [constructor|].
  destruct segs as [|seg' segs'].
  - apply IH.
  - constructor. intros [[|]|]; [apply IH | constructor | constructor].
Qed.

Lemma canonicalFS_NoPanic (c : Casefold) (p : gostring) :
  NoPanic (canonicalFS c p).
Proof.
  unfold canonicalFS. split_ifs; try constructor.
  apply canonicalFS_loop_NoPanic.
Qed.

Lemma ServeHTTP_NoPanic (R : Type) (c : Casefold) w r
      (next : ResponseWriter -> Request -> Prog R) :
  (caser_mode (mode_of c) = true -> fold c <> None) ->
  (forall w r, NoPanic (next w r)) ->
  NoPanic (ServeHTTP c w r next).
Proof.
  intros Hf Hn. unfold ServeHTTP.
  destruct (is_empty (Path (Request_URL r)) || streq (Path (Request_URL r)) [slash]);
    [apply Hn|].
  destruct (skip c (Path (Request_URL r))); [apply Hn|].
  apply NoPanic_bind.
  - fold (caser_mode (mode_of c)).
    destruct (caser_mode (mode_of c)).
    + destruct (fold c); [constructor | exfalso; apply Hf; reflexivity].
    + destruct (streq (mode_of c) (str "fs")); [|constructor].
      apply NoPanic_bind; [apply canonicalFS_NoPanic|].
      intros [canon [|]]; constructor.
  - intros transformed. destruct (negb (streq transformed _)); apply Hn.
Qed.

End Provisioned.

(** ** Claims on the short circuits *)

(** C9: a request whose path is empty or exactly [/] goes to the next
    handler as it came, for every configuration: the handler is then the
    call of [next] itself, with no exclusion matching, no transformation
    and no event of the file system, and the decision is [UNCHANGED]. *)
Theorem C9_empty_or_root_path_unchanged
    {T : CaseTables} (R : Type) (c : Casefold) (w : ResponseWriter)
    (r : Request) (next : ResponseWriter -> Request -> Prog R) :
  Path (Request_URL r) = [] \/ Path (Request_URL r) = [slash] ->
  ServeHTTP c w r next = next w r /\
  decide c (Path (Request_URL r)) = Ret UNCHANGED.
Proof.
  intros Hp. split.
  - apply ServeHTTP_root_path; assumption.
  - apply decide_unchanged. intros R' w' r' next' E.
    apply ServeHTTP_root_path. rewrite E; assumption.
Qed.

Lemma C9_witness :
  ServeHTTP (H := sample.tables) (sample.config "fs" "/srv" ["/*"%string])
            sample.writer0 (request_for (str "/") (str "a=1")) observe
  = Ret UNCHANGED /\
  decide (H := sample.tables) (sample.config "fs" "/srv" ["/*"%string]) (str "/")
  = Ret UNCHANGED.
Proof.
  apply (@C9_empty_or_root_path_unchanged sample.tables RewriteOutcome
           (sample.config "fs" "/srv" ["/*"%string]) sample.writer0
           (request_for (str "/") (str "a=1")) observe).
  right; reflexivity.
Defined.

(** C5: when some pattern of the exclusion list matches the path, the
    handler passes the request on as it came, whatever the mode and before
    any transformation or file-system event; a pattern that [path.Match]
    reports as malformed counts as not matching, and no list of patterns
    makes the provisioned handler fail. *)
Theorem C5_excluded_path_unchanged
    {T : CaseTables} (c : Casefold) (gl : gostring) (p : gostring) :
  In gl (Exclude c) -> fst (path.Match gl p) = true ->
  (forall (R : Type) w r (next : ResponseWriter -> Request -> Prog R),
      Path (Request_URL r) = p -> ServeHTTP c w r next = next w r) /\
  decide c p = Ret UNCHANGED /\
  (forall bad q, snd (path.Match bad q) <> None ->
                 skip_patterns (bad :: Exclude c) q = skip_patterns (Exclude c) q) /\
  (forall c0 t w r, Yields (Provision c0) t c ->
                    NoPanic (ServeHTTP c w r observe)).
Proof.
  intros Hin Hm.
  assert (Hs : forall (R : Type) w r (next : ResponseWriter -> Request -> Prog R),
             Path (Request_URL r) = p -> ServeHTTP c w r next = next w r).
  { intros R w r next E. apply ServeHTTP_excluded with (gl := gl); [assumption|].
    rewrite E; assumption. }
  split; [exact Hs|]. split; [apply decide_unchanged; exact Hs|]. split.
  - intros bad q Hbad. simpl.
    rewrite (Match_error_is_no_match _ _ Hbad).
    destruct (is_empty bad); reflexivity.
  - intros c0 t w r Hy. apply Provision_spec in Hy.
    destruct Hy as (Hmode & _ & Hfold & _).
    apply ServeHTTP_NoPanic; [|intros; constructor].
    unfold mode_of in *. rewrite Hmode. exact Hfold.
Qed.

Lemma C5_witness :
  decide (H := sample.tables)
         (sample.provisioned (sample.config "fs" "/srv" ["[a-"; "/API/*"]%string))
         (str "/API/MixedCase") = Ret UNCHANGED.
Proof.
  apply (@C5_excluded_path_unchanged sample.tables
           (sample.provisioned (sample.config "fs" "/srv" ["[a-"; "/API/*"]%string))
           (str "/API/*") (str "/API/MixedCase")).
  - right; left; reflexivity.
  - reflexivity.
Defined.

(** C8: in mode [fs] with an empty root, [Provision] only warns and leaves
    the configuration as it is, [canonicalFS] fails at once, and the
    handler passes every request on unchanged without any event of the
    file system. *)
Theorem C8_fs_mode_without_root_is_passthrough
    {T : CaseTables} (c : Casefold) :
  mode_of c = str "fs" -> Root c = [] ->
  Provision c = Vis (Warn warn_fs_no_root) (fun _ => Ret c) /\
  (forall p, canonicalFS c p = Ret (p, false)) /\
  (forall (R : Type) w r (next : ResponseWriter -> Request -> Prog R),
      ServeHTTP c w r next = next w r) /\
  (forall p, decide c p = Ret UNCHANGED).
Proof.
  intros Hmode Hroot.
  assert (Hc : forall p, canonicalFS c p = Ret (p, false)).
  { intros p. unfold canonicalFS. rewrite Hroot. reflexivity. }
  assert (Hs : forall (R : Type) w r (next : ResponseWriter -> Request -> Prog R),
             ServeHTTP c w r next = next w r).
  { intros R w r next. unfold ServeHTTP.
    destruct (is_empty (Path (Request_URL r)) || streq (Path (Request_URL r)) [slash]);
      [reflexivity|].
    destruct (skip c (Path (Request_URL r))); [reflexivity|].
    rewrite Hmode, Hc.
    change (is_empty (str "fs") || streq (str "fs") (str "lower")
            || streq (str "fs") (str "fold")) with false.
    change (streq (str "fs") (str "fs")) with true.
    cbn [bind]. rewrite streq_refl. reflexivity. }
  split; [|split; [exact Hc | split; [exact Hs|]]].
  - unfold Provision. rewrite Hmode, Hroot. reflexivity.
  - intros p. apply decide_unchanged. intros; apply Hs.
Qed.

Lemma C8_witness :
  decide (H := sample.tables) (sample.provisioned (sample.config " FS " "" []))
         (str "/Scripts/myscript.bat") = Ret UNCHANGED.
Proof.
  apply (@C8_fs_mode_without_root_is_passthrough sample.tables
           (sample.provisioned (sample.config " FS " "" []))).
  - reflexivity.
  - reflexivity.
Defined.

(** ** The mode that [Provision] does not know *)

(** With a mode outside [""], [lower], [fold] and [fs], [Provision] warns
    that it defaults to lower and installs [lowerCaser]; the switch of
    [ServeHTTP] has no case for such a mode and passes every request on
    unchanged. *)
Lemma unknown_mode_never_rewrites {T : CaseTables} (c : Casefold) :
  known_mode (mode_of c) = false ->
  Provision c =
    Vis (Warn warn_unknown_mode) (fun _ => Ret (set_fold c lowerCaser)) /\
  (forall (R : Type) w r (next : ResponseWriter -> Request -> Prog R),
      ServeHTTP (set_fold c lowerCaser) w r next = next w r).
Proof.
  unfold known_mode, caser_mode. intros Hk.
  apply orb_false_iff in Hk; destruct Hk as [Hk Hfs].
  apply orb_false_iff in Hk; destruct Hk as [Hk Hfold].
  apply orb_false_iff in Hk; destruct Hk as [Hemp Hlow].
  split.
  - unfold Provision. rewrite Hemp, Hlow, Hfold, Hfs. reflexivity.
  - intros R w r next. unfold ServeHTTP.
    destruct (is_empty (Path (Request_URL r)) || streq (Path (Request_URL r)) [slash]);
      [reflexivity|].
    destruct (skip _ _); [reflexivity|].
    change (mode_of (set_fold c lowerCaser)) with (mode_of c).
    rewrite Hemp, Hlow, Hfold, Hfs. cbn [orb bind].
    rewrite streq_refl. reflexivity.
Qed.

(** C2 (the code departs from the claim): provisioned with the unknown
    mode [upper], the handler holds [lowerCaser] and yet leaves [/HeLLo]
    unchanged, where mode [lower] rewrites it to [/hello]. *)
Theorem C2_unknown_mode_is_not_lower :
  fold (sample.provisioned (sample.config "upper" "" [])) = Some lowerCaser /\
  decide (H := sample.tables) (sample.provisioned (sample.config "upper" "" []))
         (str "/HeLLo") = Ret UNCHANGED /\
  decide (H := sample.tables) (sample.provisioned (sample.config "lower" "" []))
         (str "/HeLLo") = Ret (REWRITTEN (str "/hello")).
Proof. repeat split. Qed.

(** ** What reaches the next handler *)

Section Outcome.
Context {T : CaseTables}.

(** Whatever the next handler is, it is called on what [pass] shows. *)
Lemma ServeHTTP_rewrites (c : Casefold) w r t w' r' :
  Yields (ServeHTTP c w r pass) t (w', r') ->
  (w' = w /\ r' = r) \/
  exists transformed,
    transformed <> Path (Request_URL r) /\
    skip c (Path (Request_URL r)) = false /\
    w' = rewrite_writer w (Path (Request_URL r)) /\
    r' = rewrite_request r (Path (Request_URL r)) transformed /\
    transformed_by c (Path (Request_URL r)) transformed.
Proof.
  unfold ServeHTTP. set (orig := Path (Request_URL r)).
  assert (Hpass : forall t0, Yields (pass w r) t0 (w', r') -> w' = w /\ r' = r).
  { intros t0 Hy. apply Yields_Ret_inv in Hy. inversion Hy; auto. }
  destruct (is_empty orig || streq orig [slash]); [left; eauto|].
  destruct (skip c orig) eqn:Hskip; [left; eauto|].
  intros Hy. apply Yields_bind_inv in Hy.
  destruct Hy as (t1 & t2 & transformed & -> & Hy1 & Hy2).
  destruct (negb (streq transformed orig)) eqn:Hne; [|left; eauto].
  right. exists transformed.
  apply Yields_Ret_inv in Hy2. inversion Hy2; subst w' r'.
  assert (Hdiff : transformed <> orig).
  { intros E. apply streq_spec in E. rewrite E in Hne. discriminate. }
  repeat split; auto.
  unfold transformed_by. fold (caser_mode (mode_of c)) in Hy1.
  destruct (caser_mode (mode_of c)).
  - left. split; [reflexivity|].
    destruct (fold c) as [f|]; [|apply Yields_inv in Hy1; contradiction].
    apply Yields_Ret_inv in Hy1. eauto.
  - right. split; [reflexivity|].
    destruct (streq (mode_of c) (str "fs")) eqn:Hfs.
    + apply streq_spec in Hfs. split; [assumption|].
      apply Yields_bind_inv in Hy1.
      destruct Hy1 as (t3 & t4 & [canon ok] & -> & Hc & Hr).
      destruct ok; apply Yields_Ret_inv in Hr; subst.
      * eauto.
      * contradiction.
    + apply Yields_Ret_inv in Hy1. contradiction.
Qed.

End Outcome.



(** ** What a star matches *)

Lemma plain_byte_inv (c : ascii) :
  plain_byte c = true ->
  Ascii.eqb c path.star = false /\ Ascii.eqb c "?" = false /\
  Ascii.eqb c "[" = false /\ Ascii.eqb c path.backslash = false.
Proof.
  unfold plain_byte. rewrite negb_true_iff, !orb_false_iff. tauto.
Qed.



Lemma matchChunk_loop_plain (lit : gostring) :
  forall rounds s failed,
    plain_text lit = true -> (length lit <= rounds)%nat ->
    path.matchChunk_loop rounds lit s failed =
    Some (if failed || negb (strings.HasPrefix s lit) then ([], false, None)
          else (skipn (length lit) s, true, None)).
Proof.
  induction lit as [|c lit IH]; intros rounds s failed Hp Hlen.
  { destruct rounds; simpl; destruct failed; reflexivity. }
  destruct rounds as [|k]; [simpl in Hlen; lia|].
  simpl in Hp. apply andb_true_iff in Hp; destruct Hp as [Hc Hp].
  apply plain_byte_inv in Hc; destruct Hc as (_ & Hq & Hb & Hbs).
  cbn [path.matchChunk_loop]. cbv zeta. rewrite Hb, Hq, Hbs.
  unfold path.literal_byte.
  assert (Hk : (length lit <= k)%nat) by (simpl in Hlen; lia).
  destruct failed; [|destruct s as [|c0 s]]; cbn [orb]; cbv beta iota.
  - rewrite IH by auto. reflexivity.
  - rewrite IH by auto. reflexivity.
  - rewrite IH by auto.
    cbn [strings.HasPrefix length skipn].
    rewrite (Ascii.eqb_sym c0 c).
    destruct (Ascii.eqb c c0); reflexivity.
Qed.




(** ** Decisions *)

Lemma Yields_bind {A B : Type} (m : Prog A) (f : A -> Prog B) t1 t2 a b :
  Yields m t1 a -> Yields (f a) t2 b -> Yields (bind m f) (t1 ++ t2) b.
Proof.
  intros Hm Hf; induction Hm; simpl; [assumption | constructor; auto].
Qed.

Section Decisions.
Context {T : CaseTables}.

(** The next handler runs on what [pass] shows, after the events of the
    handler. *)
Lemma ServeHTTP_next (R : Type) (c : Casefold) w r
      (next : ResponseWriter -> Request -> Prog R) t a :
  Yields (ServeHTTP c w r next) t a ->
  exists t1 t2 w' r',
    t = t1 ++ t2 /\ Yields (ServeHTTP c w r pass) t1 (w', r') /\
    Yields (next w' r') t2 a.
Proof.
  unfold ServeHTTP. set (orig := Path (Request_URL r)).
  assert (Hdirect : Yields (next w r) t a ->
                    exists t1 t2 w' r',
                      t = t1 ++ t2 /\ Yields (pass w r) t1 (w', r') /\
                      Yields (next w' r') t2 a).
  { intros Hy. exists [], t, w, r. repeat split; [constructor | assumption]. }
  destruct (is_empty orig || streq orig [slash]); [exact Hdirect|].
  destruct (skip c orig); [exact Hdirect|].
  intros Hy. apply Yields_bind_inv in Hy.
  destruct Hy as (t1 & t2 & transformed & -> & Hy1 & Hy2).
  destruct (negb (streq transformed orig)) eqn:Hne.
  - exists t1, t2, (rewrite_writer w orig), (rewrite_request r orig transformed).
    split; [reflexivity|]. split; [|assumption].
    rewrite <- (app_nil_r t1). eapply Yields_bind; [eassumption|].
    rewrite Hne. constructor.
  - exists t1, t2, w, r.
    split; [reflexivity|]. split; [|assumption].
    rewrite <- (app_nil_r t1). eapply Yields_bind; [eassumption|].
    rewrite Hne. constructor.
Qed.

(** A decision [REWRITTEN q]: the path was not excluded, [q] differs from
    it and is what the caser or [canonicalFS] returned. *)
Lemma decide_REWRITTEN (c : Casefold) (p q : gostring) t :
  Yields (decide c p) t (REWRITTEN q) ->
  q <> p /\ skip c p = false /\ transformed_by c p q.
Proof.
  unfold decide. intros Hy. apply ServeHTTP_next in Hy.
  destruct Hy as (t1 & t2 & w' & r' & -> & Hs & Ho).
  apply ServeHTTP_rewrites in Hs. unfold observe in Ho.
  apply Yields_Ret_inv in Ho.
  destruct Hs as [[-> ->] | (transformed & Hne & Hskip & -> & -> & Hby)].
  - discriminate Ho.
  - unfold rewrite_writer, Header_Set in Ho. cbn [Writer_Header Header_Has fst] in Ho.
    rewrite streq_refl in Ho. cbn [orb rewrite_request Request_URL Path] in Ho.
    inversion Ho; subst. auto.
Qed.

End Decisions.

(** ** A successful [canonicalFS] *)

Section Canonical.
Context {T : CaseTables}.

Lemma exact_match_spec (entries : list gostring) (seg name : gostring) :
  exact_match entries seg = name -> name <> [] ->
  name = seg /\ In name entries.
Proof.
  induction entries as [|e entries IH]; simpl; intros E Hne.
  - congruence.
  - destruct (streq e seg) eqn:Es.
    + apply streq_spec in Es. subst. auto.
    + destruct (IH E Hne); auto.
Qed.

Lemma lowered_match_spec (entries : list gostring) (lowered name : gostring) :
  lowered_match entries lowered = name -> name <> [] ->
  strings.ToLower name = lowered /\ In name entries.
Proof.
  induction entries as [|e entries IH]; simpl; intros E Hne.
  - congruence.
  - destruct (streq (strings.ToLower e) lowered) eqn:Es.
    + apply streq_spec in Es. subst. auto.
    + destruct (IH E Hne); auto.
Qed.

Lemma find_match_spec (entries : list gostring) (seg : gostring) :
  is_empty (find_match entries seg) = false ->
  strings.ToLower (find_match entries seg) = strings.ToLower seg /\
  In (find_match entries seg) entries.
Proof.
  unfold find_match. cbv zeta. intros Hne.
  destruct (is_empty (exact_match entries seg)) eqn:Ee.
  - apply lowered_match_spec; [reflexivity|].
    intros E. rewrite E in Hne. discriminate.
  - destruct (@exact_match_spec entries seg _ eq_refl) as [E Hin].
    { intros E. rewrite E in Ee. discriminate. }
    split; [rewrite E; reflexivity | assumption].
Qed.

Lemma stands_for_later (o : Obs) (t : list Obs) (names segs : list gostring) :
  Forall2 (stands_for t) names segs -> Forall2 (stands_for (o :: t)) names segs.
Proof.
  intros H; induction H; constructor; auto.
  destruct H as [Hl Hin]. split; [assumption|].
  unfold listed. simpl. apply in_or_app. right. exact Hin.
Qed.

Lemma canonicalFS_loop_success (p : gostring) (segs : list gostring) :
  forall curDir built t q,
    Yields (canonicalFS_loop p segs curDir built) t (q, true) ->
    exists names,
      q = slash :: strings.Join (built ++ names) [slash] /\
      Forall2 (stands_for t) names segs.
Proof.
  induction segs as [|seg segs IH]; intros curDir built t q Hy.
  { simpl in Hy. apply Yields_Ret_inv in Hy. inversion Hy; subst.
    exists []. rewrite app_nil_r. split; [reflexivity | constructor]. }
  cbn [canonicalFS_loop] in Hy.
  apply Yields_inv in Hy. destruct Hy as (entries & t' & -> & Hy).
  destruct entries as [entries|];
    [|apply Yields_Ret_inv in Hy; discriminate].
  cbv zeta in Hy.
  destruct (is_empty (find_match entries seg)) eqn:Hm;
    [apply Yields_Ret_inv in Hy; discriminate|].
  destruct (find_match_spec _ _ Hm) as [Hlow Hin].
  assert (Hhere : forall t0,
             stands_for (obs (ReadDir curDir) (Some entries) :: t0)
                        (find_match entries seg) seg).
  { intros t0. split; [assumption|].
    unfold listed. simpl. apply in_or_app. left. assumption. }
  assert (Hstep : forall curDir' t0,
             Yields (canonicalFS_loop p segs curDir'
                       (built ++ [find_match entries seg])) t0 (q, true) ->
             forall pre,
             exists names,
               q = slash :: strings.Join (built ++ names) [slash] /\
               Forall2 (stands_for (obs (ReadDir curDir) (Some entries) :: pre ++ t0))
                       names (seg :: segs)).
  { intros curDir' t0 Hy0 pre. apply IH in Hy0.
    destruct Hy0 as (names & -> & Hall).
    exists (find_match entries seg :: names). split.
    - rewrite <- app_assoc. reflexivity.
    - constructor; [apply Hhere|].
      apply stands_for_later.
      clear - Hall. induction pre as [|o pre IHp]; simpl; [assumption|].
      apply stands_for_later. exact IHp. }
  destruct segs as [|seg' segs'].
  - apply (Hstep _ _ Hy []).
  - apply Yields_inv in Hy. destruct Hy as (fi & t'' & -> & Hy).
    destruct fi as [[|]|]; try (apply Yields_Ret_inv in Hy; discriminate).
    apply (Hstep _ _ Hy [obs (Stat _) (Some true)]).
Qed.

Lemma canonicalFS_success (c : Casefold) (p q : gostring) t :
  Yields (canonicalFS c p) t (q, true) ->
  exists names,
    q = slash :: strings.Join names [slash] /\
    Forall2 (stands_for t) names (cleaned_segments p).
Proof.
  unfold canonicalFS, cleaned_segments. cbv zeta.
  assert (Hfail : Yields (Ret (p, false)) t (q, true) ->
                  exists names,
                    q = slash :: strings.Join names [slash] /\
                    Forall2 (stands_for t) names
                      (strings.Split (strings.TrimPrefix (path.Clean p) [slash])
                                     slash)).
  { intros Hy. apply Yields_Ret_inv in Hy. discriminate. }
  destruct (is_empty (Root c)); [exact Hfail|].
  destruct (negb (strings.HasPrefix (path.Clean p) [slash])); [exact Hfail|].
  destruct (streq (path.Clean p) [slash]); [exact Hfail|].
  destruct (existsb _ _); [exact Hfail|].
  intros Hy. apply canonicalFS_loop_success in Hy. exact Hy.
Qed.

End Canonical.

(** ** The leading slash *)

Section LeadingSlash.
Context {T : CaseTables}.

Lemma Map_rest_extends (mapping : Z -> Z) (items : list (Z * gostring)) :
  forall b, exists x, strings.Map_rest mapping b items = b ++ x.
Proof.
  induction items as [|[c raw] items IH]; intros b; simpl.
  - exists []. rewrite app_nil_r. reflexivity.
  - destruct (0 <=? mapping c)%Z; [|apply IH].
    destruct (mapping c <? utf8.RuneSelf)%Z.
    + destruct (IH (b ++ [Zbyte (mapping c)])) as [x ->].
      rewrite <- app_assoc. eauto.
    + destruct (IH (b ++ utf8.EncodeRune (mapping c))) as [x ->].
      rewrite <- app_assoc. eauto.
Qed.

Lemma Map_first_extends (mapping : Z -> Z) (items : list (Z * gostring)) :
  forall prefix b rest,
    strings.Map_first mapping prefix items = Some (b, rest) ->
    exists x, b = prefix ++ x.
Proof.
  induction items as [|[c raw] items IH]; intros prefix b rest; simpl.
  - discriminate.
  - destruct ((mapping c =? c)%Z && negb (c =? utf8.RuneError)%Z).
    { intros E. apply IH in E. destruct E as [x ->].
      rewrite <- app_assoc. eauto. }
    destruct ((c =? utf8.RuneError)%Z && negb (length raw =? 1)%nat
              && (mapping c =? c)%Z).
    { intros E. apply IH in E. destruct E as [x ->].
      rewrite <- app_assoc. eauto. }
    intros E. inversion E. eauto.
Qed.

Lemma runes_slash (s : gostring) :
  utf8.runes (slash :: s) = (47%Z, [slash]) :: utf8.runes s.
Proof. reflexivity. Qed.

Lemma Map_ToLower_slash (s : gostring) :
  exists x, strings.Map unicode.ToLower (slash :: s) = slash :: x.
Proof.
  unfold strings.Map. rewrite runes_slash.
  change (strings.Map_first unicode.ToLower [] ((47%Z, [slash]) :: utf8.runes s))
    with (strings.Map_first unicode.ToLower [slash] (utf8.runes s)).
  destruct (strings.Map_first unicode.ToLower [slash] (utf8.runes s))
    as [[b rest]|] eqn:E; [|eauto].
  apply Map_first_extends in E. destruct E as [x ->].
  destruct (Map_rest_extends unicode.ToLower rest ([slash] ++ x)) as [y ->].
  simpl. eauto.
Qed.

Lemma ToLower_slash (s : gostring) :
  exists x, strings.ToLower (slash :: s) = slash :: x.
Proof.
  unfold strings.ToLower.
  destruct (strings.scanASCII (slash :: s) false) as [[|] hasUpper].
  - destruct (negb hasUpper); [eauto|]. simpl. eauto.
  - apply Map_ToLower_slash.
Qed.

Lemma Fold_slash (s : gostring) :
  exists x, cases.Fold_String (slash :: s) = slash :: x.
Proof.
  unfold cases.Fold_String. rewrite runes_slash. simpl. eauto.
Qed.

Lemma HasPrefix_slash (s : gostring) :
  strings.HasPrefix s [slash] = true <-> exists x, s = slash :: x.
Proof.
  destruct s as [|c s]; simpl.
  - split; [discriminate | intros [x E]; discriminate].
  - rewrite andb_true_r, Ascii.eqb_eq.
    split; [intros ->; eauto | intros [x E]; inversion E; reflexivity].
Qed.

Lemma caser_String_slash (f : caser) (s : gostring) :
  strings.HasPrefix s [slash] = true ->
  strings.HasPrefix (caser_String f s) [slash] = true.
Proof.
  intros Hs. apply HasPrefix_slash in Hs. destruct Hs as [x ->].
  apply HasPrefix_slash. destruct f; [apply ToLower_slash | apply Fold_slash].
Qed.

End LeadingSlash.

(** C7: when the decision for a request path, which begins with [/], is
    [REWRITTEN newPath], then [newPath] differs from the original path and
    begins with [/], whichever mode, file system and caser is in play. *)
Theorem C7_rewritten_path_differs_and_is_rooted
    {T : CaseTables} (c : Casefold) (p newPath : gostring) (t : list Obs) :
  strings.HasPrefix p [slash] = true ->
  Yields (decide c p) t (REWRITTEN newPath) ->
  newPath <> p /\ strings.HasPrefix newPath [slash] = true.
Proof.
  intros Hp Hy. apply decide_REWRITTEN in Hy.
  destruct Hy as (Hne & _ & Hby). split; [assumption|].
  destruct Hby as [(_ & f & _ & ->) | (_ & _ & t1 & Hc)].
  - apply caser_String_slash; assumption.
  - apply canonicalFS_success in Hc. destruct Hc as (names & -> & _).
    reflexivity.
Qed.

Lemma C7_witness :
  str "/scripts/MyScript.bat" <> str "/Scripts/myscript.bat" /\
  strings.HasPrefix (str "/scripts/MyScript.bat") [slash] = true.
Proof.
  apply (@C7_rewritten_path_differs_and_is_rooted sample.tables
           (sample.provisioned (sample.config "fs" "/srv" []))
           (str "/Scripts/myscript.bat") (str "/scripts/MyScript.bat")
           (snd (run sample.site
                     (decide (H := sample.tables)
                        (sample.provisioned (sample.config "fs" "/srv" []))
                        (str "/Scripts/myscript.bat"))))).
  - reflexivity.
  - apply (@run_Yields _ sample.site). reflexivity.
Defined.

(** ** Segments of a canonical path *)

Lemma Split_nonempty (s : gostring) (sep : ascii) : strings.Split s sep <> [].
Proof.
  destruct s as [|c s]; simpl; [discriminate|].
  destruct (Ascii.eqb c sep); [discriminate|].
  destruct (strings.Split s sep); discriminate.
Qed.

Lemma Split_file_name (e : gostring) :
  file_name e -> strings.Split e slash = [e].
Proof.
  unfold file_name, strings.ContainsByte.
  induction e as [|c e IH]; cbn [existsb strings.Split]; intros Hn;
    [reflexivity|].
  apply orb_false_iff in Hn. destruct Hn as [Hc Hn].
  rewrite Ascii.eqb_sym, Hc, (IH Hn). reflexivity.
Qed.

Lemma Split_app_slash (e rest : gostring) :
  file_name e ->
  strings.Split (e ++ slash :: rest) slash = e :: strings.Split rest slash.
Proof.
  unfold file_name, strings.ContainsByte.
  induction e as [|c e IH]; cbn [existsb strings.Split app]; intros Hn.
  - rewrite Ascii.eqb_refl. reflexivity.
  - apply orb_false_iff in Hn. destruct Hn as [Hc Hn].
    rewrite Ascii.eqb_sym, Hc, (IH Hn). reflexivity.
Qed.

Lemma Split_Join (names : list gostring) :
  names <> [] -> Forall file_name names ->
  strings.Split (strings.Join names [slash]) slash = names.
Proof.
  induction names as [|e names IH]; intros Hne Hall; [congruence|].
  inversion Hall as [|? ? He Hrest]; subst.
  destruct names as [|e2 names].
  - simpl. apply Split_file_name; assumption.
  - change (strings.Join (e :: e2 :: names) [slash])
      with (e ++ slash :: strings.Join (e2 :: names) [slash]).
    rewrite Split_app_slash by assumption.
    rewrite IH; [reflexivity | discriminate | assumption].
Qed.

(** C10: when [canonicalFS] succeeds with [q], and the directories have
    listed file names, [q] has as many segments as the cleaned input, and
    each segment of [q], lowered, is the segment of the cleaned input at
    the same place, lowered: no segment is added, dropped or moved. *)
Theorem C10_canonical_path_keeps_the_cleaned_segments
    {T : CaseTables} (c : Casefold) (p q : gostring) (t : list Obs) :
  lists_file_names t ->
  Yields (canonicalFS c p) t (q, true) ->
  length (segments q) = length (cleaned_segments p) /\
  Forall2 (fun a b => strings.ToLower a = strings.ToLower b)
          (segments q) (cleaned_segments p).
Proof.
  intros Hnames Hy. apply canonicalFS_success in Hy.
  destruct Hy as (names & -> & Hall).
  assert (Hne : names <> []).
  { intros ->. unfold cleaned_segments in Hall. inversion Hall.
    eapply Split_nonempty. symmetry. eassumption. }
  assert (Hfn : Forall file_name names).
  { unfold lists_file_names in Hnames. rewrite Forall_forall in Hnames.
    clear - Hall Hnames. induction Hall as [|name seg names segs [_ Hin] _ IH];
      constructor; auto. }
  unfold segments.
  change (strings.TrimPrefix (slash :: strings.Join names [slash]) [slash])
    with (strings.Join names [slash]).
  rewrite Split_Join by assumption.
  split.
  - eapply Forall2_length; eassumption.
  - clear - Hall. induction Hall as [|name seg names segs [Hl _] _ IH];
      constructor; auto.
Qed.

Lemma C10_witness :
  length (segments (str "/scripts/MyScript.bat"))
  = length (cleaned_segments (str "//Scripts/./myscript.bat/")) /\
  Forall2 (fun a b => strings.ToLower (H := sample.tables) a
                      = strings.ToLower (H := sample.tables) b)
          (segments (str "/scripts/MyScript.bat"))
          (cleaned_segments (str "//Scripts/./myscript.bat/")).
Proof.
  apply (@C10_canonical_path_keeps_the_cleaned_segments sample.tables
           (sample.config "fs" "/srv" [])
           (str "//Scripts/./myscript.bat/") (str "/scripts/MyScript.bat")
           (snd (run sample.site
                     (canonicalFS (H := sample.tables)
                        (sample.config "fs" "/srv" [])
                        (str "//Scripts/./myscript.bat/"))))).
  - repeat constructor.
  - apply (@run_Yields _ sample.site). reflexivity.
Defined.

(** ** [path.Clean] leaves no [..] in a rooted path *)

Module clean_facts.

Lemma starts_slash_app (a b : gostring) :
  a <> [] -> starts_slash (a ++ b) = starts_slash a.
Proof. destruct a; [congruence | reflexivity]. Qed.

Lemma starts_slash_snoc (out : gostring) (c : ascii) :
  starts_slash out = false -> Ascii.eqb c slash = false ->
  starts_slash (out ++ [c]) = false.
Proof.
  intros Ho Hc. destruct out as [|b out]; [|exact Ho].
  unfold starts_slash. cbn [app strings.HasPrefix]. rewrite Hc. reflexivity.
Qed.

Lemma starts_slash_firstn (out : gostring) (w : nat) :
  starts_slash out = false -> starts_slash (firstn w out) = false.
Proof.
  intros Ho. destruct out as [|b out]; [rewrite firstn_nil; reflexivity|].
  destruct w; [reflexivity | exact Ho].
Qed.

(** On a path that is not rooted the buffer never begins with a slash. *)
Lemma Clean_loop_unrooted (rest : gostring) :
  forall copying out dotdot,
    starts_slash out = false ->
    starts_slash (path.Clean_loop false copying rest out dotdot) = false.
Proof.
  remember (length rest) as n eqn:Hn.
  assert (Hlen : (length rest <= n)%nat) by lia. clear Hn.
  revert rest Hlen. induction n as [|n IHn]; intros rest Hlen copying out dotdot Ho;
    (destruct rest as [|c rest1]; [exact Ho|]); [simpl in Hlen; lia|].
  assert (IH : forall r, (length r < length (c :: rest1))%nat ->
               forall copying out dotdot,
                 starts_slash out = false ->
                 starts_slash (path.Clean_loop false copying r out dotdot) = false).
  { intros r Hr. apply IHn. simpl in *. lia. }
  clear IHn Hlen.
  assert (IH1 : forall copying out dotdot,
             starts_slash out = false ->
             starts_slash (path.Clean_loop false copying rest1 out dotdot) = false).
  { intros. apply IH; [simpl; lia | assumption]. }
  cbn [path.Clean_loop].
  destruct copying.
  { destruct (Ascii.eqb c slash) eqn:Ec; [apply IH1; assumption|].
    apply IH1. apply starts_slash_snoc; assumption. }
  destruct (Ascii.eqb c slash) eqn:Ec; [apply IH1; assumption|].
  destruct (Ascii.eqb c path.dot && path.elem_ends rest1);
    [apply IH1; assumption|].
  cbv zeta.
  assert (Hstart :
            starts_slash
              (path.Clean_loop false true rest1
                 ((if (false && negb (length out =? 1)%nat)
                      || (negb false && negb (length out =? 0)%nat)
                   then out ++ [slash] else out) ++ [c]) dotdot) = false).
  { apply IH1. cbn [andb negb orb].
    destruct out as [|b out].
    - cbn [length Nat.eqb negb app]. unfold starts_slash.
      cbn [strings.HasPrefix]. rewrite Ec. reflexivity.
    - cbn [length Nat.eqb negb]. rewrite <- app_assoc. exact Ho. }
  destruct rest1 as [|c1 rest2]; [exact Hstart|].
  destruct (Ascii.eqb c path.dot && Ascii.eqb c1 path.dot
            && path.elem_ends rest2); [|exact Hstart].
  assert (IH2 : forall copying out dotdot,
             starts_slash out = false ->
             starts_slash (path.Clean_loop false copying rest2 out dotdot) = false).
  { intros. apply IH; [simpl; lia | assumption]. }
  destruct (dotdot <? length out)%nat.
  - apply IH2. apply starts_slash_firstn; assumption.
  - cbn [negb]. apply IH2.
    destruct out as [|b out]; [reflexivity|].
    cbn [length Nat.ltb Nat.leb]. rewrite <- !app_assoc. exact Ho.
Qed.

(** Only a rooted path is cleaned to a rooted path. *)
Lemma Clean_rooted (p : gostring) :
  starts_slash (path.Clean p) = true -> exists rest, p = slash :: rest.
Proof.
  unfold path.Clean. destruct p as [|c rest]; [discriminate|].
  destruct (Ascii.eqb c slash) eqn:Ec.
  - apply Ascii.eqb_eq in Ec. subst. eauto.
  - pose proof (@Clean_loop_unrooted (c :: rest) false [] 0 eq_refl) as H.
    destruct (path.Clean_loop false false (c :: rest) [] 0); [discriminate|].
    congruence.
Qed.


Lemma Join_snoc (elems : list gostring) (cur sep : gostring) :
  strings.Join (elems ++ [cur]) sep =
  match elems with
  | [] => cur
  | _ => strings.Join elems sep ++ sep ++ cur
  end.
Proof.
  induction elems as [|e elems IH]; [reflexivity|].
  destruct elems as [|e2 elems]; [reflexivity|].
  change (strings.Join ((e :: e2 :: elems) ++ [cur]) sep)
    with (e ++ sep ++ strings.Join ((e2 :: elems) ++ [cur]) sep).
  rewrite IH.
  change (strings.Join (e :: e2 :: elems) sep)
    with (e ++ sep ++ strings.Join (e2 :: elems) sep).
  rewrite <- !app_assoc. reflexivity.
Qed.

Lemma Join_elements_nil (elems : list gostring) :
  Forall element elems -> strings.Join elems [slash] = [] -> elems = [].
Proof.
  intros Hall Hj. destruct elems as [|e elems]; [reflexivity|].
  inversion Hall as [|? ? [Hne _] _]; subst.
  destruct elems; cbn [strings.Join] in Hj.
  - contradiction.
  - destruct e; [contradiction | discriminate].
Qed.

Lemma element_snoc (cur : gostring) (c : ascii) :
  file_name cur -> Ascii.eqb c slash = false -> element (cur ++ [c]).
Proof.
  unfold element, file_name, strings.ContainsByte. intros Hc Hs. split.
  - destruct cur; discriminate.
  - rewrite existsb_app, Hc. cbn [existsb orb].
    rewrite Ascii.eqb_sym, Hs. reflexivity.
Qed.

Lemma pending_ends (rest : gostring) :
  pending rest = [] <-> path.elem_ends rest = true.
Proof.
  destruct rest as [|c rest]; cbn [pending path.elem_ends]; [tauto|].
  destruct (Ascii.eqb c slash); split; congruence.
Qed.

(** The index at which the loop of the [..] case stops: before the last
    element and its slash. *)
Lemma backtrack_element (Q sep last : gostring) (k : nat) :
  (k < length last)%nat -> file_name last ->
  (sep = [] /\ length Q = 1%nat) \/ (sep = [slash] /\ (1 <= length Q)%nat) ->
  path.backtrack (Q ++ sep ++ last) (length Q + length sep + k) 1 = length Q.
Proof.
  intros Hk Hlast Hsep.
  assert (Hnth : forall j, (j < length last)%nat ->
             Ascii.eqb (nth (length Q + length sep + j) (Q ++ sep ++ last) zero)
                       slash = false).
  { intros j Hj.
    rewrite app_nth2 by lia. rewrite app_nth2 by lia.
    replace (length Q + length sep + j - length Q - length sep)%nat with j by lia.
    unfold file_name, strings.ContainsByte in Hlast.
    rewrite <- not_true_iff_false in Hlast.
    apply not_true_iff_false. intros E. apply Hlast.
    apply existsb_exists. exists (nth j last zero).
    split; [apply nth_In; assumption|]. rewrite Ascii.eqb_sym. exact E. }
  induction k as [|k IH].
  - destruct Hsep as [[-> HQ] | [-> HQ]]; cbn [length].
    + rewrite HQ. reflexivity.
    + replace (length Q + 1 + 0)%nat with (S (length Q)) by lia.
      cbn [path.backtrack].
      replace (1 <? S (length Q))%nat with true
        by (symmetry; apply Nat.ltb_lt; lia).
      specialize (Hnth 0%nat Hk). cbn [length] in Hnth.
      replace (length Q + 1 + 0)%nat with (S (length Q)) in Hnth by lia.
      rewrite Hnth. cbn [negb andb].
      destruct (length Q) as [|q] eqn:EQ; [lia|].
      cbn [path.backtrack].
      rewrite <- EQ. rewrite app_nth2 by lia. rewrite Nat.sub_diag.
      cbn [app nth]. rewrite Ascii.eqb_refl. rewrite andb_false_r.
      reflexivity.
  - replace (length Q + length sep + S k)%nat
      with (S (length Q + length sep + k)) by lia.
    cbn [path.backtrack].
    replace (1 <? S (length Q + length sep + k))%nat with true
      by (symmetry; apply Nat.ltb_lt; destruct Hsep as [[-> HQ] | [-> HQ]];
          cbn [length]; lia).
    specialize (Hnth (S k) Hk).
    replace (length Q + length sep + S k)%nat
      with (S (length Q + length sep + k)) in Hnth by lia.
    rewrite Hnth. cbn [negb andb]. apply IH. lia.
Qed.

(** The [..] case on a rooted buffer drops the last element. *)
Lemma backtrack_rooted (elems : list gostring) (last : gostring) :
  Forall element (elems ++ [last]) ->
  let out := slash :: strings.Join (elems ++ [last]) [slash] in
  firstn (path.backtrack out (length out - 1) 1) out
  = slash :: strings.Join elems [slash].
Proof.
  intros Hall. cbv zeta.
  apply Forall_app in Hall. destruct Hall as [Helems Hlast].
  inversion Hlast as [|? ? [Hne Hfn] _]; subst.
  set (Q := slash :: strings.Join elems [slash]).
  set (sep := match elems with [] => @nil ascii | _ => [slash] end).
  assert (Hout : slash :: strings.Join (elems ++ [last]) [slash]
                 = Q ++ sep ++ last).
  { subst Q sep. rewrite Join_snoc. destruct elems; reflexivity. }
  rewrite Hout.
  assert (Hsep : (sep = [] /\ length Q = 1%nat)
                 \/ (sep = [slash] /\ (1 <= length Q)%nat)).
  { subst Q sep. destruct elems; [left; auto | right; split; [auto|]].
    cbn [length]. lia. }
  assert (Hl : (0 < length last)%nat).
  { destruct last; [congruence | simpl; lia]. }
  replace (length (Q ++ sep ++ last) - 1)%nat
    with (length Q + length sep + (length last - 1))%nat
    by (rewrite !length_app; lia).
  rewrite backtrack_element by (auto; lia).
  rewrite firstn_app, Nat.sub_diag, firstn_all. cbn [firstn].
  apply app_nil_r.
Qed.

Lemma rooted_buffer_length (elems : list gostring) (out : gostring) :
  rooted_buffer elems out ->
  (length out =? 1)%nat = match elems with [] => true | _ => false end.
Proof.
  intros [-> Hall]. cbn [length].
  destruct elems as [|e elems]; [reflexivity|].
  destruct (strings.Join (e :: elems) [slash]) eqn:E; [|reflexivity].
  apply Join_elements_nil in E; [discriminate | assumption].
Qed.

Lemma rooted_buffer_snoc_byte (elems : list gostring) (cur out : gostring)
      (c : ascii) :
  rooted_buffer (elems ++ [cur]) out -> Ascii.eqb c slash = false ->
  rooted_buffer (elems ++ [cur ++ [c]]) (out ++ [c]).
Proof.
  intros [-> Hall] Hc. apply Forall_app in Hall. destruct Hall as [He Hcur].
  inversion Hcur as [|? ? [_ Hfn] _]; subst. split.
  - rewrite !Join_snoc. destruct elems; cbn [app]; [reflexivity|].
    rewrite <- !app_assoc. reflexivity.
  - apply Forall_app. split; [assumption|].
    constructor; [|constructor]. apply element_snoc; assumption.
Qed.

Lemma rooted_buffer_start (elems : list gostring) (out : gostring) (c : ascii) :
  rooted_buffer elems out -> Ascii.eqb c slash = false ->
  rooted_buffer (elems ++ [[c]])
    ((if (true && negb (length out =? 1)%nat)
         || (negb true && negb (length out =? 0)%nat)
      then out ++ [slash] else out) ++ [c]).
Proof.
  intros Hb Hc. rewrite (rooted_buffer_length Hb).
  destruct Hb as [-> Hall]. split.
  - rewrite Join_snoc. destruct elems; cbn [andb negb orb app]; [reflexivity|].
    rewrite <- !app_assoc. reflexivity.
  - apply Forall_app. split; [assumption|].
    constructor; [|constructor]. apply (@element_snoc [] c); [reflexivity|].
    assumption.
Qed.

Lemma not_dotdot_start (c : ascii) (rest1 : gostring) :
  match rest1 with
  | c1 :: rest2 =>
    Ascii.eqb c path.dot && Ascii.eqb c1 path.dot && path.elem_ends rest2 = false
  | [] => True
  end ->
  Ascii.eqb c slash = false ->
  [c] ++ pending rest1 <> dotdot.
Proof.
  intros Hcond Hc E. destruct rest1 as [|c1 rest2]; [discriminate|].
  cbn [app pending] in E.
  destruct (Ascii.eqb c1 slash) eqn:E1; [discriminate|].
  inversion E as [[Ec Ec1 Ep]]. apply pending_ends in Ep.
  subst c c1. rewrite Ep in Hcond. discriminate.
Qed.

(** The loop of [path.Clean] on a rooted path keeps its state. *)
Lemma Clean_loop_rooted (n : nat) :
  forall rest copying out,
    (length rest <= n)%nat -> clean_state copying rest out ->
    clean_state false [] (path.Clean_loop true copying rest out 1).
Proof.
  induction n as [|n IHn]; intros rest copying out Hlen Hst;
    (destruct rest as [|c rest1]; [|try (simpl in Hlen; lia)]).
  1,2: (cbn [path.Clean_loop]; destruct copying; [|exact Hst];
        destruct Hst as (elems & cur & Hb & Hall & Hcur);
        exists (elems ++ [cur]); split; [assumption|];
        apply Forall_app; split; [assumption|];
        constructor; [|constructor];
        cbn [pending] in Hcur; rewrite app_nil_r in Hcur; assumption).
  assert (IH : forall r copying out,
             (length r <= length rest1)%nat -> clean_state copying r out ->
             clean_state false [] (path.Clean_loop true copying r out 1)).
  { intros r cp o Hr. apply IHn. simpl in Hlen. lia. }
  clear IHn Hlen.
  cbn [path.Clean_loop]. destruct copying.
  { destruct Hst as (elems & cur & Hb & Hall & Hcur). cbn [pending] in Hcur.
    destruct (Ascii.eqb c slash) eqn:Ec.
    - apply IH; [lia|]. exists (elems ++ [cur]). split; [assumption|].
      apply Forall_app. split; [assumption|]. constructor; [|constructor].
      rewrite app_nil_r in Hcur. assumption.
    - apply IH; [lia|]. exists elems, (cur ++ [c]).
      split; [apply rooted_buffer_snoc_byte; assumption|].
      split; [assumption|]. rewrite <- app_assoc. exact Hcur. }
  destruct Hst as (elems & Hb & Hall).
  destruct (Ascii.eqb c slash) eqn:Ec; [apply IH; [lia | exists elems; auto]|].
  destruct (Ascii.eqb c path.dot && path.elem_ends rest1);
    [apply IH; [lia | exists elems; auto]|].
  cbv zeta.
  assert (Hstart :
            [c] ++ pending rest1 <> dotdot ->
            clean_state false []
              (path.Clean_loop true true rest1
                 ((if (true && negb (length out =? 1)%nat)
                      || (negb true && negb (length out =? 0)%nat)
                   then out ++ [slash] else out) ++ [c]) 1)).
  { intros Hnd. apply IH; [lia|]. exists elems, [c].
    split; [apply rooted_buffer_start; assumption | auto]. }
  destruct rest1 as [|c1 rest2]; [apply Hstart; discriminate|].
  destruct (Ascii.eqb c path.dot && Ascii.eqb c1 path.dot
            && path.elem_ends rest2) eqn:Edd;
    [|apply Hstart; apply not_dotdot_start; assumption].
  destruct (1 <? length out)%nat eqn:Elen.
  - apply IH; [simpl; lia|].
    pose proof (rooted_buffer_length Hb) as Hl.
    destruct Hb as [-> Hel].
    destruct elems as [|e0 elems0]; [cbn [length] in Elen; discriminate|].
    destruct (@exists_last _ (e0 :: elems0)) as (init & last & Heq);
      [discriminate|].
    rewrite Heq in *.
    exists init. split.
    + split; [apply backtrack_rooted; assumption|].
      apply Forall_app in Hel. tauto.
    + apply Forall_app in Hall. tauto.
  - cbn [negb]. apply IH; [simpl; lia|]. exists elems; auto.
Qed.

(** A rooted path, cleaned, has no [..] among its segments. *)
Lemma Clean_no_dotdot (p : gostring) :
  strings.HasPrefix (path.Clean p) [slash] = true ->
  existsb (fun s => streq s dotdot) (cleaned_segments p) = false.
Proof.
  intros Hp. destruct (Clean_rooted p Hp) as [rest ->].
  unfold cleaned_segments, path.Clean.
  rewrite Ascii.eqb_refl.
  destruct (@Clean_loop_rooted (length rest) rest false [slash] (le_n _))
    as (elems & [Hout Hel] & Hnd).
  { exists []. split; [split; [reflexivity | constructor] | constructor]. }
  rewrite Hout.
  change (strings.TrimPrefix (slash :: strings.Join elems [slash]) [slash])
    with (strings.Join elems [slash]).
  destruct elems as [|e elems]; [reflexivity|].
  rewrite Split_Join.
  - apply not_true_iff_false. intros E. apply existsb_exists in E.
    destruct E as (x & Hin & Hx). apply streq_spec in Hx.
    rewrite Forall_forall in Hnd. exact (Hnd x Hin Hx).
  - discriminate.
  - eapply Forall_impl; [|exact Hel]. intros a [_ Ha]. exact Ha.
Qed.

(** The guard of [canonicalFS] against [..] never fires: no path reaches
    it with such a segment. *)
Lemma canonicalFS_guard_is_idle {T : CaseTables} (c : Casefold) (p : gostring) :
  canonicalFS c p =
  if is_empty (Root c) then Ret (p, false)
  else if negb (strings.HasPrefix (path.Clean p) [slash]) then Ret (p, false)
  else if streq (path.Clean p) [slash] then Ret (p, false)
  else canonicalFS_loop p (cleaned_segments p) (Root c) [].
Proof.
  unfold canonicalFS. cbv zeta.
  destruct (is_empty (Root c)); [reflexivity|].
  destruct (strings.HasPrefix (path.Clean p) [slash]) eqn:Hp; [|reflexivity].
  cbn [negb]. destruct (streq (path.Clean p) [slash]); [reflexivity|].
  fold (cleaned_segments p). rewrite (Clean_no_dotdot p Hp). reflexivity.
Qed.

End clean_facts.

(** ** The traversal guard of [canonicalFS] *)




(** ** UTF-8: the decoder and the encoder *)

Module utf8_facts.
Local Open Scope Z_scope.

Lemma byteZ_range (b : ascii) : 0 <= byteZ b < 256.
Proof.
  unfold byteZ. pose proof (N_ascii_bounded b). lia.
Qed.

Lemma byteZ_Zbyte (z : Z) : 0 <= z < 256 -> byteZ (Zbyte z) = z.
Proof.
  intros Hz. unfold byteZ, Zbyte.
  rewrite Z.mod_small by assumption.
  rewrite N_ascii_embedding by lia. lia.
Qed.

Lemma Zbyte_byteZ (b : ascii) : Zbyte (byteZ b) = b.
Proof.
  unfold Zbyte. rewrite Z.mod_small by apply byteZ_range.
  unfold byteZ. rewrite N2Z.id. apply ascii_N_embedding.
Qed.

Lemma lor_add (hi lo n : Z) :
  0 <= n -> 0 <= lo < 2 ^ n -> Z.lor (hi * 2 ^ n) lo = hi * 2 ^ n + lo.
Proof.
  intros Hn Hlo.
  rewrite <- Z.lxor_lor, <- Z.add_nocarry_lxor; try reflexivity.
  all: apply Z.bits_inj'; intros i Hi;
    rewrite Z.land_spec, Z.bits_0;
    destruct (Z.ltb_spec i n) as [Hlt | Hge];
    [ rewrite Z.mul_pow2_bits_low by assumption; reflexivity
    | rewrite <- (Z.mod_small lo (2 ^ n)) by assumption;
      rewrite Z.testbit_mod_pow2 by assumption;
      replace (i <? n) with false by (symmetry; apply Z.ltb_ge; assumption);
      apply andb_false_r ].
Qed.

Lemma land_low (a n : Z) : 0 <= n -> Z.land a (2 ^ n - 1) = a mod 2 ^ n.
Proof.
  intros Hn. rewrite <- Z.land_ones by assumption.
  rewrite Z.ones_equiv, Z.sub_1_r. reflexivity.
Qed.

Lemma land_63 a : Z.land a utf8.maskx = a mod 64.
Proof. apply (@land_low a 6); lia. Qed.
Lemma land_31 a : Z.land a utf8.mask2 = a mod 32.
Proof. apply (@land_low a 5); lia. Qed.
Lemma land_15 a : Z.land a utf8.mask3 = a mod 16.
Proof. apply (@land_low a 4); lia. Qed.
Lemma land_7 a : Z.land a utf8.mask4 = a mod 8.
Proof. apply (@land_low a 3); lia. Qed.

Lemma shiftl_6 a : Z.shiftl a 6 = a * 2 ^ 6.
Proof. apply Z.shiftl_mul_pow2; lia. Qed.
Lemma shiftl_12 a : Z.shiftl a 12 = a * 2 ^ 12.
Proof. apply Z.shiftl_mul_pow2; lia. Qed.
Lemma shiftl_18 a : Z.shiftl a 18 = a * 2 ^ 18.
Proof. apply Z.shiftl_mul_pow2; lia. Qed.

Ltac divmod := Z.to_euclidean_division_equations; lia.

(** The value of a two-byte encoding. *)
Lemma value2 (c0 c1 : Z) :
  0xC0 <= c0 < 0xE0 -> 0x80 <= c1 <= 0xBF ->
  Z.lor (Z.shiftl (Z.land c0 utf8.mask2) 6) (Z.land c1 utf8.maskx)
  = (c0 - 0xC0) * 64 + (c1 - 0x80).
Proof.
  intros H0 H1. rewrite land_31, land_63, shiftl_6.
  rewrite lor_add by (try lia; divmod).
  divmod.
Qed.

Lemma value3 (c0 c1 c2 : Z) :
  0xE0 <= c0 < 0xF0 -> 0x80 <= c1 <= 0xBF -> 0x80 <= c2 <= 0xBF ->
  Z.lor (Z.lor (Z.shiftl (Z.land c0 utf8.mask3) 12)
               (Z.shiftl (Z.land c1 utf8.maskx) 6))
        (Z.land c2 utf8.maskx)
  = (c0 - 0xE0) * 4096 + (c1 - 0x80) * 64 + (c2 - 0x80).
Proof.
  intros H0 H1 H2. rewrite land_15, !land_63, shiftl_6, shiftl_12.
  rewrite (@lor_add (c0 mod 16) (c1 mod 64 * 2 ^ 6) 12) by (try lia; divmod).
  replace (c0 mod 16 * 2 ^ 12 + c1 mod 64 * 2 ^ 6)
    with ((c0 mod 16 * 64 + c1 mod 64) * 2 ^ 6) by lia.
  rewrite lor_add by (try lia; divmod).
  divmod.
Qed.

Lemma value4 (c0 c1 c2 c3 : Z) :
  0xF0 <= c0 < 0xF8 -> 0x80 <= c1 <= 0xBF -> 0x80 <= c2 <= 0xBF ->
  0x80 <= c3 <= 0xBF ->
  Z.lor (Z.lor (Z.lor (Z.shiftl (Z.land c0 utf8.mask4) 18)
                      (Z.shiftl (Z.land c1 utf8.maskx) 12))
               (Z.shiftl (Z.land c2 utf8.maskx) 6))
        (Z.land c3 utf8.maskx)
  = (c0 - 0xF0) * 262144 + (c1 - 0x80) * 4096 + (c2 - 0x80) * 64 + (c3 - 0x80).
Proof.
  intros H0 H1 H2 H3.
  rewrite land_7, !land_63, shiftl_6, shiftl_12, shiftl_18.
  rewrite (@lor_add (c0 mod 8) (c1 mod 64 * 2 ^ 12) 18) by (try lia; divmod).
  replace (c0 mod 8 * 2 ^ 18 + c1 mod 64 * 2 ^ 12)
    with ((c0 mod 8 * 64 + c1 mod 64) * 2 ^ 12) by lia.
  rewrite (@lor_add _ (c2 mod 64 * 2 ^ 6) 12) by (try lia; divmod).
  replace ((c0 mod 8 * 64 + c1 mod 64) * 2 ^ 12 + c2 mod 64 * 2 ^ 6)
    with (((c0 mod 8 * 64 + c1 mod 64) * 64 + c2 mod 64) * 2 ^ 6) by lia.
  rewrite lor_add by (try lia; divmod).
  divmod.
Qed.


Lemma first_cases (c0 : Z) :
  0 <= c0 < 256 ->
  (c0 < 0x80 /\ utf8.first c0 = utf8.as_) \/
  ((0x80 <= c0 < 0xC2 \/ 0xF4 < c0) /\ utf8.first c0 = utf8.xx) \/
  (0xC2 <= c0 < 0xE0 /\ utf8.first c0 = utf8.s1) \/
  (c0 = 0xE0 /\ utf8.first c0 = utf8.s2) \/
  ((0xE0 < c0 < 0xED \/ 0xED < c0 < 0xF0) /\ utf8.first c0 = utf8.s3) \/
  (c0 = 0xED /\ utf8.first c0 = utf8.s4) \/
  (c0 = 0xF0 /\ utf8.first c0 = utf8.s5) \/
  (0xF0 < c0 < 0xF4 /\ utf8.first c0 = utf8.s6) \/
  (c0 = 0xF4 /\ utf8.first c0 = utf8.s7).
Proof.
  intros Hc. unfold utf8.first.
  destruct (Z.ltb_spec c0 0x80); [left; split; [lia | reflexivity]|right].
  destruct (Z.ltb_spec c0 0xC2); [left; split; [lia | reflexivity]|].
  destruct (Z.ltb_spec c0 0xE0); [right; left; split; [lia | reflexivity]|].
  destruct (Z.eqb_spec c0 0xE0);
    [right; right; left; split; [lia | reflexivity]|].
  destruct (Z.ltb_spec c0 0xED);
    [right; right; right; left; split; [lia | reflexivity]|].
  destruct (Z.eqb_spec c0 0xED);
    [right; right; right; right; left; split; [lia | reflexivity]|].
  destruct (Z.ltb_spec c0 0xF0);
    [right; right; right; left; split; [lia | reflexivity]|].
  destruct (Z.eqb_spec c0 0xF0);
    [do 5 right; left; split; [lia | reflexivity]|].
  destruct (Z.ltb_spec c0 0xF4);
    [do 6 right; left; split; [lia | reflexivity]|].
  destruct (Z.eqb_spec c0 0xF4);
    [do 7 right; split; [lia | reflexivity]|].
  left; split; [lia | reflexivity].
Qed.

Lemma outside_false (c lo hi : Z) :
  utf8.outside c lo hi = negb ((lo <=? c) && (c <=? hi)).
Proof.
  unfold utf8.outside.
  destruct (Z.ltb_spec c lo), (Z.ltb_spec hi c), (Z.leb_spec lo c),
    (Z.leb_spec c hi); try lia; reflexivity.
Qed.

Ltac zdecide :=
  repeat match goal with
         | |- context [(?a <? ?b)%Z] =>
           first [ replace (a <? b)%Z with true
                     by (symmetry; apply Z.ltb_lt; lia)
                 | replace (a <? b)%Z with false
                     by (symmetry; apply Z.ltb_ge; lia) ]
         | |- context [(?a <=? ?b)%Z] =>
           first [ replace (a <=? b)%Z with true
                     by (symmetry; apply Z.leb_le; lia)
                 | replace (a <=? b)%Z with false
                     by (symmetry; apply Z.leb_gt; lia) ]
         | |- context [(?a =? ?b)%Z] =>
           first [ replace (a =? b)%Z with true
                     by (symmetry; apply Z.eqb_eq; lia)
                 | replace (a =? b)%Z with false
                     by (symmetry; apply Z.eqb_neq; lia) ]
         end.

(** Evaluate what the decoder reads off the entry [X] of [first]. *)
Ltac eval_first X :=
  let a := eval vm_compute in (utf8.as_ <=? X) in
  change (utf8.as_ <=? X) with a;
  let n := eval vm_compute in (Z.to_nat (Z.land X 7)) in
  change (Z.to_nat (Z.land X 7)) with n;
  let r := eval vm_compute in (utf8.acceptRanges (Z.shiftr X 4)) in
  change (utf8.acceptRanges (Z.shiftr X 4)) with r;
  cbv iota.

Ltac byte_cases b :=
  let H := fresh "Hb" in
  pose proof (byteZ_range b) as H;
  repeat match goal with
         | |- context [(?a <=? byteZ b)%Z] => destruct (Z.leb_spec a (byteZ b))
         | |- context [(byteZ b <=? ?a)%Z] => destruct (Z.leb_spec (byteZ b) a)
         end.

Ltac three_bytes X rest :=
  eval_first X; zdecide; cbn [orb];
  destruct rest as [|?b1 [|?b2 rest]];
  cbn [nth length Nat.ltb Nat.leb fst snd]; try reflexivity;
  rewrite !outside_false; unfold second_ok, cont, utf8.locb, utf8.hicb;
  zdecide;
  match goal with
  | b1 : ascii, b2 : ascii |- _ =>
    byte_cases b1; byte_cases b2; cbn [andb negb]; try reflexivity;
    rewrite value3 by lia; reflexivity
  end.

Ltac four_bytes X rest :=
  eval_first X; zdecide; cbn [orb];
  destruct rest as [|?b1 [|?b2 [|?b3 rest]]];
  cbn [nth length Nat.ltb Nat.leb fst snd]; try reflexivity;
  rewrite !outside_false; unfold second_ok, cont, utf8.locb, utf8.hicb;
  zdecide;
  match goal with
  | b1 : ascii, b2 : ascii, b3 : ascii |- _ =>
    byte_cases b1; byte_cases b2; byte_cases b3; cbn [andb negb];
    try reflexivity;
    rewrite value4 by lia; reflexivity
  end.

(** [DecodeRuneInString] computes [decode]. *)
Lemma DecodeRune_decode (s : gostring) : utf8.DecodeRuneInString s = decode s.
Proof.
  destruct s as [|b0 rest]; [reflexivity|].
  unfold utf8.DecodeRuneInString, decode. cbv zeta.
  pose proof (byteZ_range b0) as H0.
  destruct (first_cases H0)
    as [[Hr ->] | [[Hr ->] | [[Hr ->] | [[Hr ->] | [[Hr ->] | [[Hr ->]
       | [[Hr ->] | [[Hr ->] | [Hr ->]]]]]]]]].
  - (* ASCII *)
    change (utf8.as_ <=? utf8.as_) with true. cbv iota.
    change (Z.shiftr (utf8.int32 (Z.shiftl utf8.as_ 31)) 31) with 0.
    rewrite Z.land_0_r, Z.lor_0_r. change (Z.lnot 0) with (-1).
    rewrite Z.land_m1_r. zdecide. reflexivity.
  - (* not a first byte *)
    change (utf8.as_ <=? utf8.xx) with true. cbv iota.
    change (Z.shiftr (utf8.int32 (Z.shiftl utf8.xx 31)) 31) with (-1).
    change (Z.lnot (-1)) with 0.
    rewrite Z.land_0_r, Z.land_m1_r, Z.lor_0_l.
    destruct Hr; zdecide; reflexivity.
  - (* two bytes *)
    eval_first utf8.s1. zdecide. cbn [orb].
    destruct rest as [|b1 rest]; [reflexivity|].
    cbn [nth length Nat.ltb Nat.leb fst snd].
    rewrite outside_false. unfold second_ok, cont, utf8.locb, utf8.hicb.
    zdecide. byte_cases b1; cbn [andb negb]; try reflexivity.
    rewrite value2 by lia. reflexivity.
  - three_bytes utf8.s2 rest.
  - destruct Hr; three_bytes utf8.s3 rest.
  - three_bytes utf8.s4 rest.
  - four_bytes utf8.s5 rest.
  - four_bytes utf8.s6 rest.
  - four_bytes utf8.s7 rest.
Qed.


Lemma shiftr_6 a : Z.shiftr a 6 = a / 2 ^ 6.
Proof. apply Z.shiftr_div_pow2; lia. Qed.
Lemma shiftr_12 a : Z.shiftr a 12 = a / 2 ^ 12.
Proof. apply Z.shiftr_div_pow2; lia. Qed.
Lemma shiftr_18 a : Z.shiftr a 18 = a / 2 ^ 18.
Proof. apply Z.shiftr_div_pow2; lia. Qed.

Lemma lor_tx (x : Z) : Z.lor utf8.tx (x mod 64) = 0x80 + x mod 64.
Proof.
  change utf8.tx with (2 * 2 ^ 6). rewrite lor_add by (try lia; divmod). lia.
Qed.

Lemma lor_t2 (x : Z) : 0 <= x < 64 -> Z.lor utf8.t2 x = 0xC0 + x.
Proof.
  intros. change utf8.t2 with (3 * 2 ^ 6). rewrite lor_add by lia. lia.
Qed.

Lemma lor_t3 (x : Z) : 0 <= x < 16 -> Z.lor utf8.t3 x = 0xE0 + x.
Proof.
  intros. change utf8.t3 with (14 * 2 ^ 4). rewrite lor_add by lia. lia.
Qed.

Lemma lor_t4 (x : Z) : 0 <= x < 8 -> Z.lor utf8.t4 x = 0xF0 + x.
Proof.
  intros. change utf8.t4 with (30 * 2 ^ 3). rewrite lor_add by lia. lia.
Qed.

Lemma EncodeRune_encode (r : Z) : valid_rune r -> utf8.EncodeRune r = encode r.
Proof.
  unfold valid_rune, utf8.MaxRune, utf8.surrogateMin, utf8.surrogateMax.
  intros [Hr Hs]. unfold utf8.EncodeRune, encode. cbv zeta.
  rewrite (Z.mod_small r (2 ^ 32)) by lia.
  unfold utf8.rune1Max, utf8.rune2Max, utf8.rune3Max, utf8.MaxRune,
    utf8.surrogateMin, utf8.surrogateMax.
  destruct (Z.leb_spec r 0x7F); zdecide; [reflexivity|].
  destruct (Z.leb_spec r 0x7FF); zdecide.
  { rewrite shiftr_6, land_63, lor_tx, lor_t2 by divmod. reflexivity. }
  assert (Hsur : r < 0xD800 \/ 0xDFFF < r) by lia.
  destruct (Z.leb_spec r 0xFFFF); destruct Hsur; zdecide; try lia;
    cbn [orb andb].
  all: rewrite ?shiftr_6, ?shiftr_12, ?shiftr_18, ?land_63, ?lor_tx.
  all: rewrite ?lor_t3 by divmod; rewrite ?lor_t4 by divmod.
  all: reflexivity.
Qed.

Lemma decode_encode (r : Z) (rest : gostring) :
  valid_rune r -> decode (encode r ++ rest) = (r, length (encode r)).
Proof.
  unfold valid_rune, utf8.MaxRune, utf8.surrogateMin, utf8.surrogateMax.
  intros [Hr Hs]. unfold encode.
  destruct (Z.leb_spec r 0x7F).
  { cbn [app decode]. rewrite byteZ_Zbyte by lia. zdecide. reflexivity. }
  destruct (Z.leb_spec r 0x7FF).
  { cbn [app decode length]. rewrite !byteZ_Zbyte by divmod.
    unfold second_ok, cont.
    assert (H192 : 2 <= r / 64 < 32) by divmod.
    assert (Hm : 0 <= r mod 64 < 64) by divmod.
    zdecide. cbn [orb andb]. f_equal. divmod. }
  destruct (Z.leb_spec r 0xFFFF).
  { cbn [app decode length]. rewrite !byteZ_Zbyte by divmod.
    unfold second_ok, cont.
    assert (Ha : 0 <= r / 4096 < 16) by divmod.
    assert (Hb : 0 <= (r / 64) mod 64 < 64) by divmod.
    assert (Hc : 0 <= r mod 64 < 64) by divmod.
    assert (Hab : r / 4096 = 0 -> 32 <= (r / 64) mod 64) by divmod.
    assert (Had : r / 4096 = 13 -> (r / 64) mod 64 < 32) by divmod.
    assert (Hsum : r / 4096 * 4096 + (r / 64) mod 64 * 64 + r mod 64 = r)
      by divmod.
    zdecide. cbn [orb].
    destruct (Z.eqb_spec (224 + r / 4096) 224);
      [|destruct (Z.eqb_spec (224 + r / 4096) 237)];
      zdecide; cbn [andb]; f_equal; lia. }
  cbn [app decode length]. rewrite !byteZ_Zbyte by divmod.
  unfold second_ok, cont.
  assert (Ha : 0 <= r / 262144 <= 4) by divmod.
  assert (Hb : 0 <= (r / 4096) mod 64 < 64) by divmod.
  assert (Hc : 0 <= (r / 64) mod 64 < 64) by divmod.
  assert (Hd : 0 <= r mod 64 < 64) by divmod.
  assert (Hab : r / 262144 = 0 -> 16 <= (r / 4096) mod 64) by divmod.
  assert (Had : r / 262144 = 4 -> (r / 4096) mod 64 < 16) by divmod.
  assert (Hsum : r / 262144 * 262144 + (r / 4096) mod 64 * 4096
                 + (r / 64) mod 64 * 64 + r mod 64 = r) by divmod.
  zdecide. cbn [orb].
  destruct (Z.eqb_spec (240 + r / 262144) 240);
    [|destruct (Z.eqb_spec (240 + r / 262144) 244)];
        zdecide; cbn [andb]; f_equal; lia.
Qed.


Lemma decode_decoded (b0 : ascii) (rest : gostring) :
  decoded (b0 :: rest) (fst (decode (b0 :: rest))) (snd (decode (b0 :: rest))).
Proof.
  unfold decode. cbv zeta.
  destruct (Z.ltb_spec (byteZ b0) 0x80); [constructor; assumption|].
  destruct (Z.ltb_spec (byteZ b0) 0xC2); [constructor|].
  destruct (Z.ltb_spec 0xF4 (byteZ b0)); [constructor|]. cbn [orb].
  destruct (Z.ltb_spec (byteZ b0) 0xE0).
  { destruct rest as [|b1 rest]; [constructor|].
    destruct (second_ok (byteZ b0) (byteZ b1)) eqn:E1; constructor;
      auto; lia. }
  destruct (Z.ltb_spec (byteZ b0) 0xF0).
  { destruct rest as [|b1 [|b2 rest]]; try constructor.
    destruct (second_ok (byteZ b0) (byteZ b1)) eqn:E1; [|constructor].
    destruct (cont (byteZ b2)) eqn:E2; constructor; auto; lia. }
  destruct rest as [|b1 [|b2 [|b3 rest]]]; try constructor.
  destruct (second_ok (byteZ b0) (byteZ b1)) eqn:E1; [|constructor].
  destruct (cont (byteZ b2)) eqn:E2; [|constructor].
  destruct (cont (byteZ b3)) eqn:E3; constructor; auto; lia.
Qed.

Lemma cont_range (c : Z) : cont c = true <-> 0x80 <= c <= 0xBF.
Proof. unfold cont. rewrite andb_true_iff, Z.leb_le, Z.leb_le. tauto. Qed.

Lemma second_ok_cont (c0 c1 : Z) : second_ok c0 c1 = true -> cont c1 = true.
Proof.
  unfold second_ok, cont.
  destruct (c0 =? 0xE0); [|destruct (c0 =? 0xED);
    [|destruct (c0 =? 0xF0); [|destruct (c0 =? 0xF4)]]];
    rewrite !andb_true_iff, !Z.leb_le; lia.
Qed.

Lemma second_ok_range (c0 c1 : Z) :
  second_ok c0 c1 = true ->
  0x80 <= c1 <= 0xBF /\ (c0 = 0xE0 -> 0xA0 <= c1) /\ (c0 = 0xED -> c1 <= 0x9F)
  /\ (c0 = 0xF0 -> 0x90 <= c1) /\ (c0 = 0xF4 -> c1 <= 0x8F).
Proof.
  unfold second_ok, cont.
  destruct (Z.eqb_spec c0 0xE0); [|destruct (Z.eqb_spec c0 0xED);
    [|destruct (Z.eqb_spec c0 0xF0); [|destruct (Z.eqb_spec c0 0xF4)]]];
    rewrite !andb_true_iff, !Z.leb_le; lia.
Qed.

(** Every rune that the decoder returns is a Unicode scalar value. *)
Lemma decoded_valid (s : gostring) (c : Z) (w : nat) :
  decoded s c w -> valid_rune c.
Proof.
  unfold valid_rune, utf8.MaxRune, utf8.surrogateMin, utf8.surrogateMax.
  intros H; destruct H as [b0 rest H0 | b0 rest | b0 b1 rest H0 H1
                           | b0 b1 b2 rest H0 H1 H2
                           | b0 b1 b2 b3 rest H0 H1 H2 H3].
  - pose proof (byteZ_range b0). lia.
  - unfold utf8.RuneError. lia.
  - apply second_ok_range in H1. lia.
  - apply second_ok_range in H1. apply cont_range in H2. lia.
  - apply second_ok_range in H1. apply cont_range in H2, H3. lia.
Qed.

(** A rune that was decoded from more than one byte, or is not
    [RuneError], is decoded the same from its bytes in front of anything
    else. *)
Lemma decoded_local (s : gostring) (c : Z) (w : nat) (rest : gostring) :
  decoded s c w -> (c = utf8.RuneError -> w <> 1%nat) ->
  decode (firstn w s ++ rest) = (c, w).
Proof.
  intros H Hv; destruct H as [b0 rest0 H0 | b0 rest0 | b0 b1 rest0 H0 H1
                              | b0 b1 b2 rest0 H0 H1 H2
                              | b0 b1 b2 b3 rest0 H0 H1 H2 H3];
    cbn [firstn app decode].
  - zdecide. reflexivity.
  - exfalso. apply Hv; reflexivity.
  - zdecide. cbn [orb]. rewrite H1. reflexivity.
  - zdecide. cbn [orb]. rewrite H1, H2. reflexivity.
  - zdecide. cbn [orb]. rewrite H1, H2, H3. reflexivity.
Qed.

Lemma decoded_width (s : gostring) (c : Z) (w : nat) :
  decoded s c w -> (1 <= w <= length s)%nat.
Proof. intros H; destruct H; cbn [length]; lia. Qed.


Lemma runes_from_skip (s : gostring) :
  forall k, utf8.runes_from k s = utf8.runes (skipn k s).
Proof.
  induction s as [|b s IH]; intros [|k]; try reflexivity.
  cbn [utf8.runes_from skipn]. apply IH.
Qed.

Lemma runes_cons (b0 : ascii) (rest : gostring) :
  utf8.runes (b0 :: rest) =
  (fst (decode (b0 :: rest)),
   firstn (snd (decode (b0 :: rest))) (b0 :: rest))
  :: utf8.runes (skipn (snd (decode (b0 :: rest))) (b0 :: rest)).
Proof.
  unfold utf8.runes at 1. cbn [utf8.runes_from].
  rewrite DecodeRune_decode.
  pose proof (decoded_width (decode_decoded b0 rest)) as Hw.
  destruct (decode (b0 :: rest)) as [c w]. cbn [fst snd] in *.
  rewrite runes_from_skip.
  destruct w as [|w]; [lia|]. cbn [skipn].
  replace (S w - 1)%nat with w by lia. reflexivity.
Qed.


Lemma encode_length (r : Z) : (1 <= length (encode r) <= 4)%nat.
Proof. unfold encode. split_ifs; cbn [length]; lia. Qed.

Lemma encodes_encode (r : Z) : valid_rune r -> encodes (encode r) r.
Proof.
  intros Hr. split; [|split].
  - pose proof (encode_length r). destruct (encode r); [simpl in *; lia|].
    discriminate.
  - intros rest. apply decode_encode; assumption.
  - intros ->. discriminate.
Qed.

Lemma encodes_decoded (s : gostring) (c : Z) (w : nat) :
  decoded s c w -> (c = utf8.RuneError -> w <> 1%nat) ->
  encodes (firstn w s) c.
Proof.
  intros Hd Hv. pose proof (decoded_width Hd) as Hw.
  assert (Hlen : length (firstn w s) = w) by (rewrite length_firstn; lia).
  split; [|split].
  - intros E. rewrite E in Hlen. simpl in Hlen. lia.
  - intros rest. rewrite Hlen. apply decoded_local; assumption.
  - rewrite Hlen. assumption.
Qed.

(** The bytes of an encoding: one ASCII byte, or bytes above ASCII. *)
Lemma encodes_bytes (chunk : gostring) (d : Z) :
  encodes chunk d ->
  (exists b, chunk = [b] /\ byteZ b < 0x80 /\ d = byteZ b) \/
  (Forall (fun b => 0x80 <= byteZ b) chunk /\ 0x80 <= d).
Proof.
  intros (Hne & Hd & Hv). destruct chunk as [|b0 ch]; [congruence|].
  pose proof (decode_decoded b0 (ch ++ [])) as H.
  change (b0 :: ch ++ []) with ((b0 :: ch) ++ []) in H.
  rewrite Hd in H. cbn [fst snd] in H. rewrite app_nil_r in H.
  inversion H as [b0' rest H0 | b0' rest | b0' b1 rest H0 H1
                  | b0' b1 b2 rest H0 H1 H2
                  | b0' b1 b2 b3 rest H0 H1 H2 H3]; subst.
  - left. exists b0. destruct ch; [auto | simpl in *; lia].
  - exfalso. apply Hv; [reflexivity | simpl in *; lia].
  - right. destruct rest; [|simpl in *; lia].
    apply second_ok_range in H1. split; [repeat constructor; lia | lia].
  - right. destruct rest; [|simpl in *; lia].
    apply second_ok_range in H1. apply cont_range in H2.
    split; [repeat constructor; lia | lia].
  - right. destruct rest; [|simpl in *; lia].
    apply second_ok_range in H1. apply cont_range in H2, H3.
    split; [repeat constructor; lia | lia].
Qed.

End utf8_facts.

Import utf8_facts.

(** ** The casers are idempotent *)

Module lower_facts.
Local Open Scope Z_scope.

Section Lower.
Context {T : CaseTables}.
Hypothesis laws : CaseLaws T.

Lemma ToLower_rune_valid (c : Z) :
  valid_rune c -> valid_rune (unicode.ToLower c).
Proof.
  intros Hc. unfold unicode.ToLower.
  destruct (Z.leb_spec c unicode.MaxASCII).
  - unfold valid_rune, utf8.MaxRune, utf8.surrogateMin, utf8.surrogateMax,
      unicode.MaxASCII, unicode.isUpperASCII in *.
    destruct ((65 <=? c) && (c <=? 90)); lia.
  - apply (lower_valid laws); assumption.
Qed.

Lemma ToLower_rune_fixed (c : Z) :
  valid_rune c -> unicode.ToLower (unicode.ToLower c) = unicode.ToLower c.
Proof.
  intros Hc. unfold unicode.ToLower at 2 3.
  destruct (Z.leb_spec c unicode.MaxASCII).
  - unfold unicode.ToLower, unicode.isUpperASCII, unicode.MaxASCII in *.
    destruct (Z.leb_spec 65 c); destruct (Z.leb_spec c 90); cbn [andb];
      zdecide; cbn [andb]; try reflexivity; lia.
  - apply (lower_fixed laws); assumption.
Qed.

Lemma Stable_app (a b : gostring) : Stable a -> Stable b -> Stable (a ++ b).
Proof.
  intros Ha Hb; induction Ha; [assumption|].
  rewrite <- app_assoc. econstructor; eauto.
Qed.

Lemma Stable_chunk (chunk : gostring) (d : Z) :
  encodes chunk d -> unicode.ToLower d = d -> Stable chunk.
Proof.
  intros He Hd. rewrite <- (app_nil_r chunk).
  econstructor; eauto. constructor.
Qed.


Lemma ToLower_fixed_not_upper (d : Z) :
  d < 0x80 -> unicode.ToLower d = d -> unicode.isUpperASCII d = false.
Proof.
  unfold unicode.ToLower, unicode.MaxASCII. intros Hd.
  zdecide. destruct (unicode.isUpperASCII d); [lia | reflexivity].
Qed.

Lemma Stable_no_upper (s : gostring) : Stable s -> Forall no_upper s.
Proof.
  induction 1 as [|chunk d rest He Hd Hs IH]; [constructor|].
  apply Forall_app. split; [|assumption].
  destruct (encodes_bytes He) as [(b & -> & Hb & ->) | [Hall _]].
  - constructor; [|constructor].
    apply ToLower_fixed_not_upper; assumption.
  - eapply Forall_impl; [|exact Hall].
    intros b Hb. cbv beta in Hb. unfold no_upper, unicode.isUpperASCII.
    zdecide. apply andb_false_r.
Qed.

Lemma lowerASCII_no_upper (s : gostring) :
  Forall no_upper s -> strings.lowerASCII s = s.
Proof.
  induction 1 as [|b s Hb Hs IH]; [reflexivity|].
  cbn [strings.lowerASCII map]. unfold no_upper in Hb. rewrite Hb.
  f_equal. exact IH.
Qed.



(** Induction along the runes of a string. *)
Lemma rune_ind (P : gostring -> Prop) :
  P [] ->
  (forall b0 rest,
      P (skipn (snd (decode (b0 :: rest))) (b0 :: rest)) -> P (b0 :: rest)) ->
  forall s, P s.
Proof.
  intros Hnil Hcons s.
  assert (Hgen : forall n s, (length s <= n)%nat -> P s).
  { induction n as [|n IH]; intros [|b0 rest] Hlen; auto.
    - simpl in Hlen. lia.
    - apply Hcons. apply IH.
      pose proof (decoded_width (decode_decoded b0 rest)) as Hw.
      rewrite length_skipn. cbn [length] in *. lia. }
  apply (Hgen (length s)). reflexivity.
Qed.

Lemma runes_wf (s : gostring) : Forall item_wf (utf8.runes s).
Proof.
  induction s as [|b0 rest IH] using rune_ind; [constructor|].
  rewrite runes_cons. constructor; [|exact IH].
  pose proof (decode_decoded b0 rest) as Hd.
  pose proof (decoded_width Hd) as Hw.
  exists (b0 :: rest). cbn [fst snd].
  rewrite length_firstn, Nat.min_l by lia. auto.
Qed.

Lemma item_valid (c : Z) (raw : gostring) :
  item_wf (c, raw) -> valid_rune c.
Proof. intros (u & Hd & _). eapply decoded_valid; eassumption. Qed.

Lemma item_encodes (c : Z) (raw : gostring) :
  item_wf (c, raw) -> (c = utf8.RuneError -> length raw <> 1%nat) ->
  encodes raw c.
Proof.
  intros (u & Hd & Hraw) Hv. cbn [fst snd] in *. rewrite Hraw.
  apply encodes_decoded; assumption.
Qed.

Lemma Stable_lowered (c : Z) :
  valid_rune c -> Stable (encode (unicode.ToLower c)).
Proof.
  intros Hc. apply Stable_chunk with (d := unicode.ToLower c).
  - apply encodes_encode, ToLower_rune_valid, Hc.
  - apply ToLower_rune_fixed, Hc.
Qed.

Lemma Map_first_out (items : list (Z * gostring)) :
  forall prefix b rest,
    Forall item_wf items -> Stable prefix ->
    strings.Map_first unicode.ToLower prefix items = Some (b, rest) ->
    Stable b /\ Forall item_wf rest.
Proof.
  induction items as [|[c raw] items IH]; intros prefix b rest Hwf Hp;
    cbn [strings.Map_first]; [discriminate|].
  inversion Hwf as [|? ? Hitem Hitems]; subst.
  destruct (Z.eqb_spec (unicode.ToLower c) c) as [Hfix|Hchg]; cbn [andb].
  - destruct (Z.eqb_spec c utf8.RuneError) as [Herr|Herr]; cbn [negb andb].
    + destruct (Nat.eqb_spec (length raw) 1) as [Hone|Hone]; cbn [negb andb].
      * intros E. inversion E; subst. split; [|assumption].
        apply Stable_app; [assumption|].
        pose proof (item_valid Hitem) as Hv.
        pose proof (ToLower_rune_valid Hv) as Hv'.
        replace (0 <=? unicode.ToLower utf8.RuneError) with true
          by (symmetry; apply Z.leb_le; unfold valid_rune in Hv'; lia).
        rewrite EncodeRune_encode by assumption.
        apply Stable_lowered; assumption.
      * apply IH; [assumption|].
        apply Stable_app; [assumption|].
        apply Stable_chunk with (d := c); [|assumption].
        apply item_encodes; [assumption | intros _; assumption].
    + apply IH; [assumption|].
      apply Stable_app; [assumption|].
      apply Stable_chunk with (d := c); [|assumption].
      apply item_encodes; [assumption | intros; contradiction].
  - rewrite !andb_false_r. cbn [andb].
    intros E. inversion E; subst. split; [|assumption].
    apply Stable_app; [assumption|].
    pose proof (item_valid Hitem) as Hv.
    pose proof (ToLower_rune_valid Hv) as Hv'.
    replace (0 <=? unicode.ToLower c) with true
      by (symmetry; apply Z.leb_le; unfold valid_rune in Hv'; lia).
    rewrite EncodeRune_encode by assumption.
    apply Stable_lowered; assumption.
Qed.

Lemma Map_rest_out (items : list (Z * gostring)) :
  forall b,
    Forall item_wf items -> Stable b ->
    Stable (strings.Map_rest unicode.ToLower b items).
Proof.
  induction items as [|[c raw] items IH]; intros b Hwf Hb;
    cbn [strings.Map_rest]; [assumption|].
  inversion Hwf as [|? ? Hitem Hitems]; subst.
  pose proof (item_valid Hitem) as Hv.
  pose proof (ToLower_rune_valid Hv) as Hv'.
  replace (0 <=? unicode.ToLower c) with true
    by (symmetry; apply Z.leb_le; unfold valid_rune in Hv'; lia).
  assert (Henc : Stable (b ++ encode (unicode.ToLower c))).
  { apply Stable_app; [assumption | apply Stable_lowered; assumption]. }
  destruct (Z.ltb_spec (unicode.ToLower c) utf8.RuneSelf) as [Hlt|Hge].
  - apply IH; [assumption|].
    replace [Zbyte (unicode.ToLower c)] with (encode (unicode.ToLower c));
      [assumption|].
    unfold encode, utf8.RuneSelf in *. zdecide. reflexivity.
  - apply IH; [assumption|].
    rewrite EncodeRune_encode by assumption. assumption.
Qed.

Lemma scanASCII_true (s : gostring) :
  forall h h', strings.scanASCII s h = (true, h') ->
               Forall (fun b => byteZ b < 0x80) s.
Proof.
  induction s as [|b s IH]; intros h h' E; [constructor|].
  cbn [strings.scanASCII] in E. cbv zeta in E. unfold utf8.RuneSelf in E.
  destruct (Z.leb_spec 128 (byteZ b)); [discriminate|].
  constructor; [assumption | eapply IH; eassumption].
Qed.

Lemma lowerASCII_byte (b : ascii) :
  byteZ b < 0x80 ->
  let b' := if unicode.isUpperASCII (byteZ b) then Zbyte (byteZ b + 32) else b in
  byteZ b' < 0x80 /\ unicode.isUpperASCII (byteZ b') = false.
Proof.
  intros Hb. cbv zeta. pose proof (byteZ_range b).
  destruct (unicode.isUpperASCII (byteZ b)) eqn:E.
  - unfold unicode.isUpperASCII in E.
    apply andb_true_iff in E. destruct E as [E1 E2].
    apply Z.leb_le in E1, E2.
    rewrite byteZ_Zbyte by lia. unfold unicode.isUpperASCII.
    split; [lia|]. zdecide. apply andb_false_r.
  - auto.
Qed.



End Lower.
End lower_facts.

Module fold_facts.
Import lower_facts.
Local Open Scope Z_scope.

Section Fold.
Context {T : CaseTables}.
Hypothesis laws : CaseLaws T.

Lemma foldRune_folded (c : Z) (rs : list Z) :
  valid_rune c -> cases.foldRune c = Some rs -> rs <> [] /\ Forall folded rs.
Proof.
  intros Hc. unfold cases.foldRune.
  destruct (Z.leb_spec c unicode.MaxASCII) as [Hle|Hgt].
  - destruct (unicode.isUpperASCII c) eqn:Eu; [|discriminate].
    intros E. inversion E; subst. split; [discriminate|].
    unfold unicode.isUpperASCII in Eu.
    apply andb_true_iff in Eu. destruct Eu as [E1 E2].
    apply Z.leb_le in E1, E2.
    constructor; [|constructor]. split.
    + unfold valid_rune, utf8.MaxRune, utf8.surrogateMin, utf8.surrogateMax.
      lia.
    + left. unfold cases.foldRune, unicode.MaxASCII, unicode.isUpperASCII.
      zdecide. rewrite andb_false_r. reflexivity.
  - intros E. apply (fold_fixed laws) with (c := c); assumption.
Qed.

Lemma Fold_cons (b0 : ascii) (rest : gostring) :
  cases.Fold_String (b0 :: rest) =
  cases.foldChunk (fst (decode (b0 :: rest)),
                   firstn (snd (decode (b0 :: rest))) (b0 :: rest))
  ++ cases.Fold_String (skipn (snd (decode (b0 :: rest))) (b0 :: rest)).
Proof.
  unfold cases.Fold_String. rewrite runes_cons. reflexivity.
Qed.


Lemma foldChunk_encodes (chunk : list ascii) (d : Z) :
  encodes chunk d ->
  cases.foldChunk (d, chunk) =
  match cases.foldRune d with
  | None => chunk
  | Some rs => concat (map utf8.EncodeRune rs)
  end.
Proof.
  intros (_ & _ & Hv). unfold cases.foldChunk.
  destruct (Z.eqb_spec d utf8.RuneError) as [E|E]; [|reflexivity].
  destruct (Nat.eqb_spec (length chunk) 1) as [E1|E1]; [|reflexivity].
  exfalso. apply Hv; assumption.
Qed.






Lemma starts_cont_app (a b : gostring) :
  a <> [] -> starts_cont (a ++ b) = starts_cont a.
Proof. destruct a; [congruence | reflexivity]. Qed.







End Fold.
End fold_facts.

Lemma sample_tables_laws : CaseLaws sample.tables.
Proof.
  split.
  - intros c [Hr Hs] Hc.
    unfold valid_rune, utf8.MaxRune, utf8.surrogateMin, utf8.surrogateMax,
      unicode.MaxASCII in *.
    cbn [To_LowerCase sample.tables].
    destruct (Z.eqb_spec c 201); [lia|].
    destruct (Z.eqb_spec c 304); [lia|].
    destruct (Z.eqb_spec c 8490); lia.
  - intros c _ Hc. unfold unicode.MaxASCII in Hc.
    cbn [To_LowerCase sample.tables].
    destruct (Z.eqb_spec c 201); [reflexivity|].
    destruct (Z.eqb_spec c 304); [reflexivity|].
    destruct (Z.eqb_spec c 8490); [reflexivity|].
    unfold unicode.ToLower, unicode.MaxASCII.
    destruct (Z.leb_spec c 127); [lia|].
    cbn [To_LowerCase sample.tables].
    destruct (Z.eqb_spec c 201); [lia|].
    destruct (Z.eqb_spec c 304); [lia|].
    destruct (Z.eqb_spec c 8490); [lia|]. reflexivity.
  - intros c rs _ _. cbn [foldFull sample.tables].
    assert (Hok : forall d, In d [115; 233; 105; 775; 107]%Z ->
                            valid_rune d /\
                            (cases.foldRune (H := sample.tables) d = None \/
                             cases.foldRune (H := sample.tables) d = Some [d])).
    { intros d Hd. simpl in Hd.
      destruct Hd as [<- | [<- | [<- | [<- | [<- | []]]]]];
        (split; [unfold valid_rune, utf8.MaxRune, utf8.surrogateMin,
                 utf8.surrogateMax; lia | left; reflexivity]). }
    destruct (c =? 223)%Z;
      [|destruct (c =? 201)%Z;
        [|destruct (c =? 304)%Z; [|destruct (c =? 8490)%Z; [|discriminate]]]];
      intros E; inversion E; subst; (split; [discriminate|]);
      repeat constructor; try (apply Hok; simpl; tauto).
Qed.



(** * More of the handler and of what it calls *)

(** ** The handler and the rest of the chain *)

Section Chain.
Context {T : CaseTables}.

Lemma ServeHTTP_then (R : Type) (c : Casefold) w r
      (next : ResponseWriter -> Request -> Prog R) t1 t2 w' r' a :
  Yields (ServeHTTP c w r pass) t1 (w', r') ->
  Yields (next w' r') t2 a ->
  Yields (ServeHTTP c w r next) (t1 ++ t2) a.
Proof.
  unfold ServeHTTP. set (orig := Path (Request_URL r)).
  assert (Hdirect : Yields (pass w r) t1 (w', r') ->
                    Yields (next w' r') t2 a ->
                    Yields (next w r) (t1 ++ t2) a).
  { intros Hp Hn. apply Yields_inv in Hp. destruct Hp as [-> E].
    inversion E; subst. exact Hn. }
  destruct (is_empty orig || streq orig [slash]); [exact Hdirect|].
  destruct (skip c orig); [exact Hdirect|].
  intros Hy Hn. apply Yields_bind_inv in Hy.
  destruct Hy as (t3 & t4 & transformed & -> & Hy1 & Hy2).
  rewrite <- app_assoc. eapply Yields_bind; [eassumption|].
  destruct (negb (streq transformed orig));
    apply Yields_inv in Hy2; destruct Hy2 as [-> E]; inversion E; subst;
    exact Hn.
Qed.

End Chain.

(** X1: [ServeHTTP] calls the next handler exactly once, as its last step,
    on the writer and the request that [pass] shows: the runs of the
    handler with [next] are the runs of the handler alone followed by a
    run of [next]. *)
Theorem X1_next_is_called_once_at_the_end
    {T : CaseTables} (R : Type) (c : Casefold) (w : ResponseWriter)
    (r : Request) (next : ResponseWriter -> Request -> Prog R)
    (t : list Obs) (a : R) :
  Yields (ServeHTTP c w r next) t a <->
  exists t1 t2 w' r',
    t = t1 ++ t2 /\ Yields (ServeHTTP c w r pass) t1 (w', r') /\
    Yields (next w' r') t2 a.
Proof.
  split.
  - apply ServeHTTP_next.
  - intros (t1 & t2 & w' & r' & -> & H1 & H2).
    eapply ServeHTTP_then; eassumption.
Qed.

(** ** Headers *)

Lemma Header_Get_Set (h : Header) (key value : gostring) :
  Header_Get (Header_Set h key value) key = value.
Proof. unfold Header_Set. simpl. rewrite streq_refl. reflexivity. Qed.

Lemma streq_sym (a b : gostring) : streq a b = streq b a.
Proof.
  destruct (streq a b) eqn:E1, (streq b a) eqn:E2; try reflexivity.
  - apply streq_spec in E1. subst. rewrite streq_refl in E2. discriminate.
  - apply streq_spec in E2. subst. rewrite streq_refl in E1. discriminate.
Qed.

Lemma Header_Get_Set_other (h : Header) (key value k : gostring) :
  k <> key -> Header_Get (Header_Set h key value) k = Header_Get h k.
Proof.
  intros Hne. unfold Header_Set. cbn [Header_Get].
  assert (E : streq key k = false).
  { destruct (streq key k) eqn:E; [|reflexivity].
    apply streq_spec in E. congruence. }
  rewrite E. induction h as [|[k0 vs] h IH]; [reflexivity|].
  cbn [filter fst]. destruct (streq k0 key) eqn:E0; cbn [negb Header_Get].
  - apply streq_spec in E0. subst k0. rewrite E. exact IH.
  - rewrite IH. reflexivity.
Qed.

(** X2: when the path that reaches the next handler differs from the one
    that came in, the handler has set [X-Original-URI] to the original path
    on the request and on the response, replacing any value that was there,
    has set [RequestURI] to the new path, and has left every other header
    alone. *)
Theorem X2_rewrite_records_the_original_path
    {T : CaseTables} (c : Casefold) (w w' : ResponseWriter)
    (r r' : Request) (t : list Obs) :
  Yields (ServeHTTP c w r pass) t (w', r') ->
  Path (Request_URL r') <> Path (Request_URL r) ->
  Header_Get (Request_Header r') X_Original_URI = Path (Request_URL r) /\
  Header_Get (Writer_Header w') X_Original_URI = Path (Request_URL r) /\
  RequestURI r' = Path (Request_URL r') /\
  (forall k, k <> X_Original_URI ->
     Header_Get (Request_Header r') k = Header_Get (Request_Header r) k /\
     Header_Get (Writer_Header w') k = Header_Get (Writer_Header w) k).
Proof.
  intros Hy Hne. apply ServeHTTP_rewrites in Hy.
  destruct Hy as [[-> ->] | (transformed & _ & _ & -> & -> & _)].
  - contradiction.
  - cbn [rewrite_request rewrite_writer Request_Header Writer_Header
         RequestURI Request_URL Path].
    rewrite !Header_Get_Set. repeat split; auto;
      apply Header_Get_Set_other; assumption.
Qed.

Lemma X2_witness :
  let r := {| Request_URL := {| Path := str "/HeLLo"; RawQuery := str "a=B" |};
              RequestURI := str "/HeLLo?a=B";
              Request_Header := [(X_Original_URI, [str "/forged"]);
                                 (str "Accept", [str "text/html"])] |} in
  let r' := rewrite_request r (str "/HeLLo") (str "/hello") in
  let w' := rewrite_writer sample.writer0 (str "/HeLLo") in
  Header_Get (Request_Header r') X_Original_URI = str "/HeLLo" /\
  Header_Get (Writer_Header w') X_Original_URI = str "/HeLLo" /\
  RequestURI r' = str "/hello" /\
  (forall k, k <> X_Original_URI ->
     Header_Get (Request_Header r') k = Header_Get (Request_Header r) k /\
     Header_Get (Writer_Header w') k = Header_Get (Writer_Header sample.writer0) k).
Proof.
  intros r r' w'.
  apply (@X2_rewrite_records_the_original_path sample.tables
           (sample.provisioned (sample.config "lower" "" []))
           sample.writer0 w' r r' []).
  - apply (@run_Yields _ sample.site). reflexivity.
  - discriminate.
Defined.

(** ** No file system outside mode fs *)

Section NoEvents.
Context {T : CaseTables}.

Lemma ServeHTTP_caser_only (c : Casefold) w r t w' r' :
  mode_of c <> str "fs" ->
  Yields (ServeHTTP c w r pass) t (w', r') -> t = [].
Proof.
  intros Hm. unfold ServeHTTP. set (orig := Path (Request_URL r)).
  assert (Hpass : forall w0 r0, Yields (pass w0 r0) t (w', r') -> t = []).
  { intros w0 r0 Hy. apply Yields_inv in Hy. destruct Hy as [-> _]. reflexivity. }
  destruct (is_empty orig || streq orig [slash]); [apply Hpass|].
  destruct (skip c orig); [apply Hpass|].
  intros Hy. apply Yields_bind_inv in Hy.
  destruct Hy as (t1 & t2 & transformed & -> & Hy1 & Hy2).
  assert (E2 : t2 = []).
  { destruct (negb (streq transformed orig));
      apply Yields_inv in Hy2; destruct Hy2 as [-> _]; reflexivity. }
  assert (E1 : t1 = []).
  { destruct (is_empty (mode_of c) || streq (mode_of c) (str "lower")
              || streq (mode_of c) (str "fold")).
    - destruct (fold c); apply Yields_inv in Hy1;
        [destruct Hy1 as [-> _]; reflexivity | contradiction].
    - destruct (streq (mode_of c) (str "fs")) eqn:Hfs.
      + apply streq_spec in Hfs. contradiction.
      + apply Yields_inv in Hy1; destruct Hy1 as [-> _]; reflexivity. }
  subst. reflexivity.
Qed.

End NoEvents.

(** X3: unless the mode is [fs] the handler performs no event of its own,
    no directory read, no [Stat], no log line: every event of a run is an
    event of the next handler. *)
Theorem X3_only_mode_fs_touches_the_file_system
    {T : CaseTables} (R : Type) (c : Casefold) (w : ResponseWriter)
    (r : Request) (next : ResponseWriter -> Request -> Prog R)
    (t : list Obs) (a : R) :
  mode_of c <> str "fs" ->
  Yields (ServeHTTP c w r next) t a ->
  exists w' r', Yields (next w' r') t a.
Proof.
  intros Hm Hy. apply ServeHTTP_next in Hy.
  destruct Hy as (t1 & t2 & w' & r' & -> & H1 & H2).
  apply ServeHTTP_caser_only in H1; [|assumption]. subst. eauto.
Qed.

Lemma X3_witness :
  exists w' r', Yields (observe w' r') [] (REWRITTEN (str "/hello")).
Proof.
  apply (@X3_only_mode_fs_touches_the_file_system sample.tables _
           (sample.provisioned (sample.config "lower" "/srv" []))
           sample.writer0 (request_for (str "/HeLLo") []) observe).
  - discriminate.
  - apply (@run_Yields _ sample.site). reflexivity.
Defined.

(** ** Which paths are excluded *)

Lemma skip_patterns_true (patterns : list gostring) (p : gostring) :
  skip_patterns patterns p = true <->
  exists gl, In gl patterns /\ gl <> [] /\ path.Match gl p = (true, None).
Proof.
  induction patterns as [|gl patterns IH]; cbn [skip_patterns].
  - split; [discriminate | intros (gl & [] & _)].
  - destruct gl as [|c gl]; cbn [is_empty].
    + rewrite IH. split; intros (gl & Hin & Hne & Hm).
      * exists gl. split; [right; assumption | auto].
      * destruct Hin as [<-|Hin]; [contradiction|]. eauto.
    + destruct (path.Match (c :: gl) p) as [ok err] eqn:Em. cbn [fst].
      destruct ok.
      * split; [|reflexivity]. intros _. exists (c :: gl).
        split; [left; reflexivity|]. split; [discriminate|].
        rewrite Em. f_equal.
        destruct err as [e|]; [|reflexivity].
        pose proof (@Match_error_is_no_match (c :: gl) p) as H.
        rewrite Em in H. cbn [fst snd] in H.
        assert (true = false) by (apply H; discriminate). discriminate.
      * rewrite IH. split; intros (g & Hin & Hne & Hm).
        -- exists g. split; [right; assumption | auto].
        -- destruct Hin as [<-|Hin]; [rewrite Em in Hm; discriminate|]. eauto.
Qed.

(** X4: [skip] answers true exactly when some pattern of the list that is
    not empty matches the path, without error; the order of the patterns
    and the patterns that are malformed make no difference. *)
Theorem X4_skip_is_some_pattern_matching
    (c : Casefold) (p : gostring) :
  skip c p = true <->
  exists gl, In gl (Exclude c) /\ gl <> [] /\ path.Match gl p = (true, None).
Proof. apply skip_patterns_true. Qed.

(** ** Patterns of plain text *)

Lemma scanChunk_len_plain_all (lit : gostring) :
  plain_text lit = true ->
  path.scanChunk_len lit false false = length lit.
Proof.
  induction lit as [|c lit IH]; simpl; intros Hp.
  - reflexivity.
  - apply andb_true_iff in Hp; destruct Hp as [Hc Hp].
    apply plain_byte_inv in Hc; destruct Hc as (Hs & _ & Hb & Hbs).
    rewrite Hbs, Hb, Hs. destruct (Ascii.eqb c "]"); rewrite IH; auto.
Qed.

Lemma HasPrefix_all (s lit : gostring) :
  strings.HasPrefix s lit && is_empty (skipn (length lit) s) = streq s lit.
Proof.
  revert s; induction lit as [|c lit IH]; intros [|c0 s]; try reflexivity.
  cbn [strings.HasPrefix length skipn streq]. rewrite <- IH.
  destruct (Ascii.eqb c0 c); reflexivity.
Qed.

Lemma Match_plain (lit name : gostring) :
  plain_text lit = true -> path.Match lit name = (streq name lit, None).
Proof.
  intros Hp. unfold path.Match. destruct lit as [|c lit].
  { destruct name; reflexivity. }
  cbn [length path.Match_loop]. unfold path.scanChunk.
  assert (Hc : Ascii.eqb c path.star = false).
  { simpl in Hp. apply andb_true_iff in Hp; destruct Hp as [Hc _].
    apply plain_byte_inv in Hc; tauto. }
  cbn [path.skip_stars]. rewrite Hc.
  rewrite scanChunk_len_plain_all by assumption.
  rewrite firstn_all, skipn_all. cbn [andb].
  unfold path.matchChunk. rewrite matchChunk_loop_plain by auto.
  cbn [orb]. rewrite <- HasPrefix_all.
  destruct (strings.HasPrefix name (c :: lit)); cbn [negb andb].
  - rewrite orb_false_r.
    destruct (skipn (length (c :: lit)) name) eqn:Es; cbn [is_empty].
    + destruct (length lit); reflexivity.
    + reflexivity.
  - reflexivity.
Qed.

(** X5: when no pattern of the exclusion list has a metacharacter, a path
    is excluded exactly when it is not empty and stands in the list, byte
    for byte: exclusion is sensitive to case. *)
Theorem X5_plain_patterns_exclude_themselves
    (c : Casefold) (p : gostring) :
  Forall (fun gl => plain_text gl = true) (Exclude c) ->
  (skip c p = true <-> p <> [] /\ In p (Exclude c)).
Proof.
  intros Hall. unfold skip. rewrite skip_patterns_true.
  rewrite Forall_forall in Hall. split.
  - intros (gl & Hin & Hne & Hm). rewrite Match_plain in Hm by auto.
    inversion Hm as [E]. apply streq_spec in E. subst. auto.
  - intros [Hne Hin]. exists p. repeat split; auto.
    rewrite Match_plain by auto. rewrite streq_refl. reflexivity.
Qed.

Lemma X5_witness :
  skip (sample.config "lower" "" ["/Health"; "/API/v1"]%string) (str "/API/v1")
  = true <->
  str "/API/v1" <> [] /\
  In (str "/API/v1")
     (Exclude (sample.config "lower" "" ["/Health"; "/API/v1"]%string)).
Proof.
  apply (@X5_plain_patterns_exclude_themselves
           (sample.config "lower" "" ["/Health"; "/API/v1"]%string)
           (str "/API/v1")).
  repeat constructor.
Defined.

(** ** Patterns without character classes *)

Module match_facts.
Local Open Scope Z_scope.

Lemma slashes_app (a b : gostring) : slashes (a ++ b) = (slashes a + slashes b)%nat.
Proof. unfold slashes. rewrite filter_app. apply length_app. Qed.

Lemma slashes_cons (c : ascii) (s : gostring) :
  slashes (c :: s) = ((if Ascii.eqb c slash then 1 else 0) + slashes s)%nat.
Proof.
  unfold slashes. cbn [filter]. rewrite (Ascii.eqb_sym slash c).
  destruct (Ascii.eqb c slash); reflexivity.
Qed.

Lemma high_not_slash (b : ascii) : 0x80 <= byteZ b -> Ascii.eqb b slash = false.
Proof.
  intros Hb. destruct (Ascii.eqb_spec b slash) as [->|]; [|reflexivity].
  change (byteZ slash) with 47 in Hb. lia.
Qed.

Lemma cont_not_slash (b : ascii) : cont (byteZ b) = true -> Ascii.eqb b slash = false.
Proof. intros H. apply cont_range in H. apply high_not_slash. lia. Qed.

(** The bytes of a rune that does not begin with a slash have no slash. *)
Lemma rune_no_slash (c0 : ascii) (s : gostring) :
  Ascii.eqb c0 slash = false ->
  slashes (firstn (snd (utf8.DecodeRuneInString (c0 :: s))) (c0 :: s)) = 0%nat.
Proof.
  intros Hc. rewrite DecodeRune_decode.
  pose proof (decode_decoded c0 s) as Hd.
  destruct (decode (c0 :: s)) as [r w]. cbn [fst snd] in *.
  inversion Hd; subst; cbn [firstn]; rewrite ?slashes_cons, ?Hc;
    repeat match goal with
           | H : second_ok _ (byteZ ?b) = true |- _ =>
             apply second_ok_cont, cont_not_slash in H; rewrite H
           | H : cont (byteZ ?b) = true |- _ =>
             apply cont_not_slash in H; rewrite H
           end; reflexivity.
Qed.

Lemma chunk_byte_inv (c : ascii) :
  chunk_byte c = true ->
  Ascii.eqb c "[" = false /\ Ascii.eqb c path.backslash = false /\
  Ascii.eqb c path.star = false.
Proof.
  unfold chunk_byte, simple_byte.
  rewrite andb_true_iff, !negb_true_iff, orb_false_iff. tauto.
Qed.

(** A chunk without classes and escapes: it cannot be malformed, and what
    it matches has as many slashes as it has itself. *)
Lemma matchChunk_loop_simple (chunk : gostring) :
  forall rounds s failed,
    forallb chunk_byte chunk = true -> (length chunk <= rounds)%nat ->
    exists rest ok,
      path.matchChunk_loop rounds chunk s failed = Some (rest, ok, None) /\
      (ok = true ->
       failed = false /\
       exists u, s = u ++ rest /\ slashes u = slashes chunk).
Proof.
  induction chunk as [|c chunk IH]; intros rounds s failed Hc Hlen.
  { destruct rounds; cbn [path.matchChunk_loop]; destruct failed;
      eexists _, _; (split; [reflexivity|]); try discriminate;
      intros _; (split; [reflexivity|]); exists []; split; reflexivity. }
  destruct rounds as [|k]; [cbn [length] in Hlen; lia|].
  cbn [forallb] in Hc. apply andb_true_iff in Hc. destruct Hc as [Hb Hc].
  destruct (chunk_byte_inv c Hb) as (Hbr & Hbs & Hst).
  assert (Hk : (length chunk <= k)%nat) by (cbn [length] in Hlen; lia).
  cbn [path.matchChunk_loop]. cbv zeta. rewrite Hbr.
  destruct (Ascii.eqb c "?") eqn:Hq.
  - (* ? *)
    apply Ascii.eqb_eq in Hq. subst c.
    unfold path.any_rune.
    destruct (failed || match s with [] => true | _ => false end) eqn:Ef.
    + destruct (IH k s true Hc Hk) as (rest & ok & E & Hok).
      exists rest, ok. split; [exact E|].
      intros Eok. destruct (Hok Eok) as [Hcontra _]. discriminate.
    + apply orb_false_iff in Ef. destruct Ef as [-> Es].
      destruct s as [|c0 s]; [discriminate|].
      destruct (IH k (skipn (snd (utf8.DecodeRuneInString (c0 :: s))) (c0 :: s))
                   (Ascii.eqb c0 slash) Hc Hk) as (rest & ok & E & Hok).
      exists rest, ok. split; [exact E|].
      intros Eok. destruct (Hok Eok) as (Hc0 & u & Hu & Hsl).
      split; [reflexivity|].
      exists (firstn (snd (utf8.DecodeRuneInString (c0 :: s))) (c0 :: s) ++ u).
      split.
      * rewrite <- app_assoc, <- Hu. symmetry. apply firstn_skipn.
      * rewrite slashes_app, (@rune_no_slash c0 s Hc0), Hsl, slashes_cons.
        reflexivity.
  - (* a literal byte *)
    rewrite Hbs. unfold path.literal_byte.
    destruct (failed || match s with [] => true | _ => false end) eqn:Ef.
    + destruct (IH k s true Hc Hk) as (rest & ok & E & Hok).
      exists rest, ok. split; [exact E|].
      intros Eok. destruct (Hok Eok) as [Hcontra _]. discriminate.
    + apply orb_false_iff in Ef. destruct Ef as [-> Es].
      destruct s as [|c0 s]; [discriminate|].
      destruct (IH k s (negb (Ascii.eqb c c0)) Hc Hk) as (rest & ok & E & Hok).
      exists rest, ok. split; [exact E|].
      intros Eok. destruct (Hok Eok) as (Hc0 & u & Hu & Hsl).
      split; [reflexivity|].
      apply negb_false_iff, Ascii.eqb_eq in Hc0. subst c0.
      exists (c :: u). split; [rewrite Hu; reflexivity|].
      rewrite !slashes_cons, Hsl. reflexivity.
Qed.

Lemma matchChunk_simple (chunk s : gostring) :
  forallb chunk_byte chunk = true ->
  exists rest ok,
    path.matchChunk chunk s = Some (rest, ok, None) /\
    (ok = true -> exists u, s = u ++ rest /\ slashes u = slashes chunk).
Proof.
  intros Hc. unfold path.matchChunk.
  destruct (@matchChunk_loop_simple chunk (length chunk) s false Hc (le_n _))
    as (rest & ok & E & Hok).
  exists rest, ok. split; [exact E|]. intros Eok. apply Hok, Eok.
Qed.

Lemma simple_byte_inv (c : ascii) :
  simple_byte c = true ->
  Ascii.eqb c "[" = false /\ Ascii.eqb c path.backslash = false.
Proof.
  unfold simple_byte. rewrite negb_true_iff, orb_false_iff. tauto.
Qed.

Lemma skip_stars_simple (pattern : gostring) :
  forall seen st p1,
    path.skip_stars pattern seen = (st, p1) ->
    simple_pattern pattern = true ->
    simple_pattern p1 = true /\ slashes pattern = slashes p1.
Proof.
  induction pattern as [|c pattern IH]; cbn [path.skip_stars];
    intros seen st p1 E Hs.
  - inversion E; subst. auto.
  - cbn [simple_pattern forallb] in Hs. apply andb_true_iff in Hs.
    destruct Hs as [Hc Hs].
    destruct (Ascii.eqb c path.star) eqn:Ec.
    + apply IH in E; [|exact Hs]. destruct E as [E1 E2].
      split; [exact E1|]. rewrite slashes_cons.
      apply Ascii.eqb_eq in Ec. subst c.
      change (Ascii.eqb path.star slash) with false. exact E2.
    + inversion E; subst. split; [|reflexivity].
      cbn [simple_pattern forallb]. rewrite Hc. exact Hs.
Qed.

Lemma scanChunk_len_simple (pattern : gostring) :
  simple_pattern pattern = true ->
  forallb chunk_byte
          (firstn (path.scanChunk_len pattern false false) pattern) = true.
Proof.
  induction pattern as [|c pattern IH]; intros Hs; [reflexivity|].
  cbn [simple_pattern forallb] in Hs. apply andb_true_iff in Hs.
  destruct Hs as [Hc Hs]. destruct (simple_byte_inv c Hc) as [Hbr Hbs].
  cbn [path.scanChunk_len]. rewrite Hbs, Hbr.
  assert (Hkeep : Ascii.eqb c path.star = false ->
            forallb chunk_byte
              (firstn (S (path.scanChunk_len pattern false false)) (c :: pattern))
            = true).
  { intros Hst. cbn [firstn forallb]. unfold chunk_byte at 1.
    rewrite Hc, Hst. cbn [negb andb]. apply IH. exact Hs. }
  destruct (Ascii.eqb c "]") eqn:Ecl.
  - apply Hkeep. apply Ascii.eqb_eq in Ecl. subst c. reflexivity.
  - destruct (Ascii.eqb c path.star) eqn:Est; [reflexivity|].
    apply Hkeep. reflexivity.
Qed.

Lemma simple_skipn (n : nat) (s : gostring) :
  simple_pattern s = true -> simple_pattern (skipn n s) = true.
Proof.
  unfold simple_pattern. rewrite !forallb_forall. intros H x Hx.
  apply H. rewrite <- (firstn_skipn n s). apply in_or_app. right. exact Hx.
Qed.

(** What [scanChunk] returns on such a pattern. *)
Lemma scanChunk_simple (pattern : gostring) st chunk rest :
  path.scanChunk pattern = (st, chunk, rest) ->
  simple_pattern pattern = true ->
  forallb chunk_byte chunk = true /\ simple_pattern rest = true /\
  slashes pattern = (slashes chunk + slashes rest)%nat /\
  (chunk = [] -> rest = []).
Proof.
  unfold path.scanChunk.
  destruct (path.skip_stars pattern false) as [st1 p1] eqn:Es.
  intros E Hs. inversion E; subst st chunk rest.
  pose proof (@skip_stars_spec pattern false st1 p1 Es) as [_ Hhd].
  destruct (@skip_stars_simple pattern false st1 p1 Es Hs) as [Hs1 Hsl].
  split; [apply scanChunk_len_simple; exact Hs1|].
  split; [apply simple_skipn; exact Hs1|].
  split.
  - rewrite Hsl, <- slashes_app, firstn_skipn. reflexivity.
  - destruct p1 as [|d p1]; [intros _; apply skipn_nil|].
    pose proof (@scanChunk_len_pos d p1 Hhd) as Hpos.
    destruct (path.scanChunk_len (d :: p1) false false); [lia|].
    cbn [firstn]. discriminate.
Qed.

Lemma star_search_simple (chunk : gostring) (last : bool) (name : gostring) :
  forallb chunk_byte chunk = true ->
  match path.star_search chunk last name with
  | path.StarFound t => exists u, name = u ++ t /\ slashes u = slashes chunk
  | path.StarNone => True
  | _ => False
  end.
Proof.
  intros Hc. induction name as [|c name IH]; cbn [path.star_search]; [exact I|].
  destruct (Ascii.eqb c slash) eqn:Ec; [exact I|].
  destruct (@matchChunk_simple chunk name Hc) as (t & ok & -> & Hok).
  assert (Hmore :
            match path.star_search chunk last name with
            | path.StarFound t => exists u, (c :: name) = u ++ t /\
                                            slashes u = slashes chunk
            | path.StarNone => True
            | _ => False
            end).
  { destruct (path.star_search chunk last name); auto.
    destruct IH as (u & -> & Hu). exists (c :: u). split; [reflexivity|].
    rewrite slashes_cons, Ec. exact Hu. }
  destruct ok; [|exact Hmore].
  destruct (last && (0 <? length t)%nat); [exact Hmore|].
  destruct (Hok eq_refl) as (u & -> & Hu).
  exists (c :: u). split; [reflexivity|]. rewrite slashes_cons, Ec. exact Hu.
Qed.

Lemma check_rest_simple (rounds : nat) :
  forall pattern,
    simple_pattern pattern = true -> (length pattern <= rounds)%nat ->
    path.check_rest rounds pattern = Some (false, None).
Proof.
  induction rounds as [|k IH]; intros pattern Hs Hlen.
  { destruct pattern; [reflexivity | cbn [length] in Hlen; lia]. }
  destruct pattern as [|c pattern]; [reflexivity|].
  cbn [path.check_rest].
  destruct (path.scanChunk (c :: pattern)) as [[st chunk] rest] eqn:Es.
  destruct (@scanChunk_simple (c :: pattern) st chunk rest Es Hs)
    as (Hc & Hr & _ & _).
  apply scanChunk_shorter in Es.
  destruct (@matchChunk_simple chunk [] Hc) as (t & ok & -> & _).
  apply IH; [exact Hr | cbn [length] in Hlen; lia].
Qed.

Lemma no_slash_slashes (name : gostring) :
  strings.ContainsByte name slash = false -> slashes name = 0%nat.
Proof.
  unfold strings.ContainsByte, slashes.
  induction name as [|c name IH]; [reflexivity|].
  cbn [existsb filter]. intros E. apply orb_false_iff in E.
  destruct E as [E1 E2]. rewrite E1. apply IH. exact E2.
Qed.

(** The loop of [path.Match] on a pattern without classes and escapes. *)
Lemma Match_loop_simple (rounds : nat) :
  forall pattern name,
    simple_pattern pattern = true -> (length pattern <= rounds)%nat ->
    exists ok,
      path.Match_loop rounds pattern name = Some (ok, None) /\
      (ok = true -> slashes name = slashes pattern).
Proof.
  induction rounds as [|k IH]; intros pattern name Hs Hlen.
  { destruct pattern; [|cbn [length] in Hlen; lia].
    cbn [path.Match_loop]. eexists. split; [reflexivity|].
    destruct name; [reflexivity | discriminate]. }
  destruct pattern as [|c pattern].
  { cbn [path.Match_loop]. eexists. split; [reflexivity|].
    destruct name; [reflexivity | discriminate]. }
  cbn [path.Match_loop].
  destruct (path.scanChunk (c :: pattern)) as [[st chunk] rest] eqn:Es.
  destruct (@scanChunk_simple (c :: pattern) st chunk rest Es Hs)
    as (Hc & Hr & Hsl & Hnil).
  apply scanChunk_shorter in Es. cbn [length] in Hlen.
  assert (Hk : (length rest <= k)%nat) by lia.
  rewrite Hsl.
  destruct (st && match chunk with [] => true | _ => false end) eqn:Estar.
  { eexists. split; [reflexivity|]. intros E.
    apply negb_true_iff, no_slash_slashes in E. rewrite E.
    apply andb_true_iff in Estar. destruct Estar as [_ Ech].
    destruct chunk; [|discriminate]. rewrite (Hnil eq_refl). reflexivity. }
  destruct (@matchChunk_simple chunk name Hc) as (t & ok & -> & Hok).
  destruct (ok && (match t with [] => true | _ => false end
                   || negb match rest with [] => true | _ => false end)) eqn:Eok.
  { destruct (IH rest t Hr Hk) as (ok' & -> & Hok').
    exists ok'. split; [reflexivity|]. intros E.
    apply andb_true_iff in Eok. destruct Eok as [Eok _].
    destruct (Hok Eok) as (u & -> & Hu).
    rewrite slashes_app, Hu, (Hok' E). reflexivity. }
  pose proof (@star_search_simple chunk
                match rest with [] => true | _ => false end name Hc) as Hss.
  destruct st.
  - destruct (path.star_search chunk _ name) as [t'|e| |];
      try contradiction.
    + destruct (IH rest t' Hr Hk) as (ok' & -> & Hok').
      exists ok'. split; [reflexivity|]. intros E.
      destruct Hss as (u & -> & Hu).
      rewrite slashes_app, Hu, (Hok' E). reflexivity.
    + rewrite (@check_rest_simple (length rest) rest Hr (le_n _)).
      exists false. split; [reflexivity | discriminate].
  - rewrite (@check_rest_simple (length rest) rest Hr (le_n _)).
    exists false. split; [reflexivity | discriminate].
Qed.

End match_facts.

(** X6: a pattern without character class and backslash, that is of
    literal bytes, [?] and [*], is never malformed, and a name that it
    matches has as many slashes as the pattern has. *)
Theorem X6_simple_patterns_match_at_their_depth
    (pattern name : gostring) :
  simple_pattern pattern = true ->
  snd (path.Match pattern name) = None /\
  (fst (path.Match pattern name) = true -> slashes name = slashes pattern).
Proof.
  intros Hs. unfold path.Match.
  destruct (@match_facts.Match_loop_simple (length pattern) pattern name Hs
              (le_n _)) as (ok & -> & Hok).
  split; [reflexivity | exact Hok].
Qed.

Lemma X6_witness :
  snd (path.Match (str "/downloads/*.ZIP") (str "/downloads/old/a.ZIP")) = None /\
  (fst (path.Match (str "/downloads/*.ZIP") (str "/downloads/old/a.ZIP")) = true ->
   slashes (str "/downloads/old/a.ZIP") = slashes (str "/downloads/*.ZIP")).
Proof.
  apply (@X6_simple_patterns_match_at_their_depth
           (str "/downloads/*.ZIP") (str "/downloads/old/a.ZIP")).
  reflexivity.
Defined.

(** ** The casers on ASCII paths, and what they leave of upper case *)

Module caser_facts.
Import lower_facts fold_facts.
Local Open Scope Z_scope.

Section Casers.
Context {T : CaseTables}.

Lemma scanASCII_ascii (s : gostring) :
  ascii_only s ->
  forall h, strings.scanASCII s h =
            (true, h || existsb (fun b => unicode.isUpperASCII (byteZ b)) s).
Proof.
  induction 1 as [|b s Hb Hs IH]; intros h.
  - cbn [strings.scanASCII existsb]. rewrite orb_false_r. reflexivity.
  - cbn [strings.scanASCII existsb]. cbv zeta. unfold utf8.RuneSelf.
    destruct (Z.leb_spec 128 (byteZ b)); [lia|].
    rewrite IH, orb_assoc. reflexivity.
Qed.

Lemma existsb_upper_false (s : gostring) :
  existsb (fun b => unicode.isUpperASCII (byteZ b)) s = false ->
  Forall no_upper s.
Proof.
  induction s as [|b s IH]; cbn [existsb]; intros E; constructor.
  - apply orb_false_iff in E. apply E.
  - apply IH. apply orb_false_iff in E. apply E.
Qed.

Lemma ToLower_ascii (s : gostring) :
  ascii_only s -> strings.ToLower s = strings.lowerASCII s.
Proof.
  intros Hs. unfold strings.ToLower. rewrite scanASCII_ascii by assumption.
  cbn [orb].
  destruct (existsb (fun b => unicode.isUpperASCII (byteZ b)) s) eqn:E;
    cbn [negb]; [reflexivity|].
  symmetry. apply lowerASCII_no_upper, existsb_upper_false, E.
Qed.

Lemma Fold_ascii (s : gostring) :
  ascii_only s -> cases.Fold_String s = strings.lowerASCII s.
Proof.
  induction 1 as [|b s Hb Hs IH]; [reflexivity|].
  rewrite Fold_cons.
  assert (Ed : decode (b :: s) = (byteZ b, 1%nat)).
  { unfold decode. destruct (Z.ltb_spec (byteZ b) 128); [reflexivity | lia]. }
  rewrite Ed. cbn [fst snd firstn skipn]. rewrite IH.
  cbn [strings.lowerASCII map]. cbv zeta.
  unfold cases.foldChunk, cases.foldRune, unicode.MaxASCII, utf8.RuneError.
  destruct (Z.eqb_spec (byteZ b) 65533); [lia|]. cbn [andb].
  destruct (Z.leb_spec (byteZ b) 127); [|lia].
  destruct (unicode.isUpperASCII (byteZ b)) eqn:Eu; [|reflexivity].
  cbn [map concat]. rewrite app_nil_r.
  unfold unicode.isUpperASCII in Eu.
  apply andb_true_iff in Eu. destruct Eu as [E1 E2].
  apply Z.leb_le in E1, E2.
  unfold utf8.EncodeRune. cbv zeta. unfold utf8.rune1Max.
  rewrite Z.mod_small by lia.
  destruct (Z.leb_spec (byteZ b + 32) (2 ^ 7 - 1)); [reflexivity | lia].
Qed.

Lemma caser_String_ascii (f : caser) (s : gostring) :
  ascii_only s -> caser_String f s = strings.lowerASCII s.
Proof.
  destruct f; cbn [caser_String]; [apply ToLower_ascii | apply Fold_ascii].
Qed.

Lemma lower_byte_slash (b : ascii) :
  Ascii.eqb (if unicode.isUpperASCII (byteZ b) then Zbyte (byteZ b + 32) else b)
            slash
  = Ascii.eqb b slash.
Proof.
  destruct (unicode.isUpperASCII (byteZ b)) eqn:Eu; [|reflexivity].
  unfold unicode.isUpperASCII in Eu.
  apply andb_true_iff in Eu. destruct Eu as [E1 E2].
  apply Z.leb_le in E1, E2.
  destruct (Ascii.eqb_spec b slash) as [->|_];
    [change (byteZ slash) with 47 in E1; lia|].
  destruct (Ascii.eqb_spec (Zbyte (byteZ b + 32)) slash) as [E|_];
    [|reflexivity].
  apply (f_equal byteZ) in E. rewrite byteZ_Zbyte in E by lia.
  change (byteZ slash) with 47 in E. lia.
Qed.

Lemma Split_lowerASCII (s : gostring) :
  strings.Split (strings.lowerASCII s) slash
  = map strings.lowerASCII (strings.Split s slash).
Proof.
  induction s as [|b s IH]; [reflexivity|].
  cbn [strings.lowerASCII map strings.Split]. cbv zeta.
  rewrite lower_byte_slash.
  destruct (Ascii.eqb b slash).
  - fold (strings.lowerASCII s). rewrite IH. reflexivity.
  - fold (strings.lowerASCII s). rewrite IH.
    destruct (strings.Split s slash); reflexivity.
Qed.

Lemma Split_ascii (s : gostring) (sep : ascii) :
  ascii_only s -> Forall ascii_only (strings.Split s sep).
Proof.
  induction 1 as [|b s Hb Hs IH].
  - repeat constructor.
  - cbn [strings.Split]. destruct (Ascii.eqb b sep).
    + constructor; [constructor | assumption].
    + destruct (strings.Split s sep) as [|seg segs].
      * repeat constructor. assumption.
      * inversion IH; subst. constructor; [constructor|]; assumption.
Qed.

(** What the casers return has no upper-case ASCII letter. *)

Hypothesis laws : CaseLaws T.

Lemma Map_first_None_no_upper (s : gostring) :
  forall prefix,
    strings.Map_first unicode.ToLower prefix (utf8.runes s) = None ->
    Forall no_upper s.
Proof.
  induction s as [|b0 rest IH] using rune_ind; intros prefix; [constructor|].
  rewrite runes_cons.
  pose proof (decode_decoded b0 rest) as Hd.
  pose proof (decoded_width Hd) as Hw.
  destruct (decode (b0 :: rest)) as [c w] eqn:Edec. cbn [fst snd] in *.
  cbn [strings.Map_first]. cbv zeta.
  assert (Hlen : length (firstn w (b0 :: rest)) = w).
  { apply firstn_length_le. lia. }
  rewrite Hlen.
  intros E.
  assert (Hok : unicode.ToLower c = c /\ (c = utf8.RuneError -> w <> 1%nat)
                /\ strings.Map_first unicode.ToLower
                     (prefix ++ firstn w (b0 :: rest))
                     (utf8.runes (skipn w (b0 :: rest))) = None).
  { destruct (Z.eqb_spec (unicode.ToLower c) c) as [Er|Er];
      destruct (Z.eqb_spec c utf8.RuneError) as [Ec|Ec];
      cbn [andb negb] in E; try discriminate.
    - destruct (Nat.eqb_spec w 1) as [Ew|Ew]; cbn [negb andb] in E;
        [discriminate|]. auto.
    - repeat split; auto.
    - rewrite andb_false_r in E. discriminate. }
  destruct Hok as (Er & Hne & Erest).
  rewrite <- (firstn_skipn w (b0 :: rest)). apply Forall_app. split.
  - apply Stable_no_upper.
    apply Stable_chunk with (d := c); [|exact Er].
    apply encodes_decoded; assumption.
  - eapply IH. exact Erest.
Qed.

Lemma ToLower_no_upper (s : gostring) : Forall no_upper (strings.ToLower s).
Proof.
  unfold strings.ToLower.
  destruct (strings.scanASCII s false) as [[|] hasUpper] eqn:Escan.
  - pose proof (scanASCII_true _ _ Escan) as Ha.
    destruct hasUpper; cbn [negb].
    + clear Escan. induction Ha as [|b s Hb Hs IH]; [constructor|].
      cbn [strings.lowerASCII map]. constructor; [|exact IH].
      apply (lowerASCII_byte b Hb).
    + rewrite (scanASCII_ascii Ha) in Escan. inversion Escan as [E].
      apply existsb_upper_false. exact E.
  - unfold strings.Map.
    destruct (strings.Map_first unicode.ToLower [] (utf8.runes s))
      as [[b rest]|] eqn:Efirst.
    + apply Stable_no_upper.
      apply (Map_first_out laws) in Efirst; [|apply runes_wf | constructor].
      destruct Efirst as [Hb Hrest]. apply (Map_rest_out laws); assumption.
    + eapply Map_first_None_no_upper; eassumption.
Qed.

Lemma decode_invalid_byte (b0 : ascii) (rest : gostring) :
  decode (b0 :: rest) = (utf8.RuneError, 1%nat) -> 0x80 <= byteZ b0.
Proof.
  unfold decode. destruct (Z.ltb_spec (byteZ b0) 128); [|lia].
  intros E. inversion E as [E1]. unfold utf8.RuneError in E1. lia.
Qed.

Lemma high_no_upper (chunk : gostring) :
  Forall (fun b => 0x80 <= byteZ b) chunk -> Forall no_upper chunk.
Proof.
  intros H. eapply Forall_impl; [|exact H].
  intros b Hb. cbv beta in Hb. unfold no_upper, unicode.isUpperASCII.
  destruct (Z.leb_spec (byteZ b) 90); [lia|]. apply andb_false_r.
Qed.

Lemma folded_no_upper (d : Z) : folded d -> Forall no_upper (utf8.EncodeRune d).
Proof.
  intros [Hv Hf]. rewrite EncodeRune_encode by assumption.
  destruct (encodes_bytes (encodes_encode Hv)) as [(b & -> & Hb & ->) | [Hall _]].
  - constructor; [|constructor]. unfold no_upper.
    unfold cases.foldRune, unicode.MaxASCII in Hf.
    destruct (Z.leb_spec (byteZ b) 127); [|lia].
    destruct (unicode.isUpperASCII (byteZ b)); [|reflexivity].
    destruct Hf as [Hf|Hf]; [discriminate|]. inversion Hf. lia.
  - apply high_no_upper. assumption.
Qed.

Lemma Fold_no_upper (s : gostring) : Forall no_upper (cases.Fold_String s).
Proof.
  induction s as [|b0 rest IH] using rune_ind; [constructor|].
  rewrite Fold_cons. apply Forall_app. split; [|exact IH].
  pose proof (decode_decoded b0 rest) as Hd.
  pose proof (decoded_width Hd) as Hw.
  pose proof (decoded_valid Hd) as Hv.
  destruct (decode (b0 :: rest)) as [c w] eqn:Edec. cbn [fst snd] in *.
  assert (Hcase : (c = utf8.RuneError /\ w = 1%nat) \/
                  (c = utf8.RuneError -> w <> 1%nat)).
  { destruct (Z.eq_dec c utf8.RuneError); destruct (Nat.eq_dec w 1); auto. }
  destruct Hcase as [[-> ->] | Hne].
  - cbn [firstn]. change (cases.foldChunk (utf8.RuneError, [b0])) with [b0].
    apply high_no_upper. constructor; [|constructor].
    eapply decode_invalid_byte; eassumption.
  - pose proof (encodes_decoded Hd Hne) as He.
    rewrite (foldChunk_encodes He).
    destruct (cases.foldRune c) as [rs|] eqn:Ef.
    + destruct (foldRune_folded laws Hv Ef) as [_ Hall].
      clear - Hall laws. induction Hall as [|d rs Hd Hr IHr]; [constructor|].
      cbn [map concat]. apply Forall_app. split; [|exact IHr].
      apply folded_no_upper; assumption.
    + destruct (encodes_bytes He) as [(b & Eb & Hb & ->) | [Hall _]].
      * rewrite Eb. constructor; [|constructor]. unfold no_upper.
        unfold cases.foldRune, unicode.MaxASCII in Ef.
        destruct (Z.leb_spec (byteZ b) 127); [|lia].
        destruct (unicode.isUpperASCII (byteZ b)); [discriminate|reflexivity].
      * apply high_no_upper. assumption.
Qed.

End Casers.
End caser_facts.

(** X7: on a path of ASCII bytes both casers do the same: they move the
    letters [A] to [Z] to lower case and leave the other bytes, so the
    length is kept and the path is cased segment by segment. *)
Theorem X7_casers_on_ascii_paths
    {T : CaseTables} (f : caser) (p : gostring) :
  ascii_only p ->
  caser_String f p = strings.lowerASCII p /\
  length (caser_String f p) = length p /\
  strings.Split (caser_String f p) slash
  = map (caser_String f) (strings.Split p slash).
Proof.
  intros Hp. rewrite caser_facts.caser_String_ascii by assumption.
  split; [reflexivity|]. split; [apply length_map|].
  rewrite caser_facts.Split_lowerASCII.
  pose proof (caser_facts.Split_ascii slash Hp) as Hall.
  induction Hall as [|seg segs Hseg Hsegs IH]; [reflexivity|].
  cbn [map]. rewrite IH, caser_facts.caser_String_ascii by assumption.
  reflexivity.
Qed.

Lemma X7_witness :
  caser_String (H := sample.tables) cases_Fold (str "/API/Users/ME")
  = strings.lowerASCII (str "/API/Users/ME") /\
  length (caser_String (H := sample.tables) cases_Fold (str "/API/Users/ME"))
  = length (str "/API/Users/ME") /\
  strings.Split (caser_String (H := sample.tables) cases_Fold
                              (str "/API/Users/ME")) slash
  = map (caser_String (H := sample.tables) cases_Fold)
        (strings.Split (str "/API/Users/ME") slash).
Proof.
  apply (@X7_casers_on_ascii_paths sample.tables cases_Fold
           (str "/API/Users/ME")).
  repeat constructor.
Defined.

(** X8: whatever bytes come in, what a caser returns has no upper-case
    ASCII letter, when the case tables above ASCII are as [CaseLaws] asks. *)
Theorem X8_casers_leave_no_upper_case_ascii
    {T : CaseTables} (f : caser) (p : gostring) :
  CaseLaws T -> Forall no_upper (caser_String f p).
Proof.
  intros laws. destruct f; cbn [caser_String].
  - apply caser_facts.ToLower_no_upper; assumption.
  - apply caser_facts.Fold_no_upper; assumption.
Qed.

Lemma X8_witness :
  Forall no_upper (caser_String (H := sample.tables) lowerCaser sample.mixed).
Proof.
  apply (@X8_casers_leave_no_upper_case_ascii sample.tables lowerCaser
           sample.mixed sample_tables_laws).
Defined.



(** ** What [path.Clean] computes on a rooted path *)

Module clean_spec.
Import clean_facts.

Lemma Split_pending (rest : gostring) :
  strings.Split rest slash = pending rest :: tl (strings.Split rest slash).
Proof.
  induction rest as [|c rest IH]; [reflexivity|].
  cbn [strings.Split pending]. destruct (Ascii.eqb c slash); [reflexivity|].
  rewrite IH. reflexivity.
Qed.

Lemma pending_file_name (rest : gostring) : file_name (pending rest).
Proof.
  unfold file_name, strings.ContainsByte.
  induction rest as [|c rest IH]; [reflexivity|].
  cbn [pending]. destruct (Ascii.eqb c slash) eqn:Ec; [reflexivity|].
  cbn [existsb]. rewrite Ascii.eqb_sym, Ec. exact IH.
Qed.

Lemma Split_file_names (s : gostring) : Forall file_name (strings.Split s slash).
Proof.
  induction s as [|c s IH]; [repeat constructor|].
  cbn [strings.Split]. destruct (Ascii.eqb c slash) eqn:Ec.
  - constructor; [reflexivity | assumption].
  - destruct (strings.Split s slash) as [|seg segs];
      inversion IH; subst; constructor; auto;
      unfold file_name, strings.ContainsByte in *; cbn [existsb];
      rewrite Ascii.eqb_sym, Ec; auto.
Qed.

Lemma element_cons (c : ascii) (s : gostring) :
  Ascii.eqb c slash = false -> file_name s -> element (c :: s).
Proof.
  intros Hc Hs. split; [discriminate|].
  unfold file_name, strings.ContainsByte in *. cbn [existsb].
  rewrite Ascii.eqb_sym, Hc. exact Hs.
Qed.

Lemma element_app (a b : gostring) : element a -> file_name b -> element (a ++ b).
Proof.
  intros [Hne Ha] Hb. split.
  - destruct a; [contradiction | discriminate].
  - unfold file_name, strings.ContainsByte in *.
    rewrite existsb_app, Ha, Hb. reflexivity.
Qed.

Lemma removelast_snoc (A : Type) (l : list A) (x : A) :
  removelast (l ++ [x]) = l.
Proof. rewrite removelast_app by discriminate. apply app_nil_r. Qed.

Lemma Forall_removelast (A : Type) (P : A -> Prop) (l : list A) :
  Forall P l -> Forall P (removelast l).
Proof.
  induction 1 as [|x l Hx Hl IH]; [constructor|].
  destruct l; [constructor|]. cbn [removelast] in *. constructor; assumption.
Qed.

(** The loop of [path.Clean] on a rooted path, from any of its states:
    the buffer holds the elements resolved so far, and while copying also
    the beginning [cur] of the element that [pending rest] completes. *)
Lemma Clean_loop_resolve (n : nat) :
  forall rest copying out elems cur,
    (length rest <= n)%nat ->
    Forall element elems ->
    (copying = true -> element cur) ->
    out = rooted_path (if copying then elems ++ [cur] else elems) ->
    path.Clean_loop true copying rest out 1 =
    rooted_path
      (resolve (if copying then tl (strings.Split rest slash)
                else strings.Split rest slash)
               (if copying then elems ++ [cur ++ pending rest] else elems)).
Proof.
  induction n as [|n IHn]; intros rest copying out elems cur Hlen Hel Hcur Hout;
    (destruct rest as [|c rest1]; [|try (simpl in Hlen; lia)]).
  1,2: (cbn [path.Clean_loop strings.Split tl pending resolve is_empty orb];
        destruct copying; [rewrite app_nil_r|]; exact Hout).
  assert (IH : forall r copying out elems cur,
             (length r <= length rest1)%nat ->
             Forall element elems ->
             (copying = true -> element cur) ->
             out = rooted_path (if copying then elems ++ [cur] else elems) ->
             path.Clean_loop true copying r out 1 =
             rooted_path
               (resolve (if copying then tl (strings.Split r slash)
                         else strings.Split r slash)
                        (if copying then elems ++ [cur ++ pending r]
                         else elems))).
  { intros r cp o es cu Hr. apply IHn. simpl in Hlen. lia. }
  clear IHn Hlen.
  cbn [path.Clean_loop]. destruct copying.
  { specialize (Hcur eq_refl).
    assert (Hb : rooted_buffer (elems ++ [cur]) out).
    { split; [exact Hout|]. apply Forall_app. split; auto. }
    cbn [strings.Split pending].
    destruct (Ascii.eqb c slash) eqn:Ec.
    - rewrite (@IH rest1 false out (elems ++ [cur]) []);
        [ cbn [tl]; rewrite app_nil_r; reflexivity
        | lia
        | apply Forall_app; split; auto
        | discriminate
        | exact Hout ].
    - rewrite (@IH rest1 true (out ++ [c]) elems (cur ++ [c]));
        [ | lia | assumption
          | intros _; apply element_snoc; [apply Hcur | assumption]
          | eapply proj1, rooted_buffer_snoc_byte; eassumption ].
      rewrite <- app_assoc. cbn [app].
      destruct (strings.Split rest1 slash) eqn:Es; [|reflexivity].
      exfalso. eapply Split_nonempty; eassumption. }
  assert (Hb : rooted_buffer elems out) by (split; assumption).
  destruct (Ascii.eqb c slash) eqn:Ec.
  { cbn [strings.Split]. rewrite Ec. cbn [resolve is_empty orb].
    apply (@IH rest1 false out elems []);
      [lia | assumption | discriminate | exact Hout]. }
  assert (Hsplit : strings.Split (c :: rest1) slash
                   = (c :: pending rest1) :: tl (strings.Split rest1 slash)).
  { cbn [strings.Split]. rewrite Ec. rewrite (Split_pending rest1) at 1.
    reflexivity. }
  rewrite Hsplit. cbn [resolve is_empty orb].
  destruct (Ascii.eqb c path.dot && path.elem_ends rest1) eqn:Edot.
  { apply andb_true_iff in Edot. destruct Edot as [Ed Ee].
    apply Ascii.eqb_eq in Ed. subst c.
    apply pending_ends in Ee. rewrite Ee. rewrite streq_refl.
    rewrite (@IH rest1 false out elems []);
      [ | lia | assumption | discriminate | exact Hout ].
    rewrite (Split_pending rest1), Ee. reflexivity. }
  assert (Hnd : streq (c :: pending rest1) [path.dot] = false).
  { apply not_true_iff_false. intros E. apply streq_spec in E.
    inversion E as [[E1 E2]]. subst c. apply pending_ends in E2.
    rewrite Ascii.eqb_refl, E2 in Edot. discriminate. }
  rewrite Hnd. cbv zeta.
  assert (Hstart :
            streq (c :: pending rest1) dotdot = false ->
            path.Clean_loop true true rest1
              ((if (true && negb (length out =? 1)%nat)
                   || (negb true && negb (length out =? 0)%nat)
                then out ++ [slash] else out) ++ [c]) 1
            = rooted_path
                (if streq (c :: pending rest1) dotdot
                 then resolve (tl (strings.Split rest1 slash)) (removelast elems)
                 else resolve (tl (strings.Split rest1 slash))
                              (elems ++ [c :: pending rest1]))).
  { intros Hn. rewrite Hn.
    rewrite (@IH rest1 true _ elems [c]);
      [ reflexivity | lia | assumption
        | intros _; apply element_cons; [assumption | reflexivity]
        | eapply proj1, rooted_buffer_start; eassumption ]. }
  destruct rest1 as [|c1 rest2].
  { apply Hstart. change dotdot with [path.dot; path.dot].
    cbn [pending streq]. apply andb_false_r. }
  destruct (Ascii.eqb c path.dot && Ascii.eqb c1 path.dot
            && path.elem_ends rest2) eqn:Edd.
  2:{ apply Hstart. apply not_true_iff_false. intros E. apply streq_spec in E.
      apply (@not_dotdot_start c (c1 :: rest2)); [exact Edd | exact Ec | exact E]. }
  apply andb_true_iff in Edd. destruct Edd as [Edd Ee].
  apply andb_true_iff in Edd. destruct Edd as [Ed Ed1].
  apply Ascii.eqb_eq in Ed, Ed1. subst c c1.
  apply pending_ends in Ee.
  assert (Hseg : pending (path.dot :: rest2) = [path.dot]).
  { cbn [pending]. change (Ascii.eqb path.dot slash) with false. cbv iota.
    rewrite Ee. reflexivity. }
  rewrite Hseg. change (streq [path.dot; path.dot] dotdot) with true. cbv iota.
  assert (Htl : tl (strings.Split (path.dot :: rest2) slash)
                = tl (strings.Split rest2 slash)).
  { cbn [strings.Split]. change (Ascii.eqb path.dot slash) with false. cbv iota.
    destruct (strings.Split rest2 slash); reflexivity. }
  rewrite Htl.
  assert (Hrest : forall out' elems',
             Forall element elems' -> out' = rooted_path elems' ->
             path.Clean_loop true false rest2 out' 1
             = rooted_path (resolve (tl (strings.Split rest2 slash)) elems')).
  { intros out' elems' Hel' Hout'.
    rewrite (@IH rest2 false out' elems' []);
      [ | simpl; lia | assumption | discriminate | exact Hout' ].
    rewrite (Split_pending rest2), Ee. reflexivity. }
  destruct (1 <? length out)%nat eqn:Elen.
  - pose proof (rooted_buffer_length Hb) as Hl.
    destruct elems as [|e0 elems0].
    { rewrite Hout in Elen. discriminate. }
    destruct (@exists_last _ (e0 :: elems0)) as (init & last & Heq);
      [discriminate|].
    rewrite Heq in *. rewrite removelast_snoc.
    apply Hrest; [apply Forall_app in Hel; tauto|].
    rewrite Hout. apply backtrack_rooted. assumption.
  - cbn [negb]. apply Hrest; [apply Forall_removelast; assumption|].
    destruct elems as [|e0 elems0]; [exact Hout|].
    exfalso. rewrite (rooted_buffer_length Hb) in *.
    rewrite Hout in Elen. unfold rooted_path in Elen. cbn [length] in Elen.
    destruct (strings.Join (e0 :: elems0) [slash]) eqn:Ej; [|discriminate].
    apply Join_elements_nil in Ej; [discriminate | assumption].
Qed.

Lemma Clean_rooted_path (rest : gostring) :
  path.Clean (slash :: rest)
  = rooted_path (resolve (strings.Split rest slash) []).
Proof.
  unfold path.Clean. rewrite Ascii.eqb_refl.
  rewrite (@Clean_loop_resolve (length rest) rest false [slash] [] []);
    [reflexivity | apply le_n | constructor | discriminate | reflexivity].
Qed.

(** What [resolve] keeps. *)

Lemma proper_name_spec (n : gostring) :
  proper_name n = true <->
  element n /\ n <> [path.dot] /\ n <> dotdot.
Proof.
  unfold proper_name, element, file_name.
  rewrite !andb_true_iff, !negb_true_iff. split.
  - intros (((Hne & Hs) & Hd) & Hdd). repeat split; auto.
    + intros ->. discriminate.
    + intros ->. discriminate.
    + intros ->. discriminate.
  - intros ((Hne & Hs) & Hd & Hdd). repeat split; auto.
    + destruct n; [contradiction | reflexivity].
    + apply not_true_iff_false. intros E. apply streq_spec in E. auto.
    + apply not_true_iff_false. intros E. apply streq_spec in E. auto.
Qed.

Lemma resolve_proper (segs : list gostring) :
  forall stack,
    Forall file_name segs -> forallb proper_name stack = true ->
    forallb proper_name (resolve segs stack) = true.
Proof.
  induction segs as [|seg segs IH]; intros stack Hfn Hst; [exact Hst|].
  inversion Hfn as [|? ? Hseg Hsegs]; subst. cbn [resolve].
  destruct (is_empty seg || streq seg [path.dot]) eqn:E1; [auto|].
  destruct (streq seg dotdot) eqn:E2.
  - apply IH; [assumption|].
    rewrite forallb_forall in *. intros x Hx. apply Hst.
    clear - Hx. induction stack as [|a stack IHs]; [contradiction|].
    destruct stack; [contradiction|].
    cbn [removelast] in Hx. destruct Hx as [<-|Hx]; [left; reflexivity|].
    right. apply IHs. exact Hx.
  - apply IH; [assumption|]. rewrite forallb_app, Hst. cbn [forallb andb].
    rewrite andb_true_r. unfold proper_name.
    apply orb_false_iff in E1. destruct E1 as [E0 E1].
    rewrite E0, E1, E2. unfold file_name in Hseg. rewrite Hseg. reflexivity.
Qed.

Lemma resolve_names (names : list gostring) :
  forall stack,
    forallb proper_name names = true -> resolve names stack = stack ++ names.
Proof.
  induction names as [|n names IH]; intros stack Hp;
    [symmetry; apply app_nil_r|].
  cbn [forallb] in Hp. apply andb_true_iff in Hp. destruct Hp as [Hn Hp].
  cbn [resolve]. unfold proper_name in Hn.
  rewrite !andb_true_iff, !negb_true_iff in Hn.
  destruct Hn as (((E0 & _) & E1) & E2). rewrite E0, E1, E2. cbn [orb].
  rewrite IH by assumption. rewrite <- app_assoc. reflexivity.
Qed.

Lemma resolve_app (a b : list gostring) :
  forall stack, resolve (a ++ b) stack = resolve b (resolve a stack).
Proof.
  induction a as [|seg a IH]; intros stack; [reflexivity|].
  cbn [app resolve].
  destruct (is_empty seg || streq seg [path.dot]); [apply IH|].
  destruct (streq seg dotdot); apply IH.
Qed.

Lemma Split_app (a b : gostring) :
  strings.Split (a ++ slash :: b) slash
  = strings.Split a slash ++ strings.Split b slash.
Proof.
  induction a as [|c a IH]; [reflexivity|].
  cbn [app strings.Split]. destruct (Ascii.eqb c slash) eqn:Ec.
  - rewrite IH. reflexivity.
  - rewrite IH. destruct (strings.Split a slash) eqn:Es; [|reflexivity].
    exfalso. eapply Split_nonempty; eassumption.
Qed.

Lemma proper_file_names (names : list gostring) :
  forallb proper_name names = true -> Forall file_name names.
Proof.
  rewrite forallb_forall, Forall_forall. intros H n Hn.
  apply H, proper_name_spec in Hn. apply Hn.
Qed.

Lemma Split_rooted_path (names : list gostring) :
  forallb proper_name names = true ->
  resolve (strings.Split (strings.Join names [slash]) slash) [] = names.
Proof.
  intros Hp. destruct names as [|n names]; [reflexivity|].
  rewrite Split_Join; [|discriminate | apply proper_file_names; assumption].
  apply (@resolve_names _ [] Hp).
Qed.

(** A rooted path of proper names is clean. *)
Lemma Clean_names (names : list gostring) :
  forallb proper_name names = true ->
  path.Clean (rooted_path names) = rooted_path names.
Proof.
  intros Hp. unfold rooted_path at 1. rewrite Clean_rooted_path.
  rewrite Split_rooted_path by assumption. reflexivity.
Qed.

Lemma Clean_proper (rest : gostring) :
  forallb proper_name (resolve (strings.Split rest slash) []) = true.
Proof. apply resolve_proper; [apply Split_file_names | reflexivity]. Qed.

(** One more name below a rooted directory. *)
Lemma Clean_below (rest : gostring) (name : gostring) :
  proper_name name = true ->
  path.Clean ((slash :: rest) ++ slash :: name)
  = rooted_path (resolve (strings.Split rest slash) [] ++ [name]).
Proof.
  intros Hn. cbn [app]. rewrite Clean_rooted_path, Split_app, resolve_app.
  assert (Hs : strings.Split name slash = [name]).
  { apply Split_file_name. apply proper_name_spec in Hn. apply Hn. }
  rewrite Hs. apply f_equal. apply resolve_names.
  cbn [forallb]. rewrite Hn. reflexivity.
Qed.

End clean_spec.

(** X10: on a rooted path [path.Clean] returns the slash followed by the
    elements that are left when empty segments and [.] are dropped and each
    [..] takes the element before it (none at the root), joined by slashes;
    the segments of the result are proper names unless the result is [/];
    and cleaning twice is cleaning once. *)
Theorem X10_Clean_resolves_the_segments (rest : gostring) :
  path.Clean (slash :: rest)
  = rooted_path (resolve (strings.Split rest slash) []) /\
  forallb proper_name (cleaned_segments (slash :: rest))
  = negb (streq (path.Clean (slash :: rest)) [slash]) /\
  path.Clean (path.Clean (slash :: rest)) = path.Clean (slash :: rest).
Proof.
  pose proof (clean_spec.Clean_rooted_path rest) as Hc.
  pose proof (clean_spec.Clean_proper rest) as Hp.
  split; [exact Hc|]. split.
  - unfold cleaned_segments. rewrite Hc.
    change (strings.TrimPrefix (rooted_path ?x) [slash])
      with (strings.Join x [slash]).
    destruct (resolve (strings.Split rest slash) []) as [|e elems] eqn:Er;
      [reflexivity|].
    rewrite Split_Join;
      [|discriminate | apply clean_spec.proper_file_names; assumption].
    rewrite Hp. symmetry. apply negb_true_iff.
    apply not_true_iff_false. intros E. apply streq_spec in E.
    assert (Ej : strings.Join (e :: elems) [slash] = [])
      by (unfold rooted_path in E; congruence).
    apply clean_facts.Join_elements_nil in Ej; [discriminate|].
    rewrite forallb_forall in Hp. apply Forall_forall. intros x Hx.
    apply Hp, clean_spec.proper_name_spec in Hx. apply Hx.
  - rewrite Hc. apply clean_spec.Clean_names. exact Hp.
Qed.

(** ** Runs on a file system that does not change *)

Lemma run_bind {A B : Type} (fs : FS) (m : Prog A) (f : A -> Prog B) :
  run fs (bind m f) =
  match run fs m with
  | (Some a, t1) => let '(res, t2) := run fs (f a) in (res, t1 ++ t2)
  | (None, t1) => (None, t1)
  end.
Proof.
  induction m as [a| |X e k IH]; cbn [bind run].
  - destruct (run fs (f a)); reflexivity.
  - reflexivity.
  - rewrite IH. destruct (run fs (k (answer fs e))) as [[a|] t1].
    + destruct (run fs (f a)); reflexivity.
    + reflexivity.
Qed.

Section FsMode.
Context {T : CaseTables}.

(** The decision in mode [fs], computed from the run of [canonicalFS]. *)
Lemma decide_fs_run (fs : FS) (c : Casefold) (p : gostring) :
  mode_of c = str "fs" ->
  run fs (decide c p) =
  if is_empty p || streq p [slash] || skip c p then (Some UNCHANGED, [])
  else
    match run fs (canonicalFS c p) with
    | (Some (q, true), t) =>
      (Some (if streq q p then UNCHANGED else REWRITTEN q), t)
    | (Some (_, false), t) => (Some UNCHANGED, t)
    | (None, t) => (None, t)
    end.
Proof.
  intros Hm. unfold decide, ServeHTTP.
  cbn [request_for Request_URL Path is_empty].
  destruct (is_empty p || streq p [slash]); [reflexivity|].
  cbn [orb]. destruct (skip c p); [reflexivity|].
  rewrite Hm.
  change (is_empty (str "fs") || streq (str "fs") (str "lower")
          || streq (str "fs") (str "fold")) with false.
  change (streq (str "fs") (str "fs")) with true. cbv iota.
  rewrite !run_bind.
  destruct (run fs (canonicalFS c p)) as [[[q ok]|] t]; [|reflexivity].
  destruct ok.
  - cbn [run]. cbn [app]. destruct (streq q p) eqn:E; cbn [negb run observe].
    + rewrite !app_nil_r. reflexivity.
    + unfold observe, rewrite_writer, Header_Set.
      cbn [Writer_Header Header_Has fst]. rewrite streq_refl.
      cbn [orb rewrite_request Request_URL Path run].
      rewrite !app_nil_r. reflexivity.
  - cbn [run app]. rewrite streq_refl. cbn [negb run observe].
    rewrite !app_nil_r. reflexivity.
Qed.

(** *** The two searches *)

Lemma exact_match_found (entries : list gostring) (seg : gostring) :
  exact_match entries seg = if existsb (streq seg) entries then seg else [].
Proof.
  induction entries as [|e entries IH]; [reflexivity|].
  cbn [exact_match existsb]. rewrite (streq_sym seg e).
  destruct (streq e seg) eqn:E; [|exact IH].
  apply streq_spec in E. subst. reflexivity.
Qed.

Lemma lowered_match_first (entries : list gostring) (lowered : gostring) :
  lowered_match entries lowered
  = hd [] (filter (fun n => streq (strings.ToLower n) lowered) entries).
Proof.
  induction entries as [|e entries IH]; [reflexivity|].
  cbn [lowered_match filter].
  destruct (streq (strings.ToLower e) lowered); [reflexivity | exact IH].
Qed.

Lemma find_match_first (entries : list gostring) (seg : gostring) :
  seg <> [] ->
  find_match entries seg =
  if existsb (streq seg) entries then seg
  else hd [] (filter (fun n => streq (strings.ToLower n) (strings.ToLower seg))
                     entries).
Proof.
  intros Hne. unfold find_match. cbv zeta. rewrite exact_match_found.
  destruct (existsb (streq seg) entries).
  - destruct seg; [contradiction | reflexivity].
  - cbn [is_empty]. apply lowered_match_first.
Qed.

(** *** The loop *)

Lemma loop_trace (p : gostring) (segs : list gostring) :
  forall curDir built t res,
    Yields (canonicalFS_loop p segs curDir built) t res ->
    (length t <= 2 * length segs - 1)%nat /\
    (snd res = true -> length t = (2 * length segs - 1)%nat) /\
    (snd res = false -> fst res = p) /\
    (existsb obs_failed t = true -> snd res = false).
Proof.
  induction segs as [|seg segs IH]; intros curDir built t res Hy.
  { cbn [canonicalFS_loop] in Hy. apply Yields_inv in Hy.
    destruct Hy as [-> ->]. cbn [length snd fst existsb].
    repeat split; auto; discriminate. }
  cbn [canonicalFS_loop] in Hy.
  apply Yields_inv in Hy. destruct Hy as (entries & t' & -> & Hy).
  assert (Hfail : forall t0, Yields (Ret (p, false)) t0 res ->
                             t0 = [] /\ res = (p, false)).
  { intros t0 H0. apply Yields_inv in H0. exact H0. }
  destruct entries as [entries|].
  2:{ apply Hfail in Hy. destruct Hy as [-> ->]. cbn [length snd fst].
      repeat split; auto; try discriminate. lia. }
  cbv zeta in Hy.
  destruct (is_empty (find_match entries seg)).
  { apply Hfail in Hy. destruct Hy as [-> ->]. cbn [length snd fst].
    repeat split; auto; try discriminate. lia. }
  destruct segs as [|seg' segs'].
  - cbn [canonicalFS_loop] in Hy. apply Yields_inv in Hy.
    destruct Hy as [-> ->]. cbn [length snd fst existsb obs_failed orb].
    repeat split; auto; discriminate.
  - apply Yields_inv in Hy. destruct Hy as (fi & t'' & -> & Hy).
    destruct fi as [[|]|].
    + apply IH in Hy. destruct Hy as (H1 & H2 & H3 & H4).
      cbn [length existsb obs_failed orb] in *.
      repeat split; auto; try lia. intros Hs. specialize (H2 Hs). lia.
    + apply Hfail in Hy. destruct Hy as [-> ->]. cbn [length snd fst].
      repeat split; auto; try discriminate. lia.
    + apply Hfail in Hy. destruct Hy as [-> ->]. cbn [length snd fst].
      repeat split; auto; try discriminate. lia.
Qed.

Lemma canonicalFS_trace (c : Casefold) (p : gostring) t res :
  Yields (canonicalFS c p) t res ->
  (length t <= 2 * length (cleaned_segments p) - 1)%nat /\
  (snd res = true -> length t = (2 * length (cleaned_segments p) - 1)%nat) /\
  (snd res = false -> fst res = p) /\
  (existsb obs_failed t = true -> snd res = false).
Proof.
  rewrite clean_facts.canonicalFS_guard_is_idle.
  assert (Hfail : Yields (Ret (p, false)) t res ->
            (length t <= 2 * length (cleaned_segments p) - 1)%nat /\
            (snd res = true ->
             length t = (2 * length (cleaned_segments p) - 1)%nat) /\
            (snd res = false -> fst res = p) /\
            (existsb obs_failed t = true -> snd res = false)).
  { intros Hy. apply Yields_inv in Hy. destruct Hy as [-> ->].
    cbn [length snd fst existsb]. repeat split; auto; try discriminate. lia. }
  destruct (is_empty (Root c)); [exact Hfail|].
  destruct (negb _); [exact Hfail|].
  destruct (streq _ _); [exact Hfail|].
  apply loop_trace.
Qed.

(** *** A path that exists as it is spelled *)

Lemma loop_present (fs : FS) (p : gostring) (segs : list gostring) :
  forall curDir built,
    Forall (fun s => s <> []) segs ->
    present fs curDir segs = true ->
    exists t,
      run fs (canonicalFS_loop p segs curDir built)
      = (Some (rooted_path (built ++ segs), true), t).
Proof.
  induction segs as [|seg segs IH]; intros curDir built Hne Hp.
  { exists []. rewrite app_nil_r. reflexivity. }
  inversion Hne as [|? ? Hseg Hsegs]; subst.
  cbn [present] in Hp. cbn [canonicalFS_loop run answer].
  destruct (fs_ReadDir fs curDir) as [entries|]; [|discriminate].
  apply andb_true_iff in Hp. destruct Hp as [Hin Hp].
  cbv zeta. rewrite (find_match_first entries Hseg), Hin.
  assert (Ee : is_empty seg = false) by (destruct seg; [contradiction|reflexivity]).
  rewrite Ee.
  destruct segs as [|seg' segs'].
  - exists [obs (ReadDir curDir) (Some entries)]. reflexivity.
  - cbn [run answer].
    destruct (fs_Stat fs (filepath.Join [curDir; seg])) as [[|]|];
      try discriminate.
    destruct (IH (filepath.Join [curDir; seg]) (built ++ [seg]) Hsegs Hp)
      as (t & Ht).
    rewrite Ht. rewrite <- app_assoc. eexists. reflexivity.
Qed.

Lemma loop_success_present (fs : FS) (p : gostring) (segs : list gostring) :
  forall curDir built q t,
    run fs (canonicalFS_loop p segs curDir built) = (Some (q, true), t) ->
    exists names,
      q = rooted_path (built ++ names) /\
      present fs curDir names = true /\
      Forall (fun n => n <> [] /\ In n (listed t)) names /\
      length names = length segs.
Proof.
  induction segs as [|seg segs IH]; intros curDir built q t Hr.
  { cbn [canonicalFS_loop run] in Hr. inversion Hr; subst.
    exists []. rewrite app_nil_r. repeat split; auto. }
  cbn [canonicalFS_loop run answer] in Hr.
  destruct (fs_ReadDir fs curDir) as [entries|] eqn:Erd;
    [|cbn [run] in Hr; discriminate].
  cbv zeta in Hr.
  destruct (is_empty (find_match entries seg)) eqn:Em;
    [cbn [run] in Hr; discriminate|].
  destruct (find_match_spec _ _ Em) as [_ Hin].
  set (name := find_match entries seg) in *.
  assert (Hname : name <> []) by (intros E; rewrite E in Em; discriminate).
  assert (Hex : existsb (streq name) entries = true).
  { apply existsb_exists. exists name. split; [assumption | apply streq_refl]. }
  assert (Hl : forall t0, In name (listed (obs (ReadDir curDir) (Some entries) :: t0))).
  { intros t0. unfold listed. cbn [flat_map obs_names]. apply in_or_app. left.
    exact Hin. }
  destruct segs as [|seg' segs'].
  - cbn [canonicalFS_loop run] in Hr. inversion Hr; subst.
    exists [name]. cbn [present]. rewrite Erd, Hex.
    repeat split; auto.
  - cbn [run answer] in Hr.
    destruct (fs_Stat fs (filepath.Join [curDir; name])) as [[|]|] eqn:Est;
      try (cbn [run] in Hr; discriminate).
    destruct (run fs (canonicalFS_loop p (seg' :: segs')
                        (filepath.Join [curDir; name]) (built ++ [name])))
      as [r t1] eqn:Er.
    inversion Hr; subst.
    destruct (IH _ _ _ _ Er) as (names & -> & Hp & Hall & Hlen).
    exists (name :: names). rewrite <- app_assoc. split; [reflexivity|].
    split.
    + cbn [present]. rewrite Erd, Hex. cbn [andb].
      destruct names as [|n names]; [reflexivity|]. rewrite Est. exact Hp.
    + split; [|cbn [length] in *; lia].
      constructor; [split; [assumption | apply Hl]|].
      eapply Forall_impl; [|exact Hall]. intros n [Hn Hi]. split; [assumption|].
      unfold listed in *. cbn [flat_map]. apply in_or_app. right.
      apply in_or_app. right. exact Hi.
Qed.

End FsMode.

(** ** Mode [fs] on a file system that does not change *)

Section FsFacts.
Context {T : CaseTables}.

(** The cleaned form of a rooted path other than the root. *)
Lemma cleaned_elements (p : gostring) :
  strings.HasPrefix p [slash] = true -> path.Clean p <> [slash] ->
  path.Clean p = rooted_path (elements p) /\
  cleaned_segments p = elements p /\
  elements p <> [] /\
  forallb proper_name (elements p) = true.
Proof.
  intros Hp Hne. apply HasPrefix_slash in Hp. destruct Hp as [rest ->].
  unfold elements, cleaned_segments.
  change (strings.TrimPrefix (slash :: rest) [slash]) with rest.
  pose proof (clean_spec.Clean_rooted_path rest) as Hc.
  pose proof (clean_spec.Clean_proper rest) as Hpr.
  rewrite Hc in *.
  destruct (resolve (strings.Split rest slash) []) as [|e elems] eqn:Er;
    [contradiction|].
  change (strings.TrimPrefix (rooted_path (e :: elems)) [slash])
    with (strings.Join (e :: elems) [slash]).
  rewrite Split_Join;
    [|discriminate | apply clean_spec.proper_file_names; assumption].
  repeat split; auto. discriminate.
Qed.

Lemma proper_nonempty (names : list gostring) :
  forallb proper_name names = true -> Forall (fun s => s <> []) names.
Proof.
  rewrite forallb_forall, Forall_forall. intros H n Hn.
  apply H, clean_spec.proper_name_spec in Hn. apply Hn.
Qed.

Lemma canonicalFS_present (fs : FS) (c : Casefold) (p : gostring) :
  Root c <> [] ->
  strings.HasPrefix p [slash] = true ->
  path.Clean p <> [slash] ->
  present fs (Root c) (cleaned_segments p) = true ->
  exists t, run fs (canonicalFS c p) = (Some (path.Clean p, true), t).
Proof.
  intros Hroot Hp Hne Hpres.
  destruct (cleaned_elements p Hp Hne) as (Hc & Hs & _ & Hpr).
  rewrite clean_facts.canonicalFS_guard_is_idle.
  destruct (Root c) as [|r0 root] eqn:Er; [contradiction|]. cbn [is_empty].
  assert (H1 : strings.HasPrefix (path.Clean p) [slash] = true)
    by (rewrite Hc; reflexivity).
  assert (H2 : streq (path.Clean p) [slash] = false).
  { apply not_true_iff_false. intros E. apply streq_spec in E. contradiction. }
  rewrite H1, H2. cbn [negb]. rewrite Hs in *.
  destruct (@loop_present T fs p (elements p) (r0 :: root) []
              (proper_nonempty _ Hpr) Hpres) as (t & Ht).
  exists t. rewrite Ht, Hc. reflexivity.
Qed.

Lemma Join_proper_nonempty (names : list gostring) :
  names <> [] -> forallb proper_name names = true ->
  strings.Join names [slash] <> [].
Proof.
  intros Hne Hp E. apply clean_facts.Join_elements_nil in E; [contradiction|].
  rewrite forallb_forall in Hp. apply Forall_forall. intros n Hn.
  apply Hp, clean_spec.proper_name_spec in Hn. apply Hn.
Qed.

Lemma listed_proper (t : list Obs) (names : list gostring) :
  forallb proper_name (listed t) = true ->
  Forall (fun n => n <> [] /\ In n (listed t)) names ->
  forallb proper_name names = true.
Proof.
  intros Hl Hall. rewrite forallb_forall in *. rewrite Forall_forall in Hall.
  intros n Hn. apply Hl, Hall, Hn.
Qed.

Lemma canonicalFS_fixed_point (fs : FS) (c : Casefold) (p q : gostring) t :
  run fs (canonicalFS c p) = (Some (q, true), t) ->
  forallb proper_name (listed t) = true ->
  exists t', run fs (canonicalFS c q) = (Some (q, true), t').
Proof.
  intros Hr Hl. rewrite clean_facts.canonicalFS_guard_is_idle in Hr.
  destruct (is_empty (Root c)) eqn:Eroot; [discriminate|].
  destruct (negb _); [discriminate|].
  destruct (streq _ _); [discriminate|].
  apply loop_success_present in Hr.
  destruct Hr as (names & -> & Hpres & Hall & Hlen). cbn [app] in *.
  pose proof (listed_proper _ Hl Hall) as Hpr.
  assert (Hne : names <> []).
  { intros ->. cbn [length] in Hlen. symmetry in Hlen.
    apply length_zero_iff_nil in Hlen.
    eapply Split_nonempty. exact Hlen. }
  pose proof (clean_spec.Clean_names _ Hpr) as Hc.
  assert (Hseg : cleaned_segments (rooted_path names) = names).
  { unfold cleaned_segments. rewrite Hc.
    change (strings.TrimPrefix (rooted_path names) [slash])
      with (strings.Join names [slash]).
    apply Split_Join; [assumption | apply clean_spec.proper_file_names; assumption]. }
  destruct (@canonicalFS_present fs c (rooted_path names)) as (t' & Ht').
  - intros E. rewrite E in Eroot. discriminate.
  - reflexivity.
  - rewrite Hc. unfold rooted_path. intros E.
    apply (Join_proper_nonempty Hne Hpr). congruence.
  - rewrite Hseg. exact Hpres.
  - exists t'. rewrite Ht', Hc. reflexivity.
Qed.

(** *** The directories that [canonicalFS] touches *)

Lemma Join_below (rest name : gostring) :
  proper_name name = true ->
  filepath.Join [(slash :: rest : gostring); name]
  = rooted_path (resolve (strings.Split rest slash) [] ++ [name]).
Proof.
  intros Hn. cbn [filepath.Join strings.Join].
  apply clean_spec.Clean_below. exact Hn.
Qed.

Lemma loop_dirs (p : gostring) (segs : list gostring) :
  forall rest built t res,
    Yields (canonicalFS_loop p segs (slash :: rest) built) t res ->
    forallb proper_name (listed t) = true ->
    Forall (fun o => exists d,
                obs_dir o = Some d /\
                (d = slash :: rest \/
                 exists names,
                   names <> [] /\ forallb proper_name names = true /\
                   d = rooted_path
                         (resolve (strings.Split rest slash) [] ++ names)))
           t.
Proof.
  induction segs as [|seg segs IH]; intros rest built t res Hy Hl.
  { cbn [canonicalFS_loop] in Hy. apply Yields_inv in Hy.
    destruct Hy as [-> _]. constructor. }
  cbn [canonicalFS_loop] in Hy.
  apply Yields_inv in Hy. destruct Hy as (entries & t' & -> & Hy).
  constructor; [exists (slash :: rest); split; [reflexivity | left; reflexivity]|].
  assert (Hfail : forall t0, Yields (Ret (p, false)) t0 res -> t0 = []).
  { intros t0 H0. apply Yields_inv in H0. apply H0. }
  destruct entries as [entries|]; [|apply Hfail in Hy; subst; constructor].
  cbv zeta in Hy.
  destruct (is_empty (find_match entries seg)) eqn:Em;
    [apply Hfail in Hy; subst; constructor|].
  destruct (find_match_spec _ _ Em) as [_ Hin].
  set (name := find_match entries seg) in *.
  assert (Hname : proper_name name = true).
  { unfold listed in Hl. cbn [flat_map obs_names] in Hl.
    rewrite forallb_app in Hl. apply andb_true_iff in Hl.
    destruct Hl as [Hl _]. rewrite forallb_forall in Hl. apply Hl, Hin. }
  assert (Hl' : forall o t0, listed (obs (ReadDir (slash :: rest)) (Some entries)
                                     :: o :: t0) = entries ++ listed (o :: t0)).
  { reflexivity. }
  destruct segs as [|seg' segs'].
  - cbn [canonicalFS_loop] in Hy. apply Yields_inv in Hy.
    destruct Hy as [-> _]. constructor.
  - apply Yields_inv in Hy. destruct Hy as (fi & t'' & -> & Hy).
    rewrite (@Join_below rest name Hname) in *.
    set (base := resolve (strings.Split rest slash) []) in *.
    assert (Hbase : forallb proper_name (base ++ [name]) = true).
    { rewrite forallb_app. cbn [forallb]. rewrite Hname.
      subst base. rewrite clean_spec.Clean_proper. reflexivity. }
    assert (Hhere : exists names,
               names <> [] /\ forallb proper_name names = true /\
               rooted_path (base ++ [name]) = rooted_path (base ++ names)).
    { exists [name]. split; [discriminate|]. split; [|reflexivity].
      cbn [forallb]. rewrite Hname. reflexivity. }
    constructor; [eexists; split; [reflexivity | right; exact Hhere]|].
    destruct fi as [[|]|]; try (apply Hfail in Hy; subst; constructor).
    unfold rooted_path at 1 in Hy.
    apply IH in Hy.
    + rewrite (clean_spec.Split_rooted_path _ Hbase) in Hy.
      eapply Forall_impl; [|exact Hy].
      intros o (d & Hd & [-> | (names & Hne & Hpr & ->)]).
      * eexists. split; [exact Hd|]. right. exact Hhere.
      * eexists. split; [exact Hd|]. right. exists (name :: names).
        split; [discriminate|]. split.
        -- cbn [forallb]. rewrite Hname. exact Hpr.
        -- rewrite <- app_assoc. reflexivity.
    + rewrite Hl' in Hl. rewrite forallb_app in Hl.
      apply andb_true_iff in Hl. destruct Hl as [_ Hl].
      unfold listed in *. cbn [flat_map obs_names app] in Hl. exact Hl.
Qed.

End FsFacts.

(** X11: [canonicalFS] performs at most one directory read for each
    segment of the cleaned path and one [Stat] for each segment but the
    last, and exactly as many when it succeeds. *)
Theorem X11_canonicalFS_reads_once_per_segment
    {T : CaseTables} (c : Casefold) (p : gostring) (t : list Obs)
    (res : gostring * bool) :
  Yields (canonicalFS c p) t res ->
  (length t <= 2 * length (cleaned_segments p) - 1)%nat /\
  (snd res = true -> length t = (2 * length (cleaned_segments p) - 1)%nat).
Proof.
  intros Hy. apply canonicalFS_trace in Hy. tauto.
Qed.

Lemma X11_witness :
  (3 <= 2 * length (cleaned_segments (str "/scripts/myscript.bat")) - 1)%nat /\
  (true = true ->
   3%nat = (2 * length (cleaned_segments (str "/scripts/myscript.bat")) - 1)%nat).
Proof.
  apply (@X11_canonicalFS_reads_once_per_segment sample.tables
           (sample.config "fs" "/srv" []) (str "/scripts/myscript.bat")
           (snd (run sample.site
                     (canonicalFS (H := sample.tables)
                        (sample.config "fs" "/srv" [])
                        (str "/scripts/myscript.bat"))))
           (str "/scripts/MyScript.bat", true)).
  apply (@run_Yields _ sample.site). reflexivity.
Defined.

(** X12: when [canonicalFS] fails it returns the path as it came, never a
    part of the canonical path; and it fails whenever a directory read
    failed, a [Stat] failed, or a [Stat] found something that is no
    directory. *)
Theorem X12_canonicalFS_fails_with_its_input
    {T : CaseTables} (c : Casefold) (p q : gostring) (ok : bool)
    (t : list Obs) :
  Yields (canonicalFS c p) t (q, ok) ->
  (ok = false -> q = p) /\
  (existsb obs_failed t = true -> ok = false).
Proof.
  intros Hy. apply canonicalFS_trace in Hy. cbn [fst snd] in Hy. tauto.
Qed.

Lemma X12_witness :
  (false = false -> str "/B/x" = str "/B/x") /\
  (existsb obs_failed
     [obs (ReadDir (str "/srv")) (Some [str "b"; str "scripts"]);
      obs (Stat (str "/srv/b")) (Some false)] = true -> false = false).
Proof.
  apply (@X12_canonicalFS_fails_with_its_input sample.tables
           (sample.config "fs" "/srv" []) (str "/B/x") (str "/B/x") false).
  apply (@run_Yields _ sample.site). reflexivity.
Defined.

(** X13: the search through a directory returns the segment itself when
    the directory lists it, also after entries that differ from it in case
    only; otherwise the first entry, in the order of the listing, that is
    equal to the segment once both are lowered; and the empty name when
    there is none. *)
Theorem X13_exact_spelling_wins
    {T : CaseTables} (entries : list gostring) (seg : gostring) :
  seg <> [] ->
  find_match entries seg =
  if existsb (streq seg) entries then seg
  else hd [] (filter (fun n => streq (strings.ToLower n) (strings.ToLower seg))
                     entries).
Proof. apply find_match_first. Qed.

Lemma X13_witness :
  find_match (H := sample.tables) [str "README"; str "ReadMe"; str "readme"]
             (str "readme")
  = str "readme" /\
  find_match (H := sample.tables) [str "README"; str "ReadMe"] (str "readme")
  = str "README".
Proof.
  split.
  - apply (@X13_exact_spelling_wins sample.tables
             [str "README"; str "ReadMe"; str "readme"] (str "readme")).
    discriminate.
  - apply (@X13_exact_spelling_wins sample.tables
             [str "README"; str "ReadMe"] (str "readme")).
    discriminate.
Defined.

(** X14: on a file system that does not change, a rooted path that exists
    below the root as it is spelled is canonicalised to its cleaned form:
    the decision in mode [fs] is [UNCHANGED] when the path is clean, and
    otherwise a rewrite to the cleaned path (a doubled or a final slash is
    dropped). *)
Theorem X14_existing_path_is_cleaned
    {T : CaseTables} (fs : FS) (c : Casefold) (p : gostring) :
  Root c <> [] ->
  strings.HasPrefix p [slash] = true ->
  path.Clean p <> [slash] ->
  present fs (Root c) (cleaned_segments p) = true ->
  fst (run fs (canonicalFS c p)) = Some (path.Clean p, true) /\
  (mode_of c = str "fs" -> skip c p = false ->
   fst (run fs (decide c p))
   = Some (if streq (path.Clean p) p then UNCHANGED
           else REWRITTEN (path.Clean p))).
Proof.
  intros Hroot Hp Hne Hpres.
  destruct (@canonicalFS_present _ fs c p Hroot Hp Hne Hpres) as (t & Ht).
  split; [rewrite Ht; reflexivity|].
  intros Hm Hs. rewrite (@decide_fs_run _ fs c p Hm), Hs, Ht.
  apply HasPrefix_slash in Hp. destruct Hp as [rest ->].
  cbn [is_empty orb].
  destruct (streq (slash :: rest) [slash]) eqn:E; [|reflexivity].
  apply streq_spec in E. rewrite E in Hne. exfalso. apply Hne. reflexivity.
Qed.

Lemma X14_witness :
  fst (run sample.site
         (canonicalFS (H := sample.tables) (sample.config "fs" "/srv" [])
                      (str "/scripts//MyScript.bat/")))
  = Some (path.Clean (str "/scripts//MyScript.bat/"), true) /\
  (mode_of (H := sample.tables) (sample.config "fs" "/srv" []) = str "fs" ->
   skip (sample.config "fs" "/srv" []) (str "/scripts//MyScript.bat/") = false ->
   fst (run sample.site
          (decide (H := sample.tables) (sample.config "fs" "/srv" [])
                  (str "/scripts//MyScript.bat/")))
   = Some (if streq (path.Clean (str "/scripts//MyScript.bat/"))
                    (str "/scripts//MyScript.bat/")
           then UNCHANGED
           else REWRITTEN (path.Clean (str "/scripts//MyScript.bat/")))).
Proof.
  apply (@X14_existing_path_is_cleaned sample.tables sample.site
           (sample.config "fs" "/srv" []) (str "/scripts//MyScript.bat/")).
  - discriminate.
  - reflexivity.
  - discriminate.
  - reflexivity.
Defined.

(** X15: with an absolute root, and directories that list proper names,
    every directory that [canonicalFS] reads or stats is the root as
    configured or the cleaned root followed by proper names. *)
Theorem X15_canonicalFS_stays_below_the_root
    {T : CaseTables} (c : Casefold) (p : gostring) (t : list Obs)
    (res : gostring * bool) :
  strings.HasPrefix (Root c) [slash] = true ->
  forallb proper_name (listed t) = true ->
  Yields (canonicalFS c p) t res ->
  Forall (fun o => exists d,
              obs_dir o = Some d /\ (d = Root c \/ below (Root c) d)) t.
Proof.
  intros Hroot Hl Hy. apply HasPrefix_slash in Hroot.
  destruct Hroot as [rest Er].
  rewrite clean_facts.canonicalFS_guard_is_idle in Hy.
  assert (Hfail : Yields (Ret (p, false)) t res ->
            Forall (fun o => exists d,
                        obs_dir o = Some d /\ (d = Root c \/ below (Root c) d))
                   t).
  { intros H0. apply Yields_inv in H0. destruct H0 as [-> _]. constructor. }
  destruct (is_empty (Root c)); [auto|].
  destruct (negb _); [auto|].
  destruct (streq _ _); [auto|].
  unfold below, elements. rewrite Er in *.
  change (strings.TrimPrefix (slash :: rest) [slash]) with rest.
  eapply loop_dirs; eassumption.
Qed.

Lemma X15_witness :
  Forall (fun o => exists d,
              obs_dir o = Some d /\
              (d = Root (sample.config "fs" "/srv" [])
               \/ below (Root (sample.config "fs" "/srv" [])) d))
         (snd (run sample.site
                   (canonicalFS (H := sample.tables)
                                (sample.config "fs" "/srv" [])
                                (str "/Scripts/myscript.bat")))).
Proof.
  apply (@X15_canonicalFS_stays_below_the_root sample.tables
           (sample.config "fs" "/srv" []) (str "/Scripts/myscript.bat")
           (snd (run sample.site
                     (canonicalFS (H := sample.tables)
                                  (sample.config "fs" "/srv" [])
                                  (str "/Scripts/myscript.bat"))))
           (str "/scripts/MyScript.bat", true)).
  - reflexivity.
  - reflexivity.
  - apply (@run_Yields _ sample.site). reflexivity.
Defined.

(** X16: on a file system that does not change and lists proper names, a
    path that mode [fs] has rewritten to is left alone when it comes in
    itself. *)
Theorem X16_canonical_path_is_left_alone
    {T : CaseTables} (fs : FS) (c : Casefold) (p q : gostring)
    (t : list Obs) :
  mode_of c = str "fs" ->
  run fs (decide c p) = (Some (REWRITTEN q), t) ->
  forallb proper_name (listed t) = true ->
  fst (run fs (decide c q)) = Some UNCHANGED.
Proof.
  intros Hm Hr Hl. rewrite (@decide_fs_run _ fs c p Hm) in Hr.
  destruct (is_empty p || streq p [slash] || skip c p); [discriminate|].
  destruct (run fs (canonicalFS c p)) as [[[q' ok]|] t0] eqn:Ec;
    [|discriminate].
  destruct ok; [|discriminate].
  destruct (streq q' p); [discriminate|].
  inversion Hr; subst q' t0.
  destruct (@canonicalFS_fixed_point _ fs c p q t Ec Hl) as (t' & Ht').
  rewrite (@decide_fs_run _ fs c q Hm), Ht', streq_refl.
  destruct (is_empty q || streq q [slash] || skip c q); reflexivity.
Qed.

Lemma X16_witness :
  fst (run sample.site
         (decide (H := sample.tables)
                 (sample.provisioned (sample.config "fs" "/srv" []))
                 (str "/scripts/MyScript.bat")))
  = Some UNCHANGED.
Proof.
  apply (@X16_canonical_path_is_left_alone sample.tables sample.site
           (sample.provisioned (sample.config "fs" "/srv" []))
           (str "/Scripts/myscript.bat") (str "/scripts/MyScript.bat")
           (snd (run sample.site
                     (decide (H := sample.tables)
                        (sample.provisioned (sample.config "fs" "/srv" []))
                        (str "/Scripts/myscript.bat"))))).
  - reflexivity.
  - reflexivity.
  - reflexivity.
Defined.

(** ** Provisioning *)

Section Provisioning.
Context {T : CaseTables}.

Lemma Join_absolute (wd root : gostring) :
  strings.HasPrefix wd [slash] = true -> root <> [] ->
  strings.HasPrefix (filepath.Join [wd; root]) [slash] = true.
Proof.
  intros Hwd Hroot. apply HasPrefix_slash in Hwd. destruct Hwd as [w ->].
  cbn [filepath.Join strings.Join].
  change ((slash :: w) ++ [slash] ++ root) with (slash :: (w ++ slash :: root)).
  rewrite clean_spec.Clean_rooted_path. reflexivity.
Qed.

Lemma Provision_again (c c' : Casefold) t :
  Yields (Provision c) t c' ->
  forallb getwd_absolute t = true ->
  (mode_of c = str "fs" -> Root c <> [] ->
   strings.HasPrefix (Root c') [slash] = true) /\
  (forall t' c'', Yields (Provision c') t' c'' -> c'' = c').
Proof.
  unfold Provision. cbv zeta.
  assert (Hm : forall f, mode_of (set_fold c f) = mode_of c) by reflexivity.
  assert (Hr : forall root, mode_of (set_Root c root) = mode_of c) by reflexivity.
  destruct (is_empty (mode_of c) || streq (mode_of c) (str "lower")) eqn:E1.
  { intros Hy _. apply Yields_inv in Hy. destruct Hy as [_ ->]. split.
    - intros E. rewrite E in E1. discriminate.
    - intros t' c''. rewrite Hm, E1. intros Hy.
      apply Yields_inv in Hy. destruct Hy as [_ ->]. reflexivity. }
  destruct (streq (mode_of c) (str "fold")) eqn:E2.
  { intros Hy _. apply Yields_inv in Hy. destruct Hy as [_ ->]. split.
    - intros E. rewrite E in E2. discriminate.
    - intros t' c''. rewrite Hm, E1, E2. intros Hy.
      apply Yields_inv in Hy. destruct Hy as [_ ->]. reflexivity. }
  destruct (streq (mode_of c) (str "fs")) eqn:E3.
  2:{ intros Hy _. apply Yields_inv in Hy. destruct Hy as (x & t0 & -> & Hy).
      apply Yields_inv in Hy. destruct Hy as [_ ->]. split.
      - intros E. rewrite E in E3. discriminate.
      - intros t' c''. rewrite Hm, E1, E2, E3. intros Hy.
        apply Yields_inv in Hy. destruct Hy as (x' & t1 & -> & Hy).
        apply Yields_inv in Hy. destruct Hy as [_ ->]. reflexivity. }
  destruct (is_empty (Root c)) eqn:E4.
  { intros Hy _. apply Yields_inv in Hy. destruct Hy as (x & t0 & -> & Hy).
    apply Yields_inv in Hy. destruct Hy as [_ ->]. split.
    - intros _ Hne. apply is_empty_spec in E4. contradiction.
    - intros t' c''. rewrite E1, E2, E3, E4. intros Hy.
      apply Yields_inv in Hy. destruct Hy as (x' & t1 & -> & Hy).
      apply Yields_inv in Hy. destruct Hy as [_ ->]. reflexivity. }
  unfold filepath.Abs, filepath.IsAbs.
  destruct (strings.HasPrefix (Root c) [slash]) eqn:E5; cbn [negb].
  { intros Hy _. apply Yields_inv in Hy. destruct Hy as [_ ->]. split.
    - auto.
    - intros t' c''. rewrite E1, E2, E3, E4, E5. cbn [negb]. intros Hy.
      apply Yields_inv in Hy. destruct Hy as [_ ->]. reflexivity. }
  cbn [bind]. intros Hy Hwd.
  apply Yields_inv in Hy. destruct Hy as (wd & t0 & -> & Hy).
  cbn [forallb getwd_absolute] in Hwd. apply andb_true_iff in Hwd.
  destruct Hwd as [Hwd _].
  destruct wd as [wd|]; [|discriminate].
  cbn [bind] in Hy. apply Yields_inv in Hy. destruct Hy as [_ ->].
  assert (Hne : Root c <> []).
  { intros E. rewrite E in E4. discriminate. }
  pose proof (Join_absolute wd Hwd Hne) as Habs.
  split; [intros _ _; exact Habs|].
  intros t' c''. rewrite Hr, E1, E2, E3. cbn [set_Root Root].
  rewrite Habs. cbn [negb].
  destruct (filepath.Join [wd; Root c]) eqn:Ej; [discriminate|].
  cbn [is_empty]. intros Hy.
  apply Yields_inv in Hy. destruct Hy as [_ ->]. reflexivity.
Qed.

End Provisioning.

(** X17: when the working directory that [Provision] got, if it asked, is
    absolute, the root that it leaves in mode [fs] is absolute unless it
    was empty, and provisioning the result again returns it as it is. *)
Theorem X17_provisioning_twice_changes_nothing
    {T : CaseTables} (c c' : Casefold) (t : list Obs) :
  Yields (Provision c) t c' ->
  forallb getwd_absolute t = true ->
  (mode_of c = str "fs" -> Root c <> [] ->
   strings.HasPrefix (Root c') [slash] = true) /\
  (forall t' c'', Yields (Provision c') t' c'' -> c'' = c').
Proof. apply Provision_again. Qed.

Lemma X17_witness :
  (mode_of (H := sample.tables) (sample.config "fs" "site" []) = str "fs" ->
   Root (sample.config "fs" "site" []) <> [] ->
   strings.HasPrefix
     (Root (sample.provisioned (sample.config "fs" "site" []))) [slash] = true) /\
  (forall t' c'',
      Yields (Provision (H := sample.tables)
                        (sample.provisioned (sample.config "fs" "site" [])))
             t' c'' ->
      c'' = sample.provisioned (sample.config "fs" "site" [])).
Proof.
  apply (@X17_provisioning_twice_changes_nothing sample.tables
           (sample.config "fs" "site" [])
           (sample.provisioned (sample.config "fs" "site" []))
           (snd (run sample.site
                     (Provision (H := sample.tables)
                                (sample.config "fs" "site" []))))).
  - apply (@run_Yields _ sample.site). reflexivity.
  - reflexivity.
Defined.

(** ** The mode, trimmed and lowered *)

Module mode_facts.
Local Open Scope Z_scope.

Lemma space_byte_ascii (b : ascii) :
  space_byte b = true -> (utf8.RuneSelf <=? byteZ b) = false.
Proof.
  unfold space_byte, strings.asciiSpace, utf8.RuneSelf.
  rewrite !orb_true_iff, !Z.eqb_eq. intros H.
  apply Z.leb_gt. lia.
Qed.

Lemma word_byte_inv (b : ascii) :
  word_byte b = true ->
  (utf8.RuneSelf <=? byteZ b) = false /\ strings.asciiSpace (byteZ b) = false.
Proof.
  unfold word_byte, utf8.RuneSelf.
  rewrite andb_true_iff, negb_true_iff, Z.ltb_lt. intros [H1 H2].
  split; [apply Z.leb_gt; lia | assumption].
Qed.

Lemma TrimSpace_stop_spaces (l : gostring) (rs : gostring) :
  forallb space_byte l = true ->
  strings.TrimSpace_stop (l ++ rs) = strings.TrimSpace_stop rs.
Proof.
  induction l as [|b l IH]; intros Hl; [reflexivity|].
  cbn [forallb] in Hl. apply andb_true_iff in Hl. destruct Hl as [Hb Hl].
  cbn [app strings.TrimSpace_stop]. cbv zeta.
  rewrite (space_byte_ascii b Hb). unfold space_byte in Hb. rewrite Hb.
  apply IH. exact Hl.
Qed.

Lemma TrimSpace_stop_word (m : gostring) :
  forallb word_byte m = true ->
  strings.TrimSpace_stop (rev m) = m.
Proof.
  intros Hm. destruct (rev m) as [|b rs] eqn:Er.
  - apply (f_equal (@rev ascii)) in Er. rewrite rev_involutive in Er.
    rewrite Er. reflexivity.
  - assert (Hb : word_byte b = true).
    { rewrite forallb_forall in Hm. apply Hm. apply in_rev. rewrite Er.
      left. reflexivity. }
    cbn [strings.TrimSpace_stop]. cbv zeta.
    destruct (word_byte_inv b Hb) as [-> ->].
    rewrite <- Er. apply rev_involutive.
Qed.

Lemma TrimSpace_spaces (l : gostring) :
  forallb space_byte l = true -> strings.TrimSpace l = [].
Proof.
  induction l as [|b l IH]; intros Hl; [reflexivity|].
  cbn [forallb] in Hl. apply andb_true_iff in Hl. destruct Hl as [Hb Hl].
  cbn [strings.TrimSpace]. cbv zeta.
  rewrite (space_byte_ascii b Hb). unfold space_byte in Hb. rewrite Hb.
  apply IH. exact Hl.
Qed.

Lemma forallb_rev (A : Type) (f : A -> bool) (l : list A) :
  forallb f (rev l) = forallb f l.
Proof.
  induction l as [|a l IH]; [reflexivity|].
  cbn [rev forallb]. rewrite forallb_app, IH. cbn [forallb].
  rewrite andb_true_r. apply andb_comm.
Qed.

Lemma TrimSpace_padded (pre m post : gostring) :
  forallb space_byte pre = true ->
  forallb word_byte m = true ->
  forallb space_byte post = true ->
  strings.TrimSpace (pre ++ m ++ post) = m.
Proof.
  intros Hpre Hm Hpost. induction pre as [|b pre IH].
  - cbn [app]. destruct m as [|b m].
    + apply TrimSpace_spaces. exact Hpost.
    + pose proof Hm as Hm'. cbn [forallb] in Hm'.
      apply andb_true_iff in Hm'. destruct Hm' as [Hb _].
      cbn [app strings.TrimSpace]. cbv zeta.
      destruct (word_byte_inv b Hb) as [-> ->].
      change (b :: m ++ post) with ((b :: m) ++ post).
      rewrite rev_app_distr, TrimSpace_stop_spaces
        by (rewrite forallb_rev; exact Hpost).
      apply TrimSpace_stop_word. exact Hm.
  - cbn [forallb] in Hpre. apply andb_true_iff in Hpre.
    destruct Hpre as [Hb Hpre].
    cbn [app strings.TrimSpace]. cbv zeta.
    rewrite (space_byte_ascii b Hb). unfold space_byte in Hb. rewrite Hb.
    apply IH. exact Hpre.
Qed.

Lemma word_ascii (m : gostring) : forallb word_byte m = true -> ascii_only m.
Proof.
  rewrite forallb_forall. intros H. apply Forall_forall. intros b Hb.
  apply H in Hb. unfold word_byte in Hb.
  apply andb_true_iff in Hb. destruct Hb as [Hb _].
  apply Z.ltb_lt in Hb. exact Hb.
Qed.

End mode_facts.

(** X18: ASCII white space around the mode and the case of its ASCII
    letters make no difference: the mode that [Provision] and [ServeHTTP]
    switch on is the word lowered, so a word that lowers to [fold] selects
    [cases.Fold()] and one that lowers to [lower] selects [lowerCaser]. *)
Theorem X18_the_mode_is_trimmed_and_lowered
    {T : CaseTables} (c : Casefold) (pre m post : gostring) :
  Mode c = pre ++ m ++ post ->
  forallb space_byte pre = true ->
  forallb word_byte m = true ->
  forallb space_byte post = true ->
  mode_of c = strings.lowerASCII m /\
  (strings.lowerASCII m = str "fold" ->
   Provision c = Ret (set_fold c cases_Fold)) /\
  (strings.lowerASCII m = str "lower" ->
   Provision c = Ret (set_fold c lowerCaser)).
Proof.
  intros Hmode Hpre Hm Hpost.
  assert (E : mode_of c = strings.lowerASCII m).
  { unfold mode_of. rewrite Hmode.
    rewrite mode_facts.TrimSpace_padded by assumption.
    apply caser_facts.ToLower_ascii. apply mode_facts.word_ascii. exact Hm. }
  split; [exact E|].
  unfold Provision. cbv zeta. rewrite E.
  split; intros ->; reflexivity.
Qed.

Lemma X18_witness :
  mode_of (H := sample.tables) (sample.config "  FoLD " "" [])
  = strings.lowerASCII (str "FoLD") /\
  (strings.lowerASCII (str "FoLD") = str "fold" ->
   Provision (H := sample.tables) (sample.config "  FoLD " "" [])
   = Ret (set_fold (sample.config "  FoLD " "" []) cases_Fold)) /\
  (strings.lowerASCII (str "FoLD") = str "lower" ->
   Provision (H := sample.tables) (sample.config "  FoLD " "" [])
   = Ret (set_fold (sample.config "  FoLD " "" []) lowerCaser)).
Proof.
  apply (@X18_the_mode_is_trimmed_and_lowered sample.tables
           (sample.config "  FoLD " "" []) (str "  ") (str "FoLD") (str " "));
    reflexivity.
Defined.

(** ** The module as Caddy creates it *)

(** X19: the module as [CaddyModule().New] creates it, provisioned without
    a warning, lowers: the decision for every path is [UNCHANGED] when
    [strings.ToLower] leaves the path alone and a rewrite to the lowered
    path otherwise. *)
Theorem X19_the_module_as_created_lowers
    {T : CaseTables} (p : gostring) :
  Provision (New CaddyModule tt)
  = Ret (set_fold (New CaddyModule tt) lowerCaser) /\
  decide (set_fold (New CaddyModule tt) lowerCaser) p
  = Ret (if streq (strings.ToLower p) p then UNCHANGED
         else REWRITTEN (strings.ToLower p)).
Proof.
  split; [reflexivity|].
  set (c := set_fold (New CaddyModule tt) lowerCaser).
  assert (Hs : skip c p = false) by reflexivity.
  assert (Hm : mode_of c = []) by reflexivity.
  assert (Hf : fold c = Some lowerCaser) by reflexivity.
  unfold decide, ServeHTTP. cbn [request_for Request_URL Path].
  rewrite Hs, Hm, Hf. cbn [is_empty orb bind caser_String].
  destruct (is_empty p || streq p [slash]) eqn:E.
  { destruct p as [|c0 p]; [reflexivity|]. cbn [is_empty orb] in E.
    apply streq_spec in E. rewrite E. reflexivity. }
  destruct (streq (strings.ToLower p) p) eqn:El; cbn [negb].
  - reflexivity.
  - unfold observe, rewrite_writer, Header_Set.
    cbn [Writer_Header Header_Has fst]. rewrite streq_refl. reflexivity.
Qed.

(** ** The handler of the tests *)

(** X20: what the tests assert on one path holds on every path: in front
    of [recordHandler], a handler in a caser mode records a path that is
    not excluded as the caser returns it, in [X-Final-Path] and in the
    body, with status 200, and [X-Original-URI] holds the original path
    exactly when the two differ. *)
Theorem X20_the_recorder_sees_the_cased_path
    {T : CaseTables} (c : Casefold) (f : caser) (w : ResponseWriter)
    (p query : gostring) :
  caser_mode (mode_of c) = true -> fold c = Some f -> skip c p = false ->
  exists rec,
    ServeHTTP c w (request_for p query) casefold_test.recordHandler = Ret rec /\
    Header_Get (casefold_test.Rec_Header rec) casefold_test.X_Final_Path
    = caser_String f p /\
    casefold_test.Body rec = caser_String f p /\
    casefold_test.Code rec = casefold_test.StatusOK /\
    Header_Get (casefold_test.Rec_Header rec) X_Original_URI
    = (if streq (caser_String f p) p
       then Header_Get (Writer_Header w) X_Original_URI else p).
Proof.
  intros Hm Hf Hs. unfold ServeHTTP.
  cbn [request_for Request_URL Path]. rewrite Hs.
  fold (caser_mode (mode_of c)). rewrite Hm, Hf. cbn [bind].
  assert (Hkey : X_Original_URI <> casefold_test.X_Final_Path) by discriminate.
  assert (Hsame : caser_String f p = p ->
            exists rec,
              casefold_test.recordHandler w (request_for p query) = Ret rec /\
              Header_Get (casefold_test.Rec_Header rec) casefold_test.X_Final_Path
              = caser_String f p /\
              casefold_test.Body rec = caser_String f p /\
              casefold_test.Code rec = casefold_test.StatusOK /\
              Header_Get (casefold_test.Rec_Header rec) X_Original_URI
              = (if streq (caser_String f p) p
                 then Header_Get (Writer_Header w) X_Original_URI else p)).
  { intros E. eexists. split; [reflexivity|].
    cbn [casefold_test.Rec_Header casefold_test.Body casefold_test.Code
         request_for Request_URL Path].
    rewrite Header_Get_Set, E, streq_refl.
    rewrite (Header_Get_Set_other _ _ Hkey). repeat split. }
  destruct (is_empty p || streq p [slash]) eqn:E0.
  { apply Hsame.
    destruct p as [|c0 p]; [destruct f; reflexivity|].
    cbn [is_empty orb] in E0. apply streq_spec in E0. rewrite E0.
    destruct f; reflexivity. }
  destruct (streq (caser_String f p) p) eqn:E; cbn [negb].
  - apply streq_spec in E. exact (Hsame E).
  - eexists. split; [reflexivity|].
    cbn [casefold_test.Rec_Header casefold_test.Body casefold_test.Code
         rewrite_request rewrite_writer Request_URL Path Writer_Header].
    rewrite Header_Get_Set, (Header_Get_Set_other _ _ Hkey), Header_Get_Set.
    repeat split.
Qed.

Lemma X20_witness :
  exists rec,
    ServeHTTP (H := sample.tables)
              (sample.provisioned (sample.config "lower" "" ["/API/*"%string]))
              sample.writer0 (request_for (str "/HeLLo/World") [])
              casefold_test.recordHandler = Ret rec /\
    Header_Get (casefold_test.Rec_Header rec) casefold_test.X_Final_Path
    = caser_String (H := sample.tables) lowerCaser (str "/HeLLo/World") /\
    casefold_test.Body rec
    = caser_String (H := sample.tables) lowerCaser (str "/HeLLo/World") /\
    casefold_test.Code rec = casefold_test.StatusOK /\
    Header_Get (casefold_test.Rec_Header rec) X_Original_URI
    = (if streq (caser_String (H := sample.tables) lowerCaser
                              (str "/HeLLo/World")) (str "/HeLLo/World")
       then Header_Get (Writer_Header sample.writer0) X_Original_URI
       else str "/HeLLo/World").
Proof.
  apply (@X20_the_recorder_sees_the_cased_path sample.tables
           (sample.provisioned (sample.config "lower" "" ["/API/*"%string]))
           lowerCaser sample.writer0 (str "/HeLLo/World") []); reflexivity.
Defined.

(** ** The handler without mode [fs] *)

Section NoFs.
Context {T : CaseTables}.

Lemma nofs_Provision (c c' : casefold_nofs.Casefold) t :
  Yields (casefold_nofs.Provision c) t c' ->
  exists f,
    c' = casefold_nofs.set_fold c f /\
    (f = cases_Fold <-> casefold_nofs.mode_of c = str "fold").
Proof.
  unfold casefold_nofs.Provision. cbv zeta.
  destruct (is_empty (casefold_nofs.mode_of c)
            || streq (casefold_nofs.mode_of c) (str "lower")) eqn:E1.
  { intros Hy. apply Yields_inv in Hy. destruct Hy as [_ ->].
    exists lowerCaser. split; [reflexivity|]. split; [discriminate|].
    intros E. rewrite E in E1. discriminate. }
  destruct (streq (casefold_nofs.mode_of c) (str "fold")) eqn:E2.
  { intros Hy. apply Yields_inv in Hy. destruct Hy as [_ ->].
    exists cases_Fold. split; [reflexivity|]. apply streq_spec in E2. tauto. }
  intros Hy. apply Yields_inv in Hy. destruct Hy as (x & t0 & -> & Hy).
  apply Yields_inv in Hy. destruct Hy as [_ ->].
  exists lowerCaser. split; [reflexivity|]. split; [discriminate|].
  intros E. rewrite E in E2. discriminate.
Qed.

End NoFs.

(** X21: in the handler.go without mode [fs], every mode but [fold], the
    unknown ones among them, lowers the path after [Provision], as its
    warning says: [ServeHTTP] calls the caser whatever the mode is. *)
Theorem X21_without_fs_an_unknown_mode_lowers
    {T : CaseTables} (R : Type) (c c' : casefold_nofs.Casefold) (t : list Obs)
    (w : ResponseWriter) (r : Request)
    (next : ResponseWriter -> Request -> Prog R) :
  Yields (casefold_nofs.Provision c) t c' ->
  casefold_nofs.mode_of c <> str "fold" ->
  let orig := Path (Request_URL r) in
  casefold_nofs.ServeHTTP c' w r next =
  if is_empty orig || streq orig [slash] || casefold_nofs.skip c orig
     || streq (strings.ToLower orig) orig
  then next w r
  else next (rewrite_writer w orig)
            (rewrite_request r orig (strings.ToLower orig)).
Proof.
  intros Hy Hm. cbv zeta. apply nofs_Provision in Hy.
  destruct Hy as (f & -> & Hf).
  assert (Ef : f = lowerCaser).
  { destruct f; [reflexivity|]. exfalso. apply Hm. apply Hf. reflexivity. }
  subst f. unfold casefold_nofs.ServeHTTP, casefold_nofs.skip.
  cbn [casefold_nofs.set_fold casefold_nofs.Exclude casefold_nofs.fold
       caser_String].
  destruct (is_empty _ || streq _ [slash]); [reflexivity|]. cbn [orb].
  destruct (skip_patterns _ _); [reflexivity|]. cbn [orb].
  destruct (streq _ _); reflexivity.
Qed.

Lemma X21_witness :
  let c := {| casefold_nofs.Mode := str "upper"; casefold_nofs.Exclude := [];
              casefold_nofs.fold := None |} in
  let r := request_for (str "/HeLLo") [] in
  casefold_nofs.ServeHTTP (H := sample.tables)
    (casefold_nofs.set_fold c lowerCaser) sample.writer0 r observe =
  if is_empty (str "/HeLLo") || streq (str "/HeLLo") [slash]
     || casefold_nofs.skip c (str "/HeLLo")
     || streq (strings.ToLower (H := sample.tables) (str "/HeLLo")) (str "/HeLLo")
  then observe sample.writer0 r
  else observe (rewrite_writer sample.writer0 (str "/HeLLo"))
               (rewrite_request r (str "/HeLLo")
                  (strings.ToLower (H := sample.tables) (str "/HeLLo"))).
Proof.
  intros c r.
  apply (@X21_without_fs_an_unknown_mode_lowers sample.tables _ c
           (casefold_nofs.set_fold c lowerCaser)
           [obs (Warn warn_unknown_mode) tt] sample.writer0 r observe).
  - apply (@run_Yields _ sample.site). reflexivity.
  - discriminate.
Defined.

(** X22: in the modes [lower] and [fold], and without a mode, the two
    handler.go provision the same configuration, without a warning, and
    their [ServeHTTP] are the same function of the writer, the request and
    the next handler. *)
Theorem X22_both_handlers_agree_on_the_caser_modes
    {T : CaseTables} (R : Type) (c c' : Casefold)
    (c0' : casefold_nofs.Casefold) (t t0 : list Obs)
    (w : ResponseWriter) (r : Request)
    (next : ResponseWriter -> Request -> Prog R) :
  caser_mode (mode_of c) = true ->
  Yields (Provision c) t c' ->
  Yields (casefold_nofs.Provision (without_root c)) t0 c0' ->
  t = [] /\ t0 = [] /\ c0' = without_root c' /\
  ServeHTTP c' w r next = casefold_nofs.ServeHTTP c0' w r next.
Proof.
  intros Hm Hy Hy0.
  assert (E0 : casefold_nofs.mode_of (without_root c) = mode_of c) by reflexivity.
  unfold casefold_nofs.Provision in Hy0. unfold Provision in Hy.
  cbv zeta in Hy, Hy0. rewrite E0 in Hy0. unfold caser_mode in Hm.
  assert (Hserve : forall f,
             ServeHTTP (set_fold c f) w r next
             = casefold_nofs.ServeHTTP (without_root (set_fold c f)) w r next).
  { intros f. unfold ServeHTTP, casefold_nofs.ServeHTTP, casefold_nofs.skip, skip.
    cbn [without_root casefold_nofs.Exclude casefold_nofs.fold set_fold
         Exclude fold].
    change (mode_of (set_fold c f)) with (mode_of c). rewrite Hm.
    destruct (is_empty _ || streq _ [slash]); [reflexivity|].
    destruct (skip_patterns _ _); reflexivity. }
  destruct (is_empty (mode_of c) || streq (mode_of c) (str "lower")) eqn:E1.
  - apply Yields_inv in Hy, Hy0. destruct Hy as [-> ->], Hy0 as [-> ->].
    repeat split. apply Hserve.
  - cbn [orb] in Hm. rewrite Hm in Hy, Hy0.
    apply Yields_inv in Hy, Hy0. destruct Hy as [-> ->], Hy0 as [-> ->].
    repeat split. apply Hserve.
Qed.

Lemma X22_witness :
  @nil Obs = [] /\ @nil Obs = [] /\
  casefold_nofs.set_fold (without_root (sample.config " Fold" "" ["/x"%string]))
                         cases_Fold
  = without_root (sample.provisioned (sample.config " Fold" "" ["/x"%string])) /\
  ServeHTTP (H := sample.tables)
            (sample.provisioned (sample.config " Fold" "" ["/x"%string]))
            sample.writer0 (request_for sample.strasse []) observe
  = casefold_nofs.ServeHTTP (H := sample.tables)
      (casefold_nofs.set_fold
         (without_root (sample.config " Fold" "" ["/x"%string])) cases_Fold)
      sample.writer0 (request_for sample.strasse []) observe.
Proof.
  apply (@X22_both_handlers_agree_on_the_caser_modes sample.tables _
           (sample.config " Fold" "" ["/x"%string])).
  - reflexivity.
  - apply (@run_Yields _ sample.site). reflexivity.
  - apply (@run_Yields _ sample.site). reflexivity.
Defined.

(** ** UTF-8: what is encoded is decoded *)

(** X23: [utf8.DecodeRuneInString] reads back what [utf8.EncodeRune] has
    written for a Unicode scalar value, whatever follows it, with the width
    that was written, between one and four bytes. *)
Theorem X23_decoding_an_encoded_rune
    (r : Z) (rest : gostring) :
  valid_rune r ->
  utf8.DecodeRuneInString (utf8.EncodeRune r ++ rest)
  = (r, length (utf8.EncodeRune r)) /\
  (1 <= length (utf8.EncodeRune r) <= 4)%nat.
Proof.
  intros Hr. rewrite DecodeRune_decode, EncodeRune_encode by assumption.
  split; [apply decode_encode; assumption | apply encode_length].
Qed.

Lemma X23_witness :
  utf8.DecodeRuneInString (utf8.EncodeRune 0x20AC ++ str "/x")
  = (0x20AC%Z, length (utf8.EncodeRune 0x20AC)) /\
  (1 <= length (utf8.EncodeRune 0x20AC) <= 4)%nat.
Proof.
  apply (@X23_decoding_an_encoded_rune 0x20AC (str "/x")).
  unfold valid_rune, utf8.MaxRune, utf8.surrogateMin, utf8.surrogateMax. lia.
Defined.
